(** * Word Puzzles Lab: the scoring engine, the two generators and the
      per-mode sessions of [src/App.tsx], embedded and verified.

    Conventions of the embedding.
    - A JavaScript string is its sequence of UTF-16 code units; the corpus
      holds upper-case letters, so a code unit is an [ascii] and a word is
      a [list ascii].  [s.length], [s[i]], [s.split("")] and [for..of]
      agree on such strings.
    - An array read [a[i]] is the list lookup [a !! i]; [None] is the
      JavaScript value [undefined].
    - [Math.floor(Math.random() * n)] reads the next raw draw of an
      explicit random source and reduces it below [n]. *)

From Stdlib Require Import Ascii String ZArith Lia.
From stdpp Require Import gmap strings list fin_maps sorting.

Local Open Scope nat_scope.

Abbreviation Word := (list ascii).

(** [type Score = "correct" | "present" | "absent"] *)
Inductive Score : Set := Correct | Present | Absent.

#[global] Instance Score_eq_dec : EqDecision Score.
Proof. solve_decision. Defined.

(** Writing a word as a literal. *)
Definition word (s : string) : Word := list_ascii_of_string s.

(** ** Counting the indices below a bound that satisfy a predicate *)

Definition count_idx (P : nat → Prop) `{∀ i, Decision (P i)} (n : nat) : nat :=
  length (filter P (seq 0 n)).

(** ** ScoringEngine: [scoreWordleGuess] *)

Module Scoring.

(** [remainingCounts] is a [Record<string, number>].  Its keys are the
    values of [answerArr[i]] and it is read at [guessArr[i]]: a one-unit
    string, or [undefined] (the key ["undefined"]) past the end of the
    array.  [option ascii] is exactly that key space. *)
Abbreviation Counts := (gmap (option ascii) Z).

(** Body of the first loop, at index [i]. *)
Definition first_pass_step (guessArr answerArr : Word)
    (st : list Score * Counts) (i : nat) : list Score * Counts :=
  let '(result, remainingCounts) := st in
  if decide (guessArr !! i = answerArr !! i) then
    (<[i := Correct]> result, remainingCounts)
  else
    let ch := answerArr !! i in
    (result, <[ch := (default 0 (remainingCounts !! ch) + 1)%Z]> remainingCounts).

(** Body of the second loop, at index [i]. *)
Definition second_pass_step (guessArr : Word)
    (st : list Score * Counts) (i : nat) : list Score * Counts :=
  let '(result, remainingCounts) := st in
  if decide (result !! i = Some Correct) then st
  else
    let ch := guessArr !! i in
    match remainingCounts !! ch with
    | Some n =>
        if decide (0 < n)%Z then
          (<[i := Present]> result, <[ch := (n - 1)%Z]> remainingCounts)
        else st
    | None => st
    end.

Definition first_pass (guess answer : Word) (k : nat) : list Score * Counts :=
  foldl (first_pass_step guess answer)
        (replicate (length answer) Absent, ∅) (seq 0 k).

Definition second_pass (guess answer : Word) (k : nat) : list Score * Counts :=
  foldl (second_pass_step guess)
        (first_pass guess answer (length answer)) (seq 0 k).

Definition scoreWordleGuess (guess answer : Word) : list Score :=
  (second_pass guess answer (length answer)).1.

(** [computeStreakleResults]: one board per target, one row per guess. *)
Definition computeStreakleResults (guesses targets : list Word)
    : list (list (list Score)) :=
  (λ target, (λ guess, scoreWordleGuess guess target) <$> guesses) <$> targets.

(** A position of a feedback row is marked for letter [L] when the guess
    has [L] there and the row says correct or present. *)
Definition marked (L : ascii) (guess : Word) (row : list Score) (i : nat) : Prop :=
  guess !! i = Some L ∧ (row !! i = Some Correct ∨ row !! i = Some Present).

#[global] Instance marked_dec L guess row i : Decision (marked L guess row i).
Proof. unfold marked. apply _. Defined.

Definition count_marked (L : ascii) (guess : Word) (row : list Score) : nat :=
  count_idx (marked L guess row) (length row).

Definition count_letter (L : ascii) (answer : Word) : nat :=
  length (filter (L =.) answer).

(** [remainingCounts[k]] read as a number, a missing entry being [0]. *)
Definition rcv (rc : Counts) (k : option ascii) : Z := default 0%Z (rc !! k).

(** The answer has [c] at [i] and the guess does not match there. *)
Definition mismatch (guess answer : Word) (c : ascii) (i : nat) : Prop :=
  answer !! i = Some c ∧ guess !! i ≠ answer !! i.

(** The guess has [c] at [i] and the row says present there. *)
Definition present_at (guess : Word) (res : list Score) (c : ascii) (i : nat)
    : Prop :=
  guess !! i = Some c ∧ res !! i = Some Present.

End Scoring.

(** ** Pattern cells and arrays written past their end *)

(** A slot of a pattern array holds what the code stored there: a one-unit
    string, or [undefined] when it copied a letter that a word does not have.
    The wildcard is the string ["_"]. *)
Abbreviation Cell := (option ascii).

Definition wildcard : Cell := Some "_"%char.

(** [a[i] = x] on a JavaScript array: in range it overwrites, past the end
    the array grows and the skipped slots read [undefined]. *)
Definition array_set {A} (i : nat) (x : option A) (a : list (option A))
    : list (option A) :=
  if decide (i < length a) then <[i := x]> a
  else a ++ replicate (i - length a) None ++ [x].

(** ** The random source *)

(** The raw draws of [Math.random()], numbered in call order. *)
Definition Rng := nat → nat.

(** [Math.floor(Math.random() * n)] at call number [pos]: an index below
    [n], and [0] when [n] is [0]. *)
Definition random_index (rng : Rng) (pos n : nat) : nat :=
  if decide (n = 0) then 0 else rng pos mod n.

(** ** PatternGenerator: [matchesPattern], [generateTwoLetterPattern] *)

Module Pattern.

Definition MIN_MATCHES : nat := 3.
Definition MAX_MATCHES : nat := 15.
Definition MAX_PATTERN_ATTEMPTS : nat := 5000.

(** The loop returns [false] at the first slot that is not a wildcard and
    differs from the word's unit there. *)
Definition matchesPattern (w : Word) (patternArr : list Cell) : bool :=
  if decide (length w ≠ length patternArr) then false
  else
    forallb
      (λ i, match patternArr !! i with
            | Some ch => negb (bool_decide (ch ≠ wildcard) && bool_decide (w !! i ≠ ch))
            | None => true
            end)
      (seq 0 (length patternArr)).

(** [candidates]: the indices that are neither [first] nor next to it. *)
Definition second_candidates (wordLen first : nat) : list nat :=
  filter (λ i, i ≠ first ∧ ¬ (Z.abs (Z.of_nat i - Z.of_nat first) ≤ 1)%Z)
         (seq 0 wordLen).

(** One pass through the body of the search loop, up to [count]: [None]
    is the [continue] taken when no second position exists.  [words] is
    [w0 :: _] here, so [words[...]] is read below its length. *)
Definition pattern_attempt (rng : Rng) (words : list Word) (w0 : Word)
    (pos : nat) : option (list Cell * list Word) * nat :=
  let wordLen := length w0 in
  let base := default w0 (words !! random_index rng pos (length words)) in
  let first := random_index rng (pos + 1) wordLen in
  let candidates := second_candidates wordLen first in
  if decide (length candidates = 0) then (None, pos + 2)
  else
    let second :=
      default 0 (candidates !! random_index rng (pos + 2) (length candidates)) in
    let patternArr := replicate wordLen wildcard in
    let patternArr := array_set first (base !! first) patternArr in
    let patternArr := array_set second (base !! second) patternArr in
    let matches := filter (λ w, matchesPattern w patternArr = true) words in
    (Some (patternArr, matches), pos + 3).

Definition in_bounds (count : nat) : Prop :=
  MIN_MATCHES ≤ count ∧ count ≤ MAX_MATCHES.

(** The fallback kept after an out-of-bounds attempt with [count >= 2]. *)
Definition track_fallback (fallback : option (list Cell * list Word))
    (cur : list Cell * list Word) : option (list Cell * list Word) :=
  let count := length cur.2 in
  if decide (2 ≤ count) then
    match fallback with
    | None => Some cur
    | Some best =>
        let target := ((Z.of_nat MIN_MATCHES + Z.of_nat MAX_MATCHES) / 2)%Z in
        let currentDiff := Z.abs (Z.of_nat count - target) in
        let bestDiff := Z.abs (Z.of_nat (length best.2) - target) in
        if decide (currentDiff < bestDiff)%Z then Some cur else fallback
    end
  else fallback.

(** The search loop with [n] attempts left: [inl] is the early return of
    an in-bounds attempt, [inr] the fallback at exhaustion. *)
Fixpoint pattern_search (n : nat) (rng : Rng) (words : list Word) (w0 : Word)
    (pos : nat) (fallback : option (list Cell * list Word))
    : (list Cell * list Word) + option (list Cell * list Word) :=
  match n with
  | 0 => inr fallback
  | S n' =>
      match pattern_attempt rng words w0 pos with
      | (None, pos') => pattern_search n' rng words w0 pos' fallback
      | (Some cur, pos') =>
          if decide (in_bounds (length cur.2)) then inl cur
          else pattern_search n' rng words w0 pos' (track_fallback fallback cur)
      end
  end.

(** The last resort after a search without fallback. *)
Definition last_resort (words : list Word) (w0 : Word) : list Cell * list Word :=
  let wordLen := length w0 in
  let base := w0 in
  let patternArr := replicate wordLen wildcard in
  let patternArr := array_set 0 (base !! 0) patternArr in
  let patternArr :=
    if decide (2 < wordLen) then
      array_set (wordLen - 1) (base !! (wordLen - 1)) patternArr
    else patternArr in
  (patternArr, filter (λ w, matchesPattern w patternArr = true) words).

Definition generateTwoLetterPattern (rng : Rng) (words : list Word)
    : list Cell * list Word :=
  match words with
  | [] => ([], [])
  | w0 :: _ =>
      match pattern_search MAX_PATTERN_ATTEMPTS rng words w0 0 None with
      | inl found => found
      | inr (Some fallback) => fallback
      | inr None => last_resort words w0
      end
  end.

(** The attempts the loop makes when none of them returns early. *)
Fixpoint pattern_trace (n : nat) (rng : Rng) (words : list Word) (w0 : Word)
    (pos : nat) : list (option (list Cell * list Word)) :=
  match n with
  | 0 => []
  | S n' =>
      let '(a, pos') := pattern_attempt rng words w0 pos in
      a :: pattern_trace n' rng words w0 pos'
  end.

(** An attempt that neither returns nor records a fallback. *)
Definition no_fallback_attempt (a : option (list Cell * list Word)) : Prop :=
  match a with
  | None => True
  | Some cur => length cur.2 < 2
  end.

#[global] Instance no_fallback_attempt_dec a : Decision (no_fallback_attempt a).
Proof. destruct a; apply _. Defined.

(** The slots of a pattern that are not the wildcard. *)
Definition concrete_slots (patternArr : list Cell) : list nat :=
  filter (λ i, patternArr !! i ≠ Some wildcard) (seq 0 (length patternArr)).

(** Exactly two concrete slots, not next to each other. *)
Definition two_apart (patternArr : list Cell) : Prop :=
  match concrete_slots patternArr with
  | [i; j] => i + 1 < j
  | _ => False
  end.

(** Equal-length corpus of words without the wildcard character. *)
Definition corpus_of_length (n : nat) (words : list Word) : Prop :=
  Forall (λ w : Word, length w = n ∧ "_"%char ∉ w) words.

(** The pattern the specification describes for the degenerate corpus:
    the first and the last letter of the word, wildcards between. *)
Definition first_last_pattern (w0 : Word) : list Cell :=
  imap (λ k c, if decide (k = 0 ∨ k = length w0 - 1) then Some c else wildcard) w0.

(** What the last resort builds by design: the first letter always, the
    last letter only under its guard [wordLen > 2]. *)
Definition guarded_first_last (w0 : Word) : list Cell :=
  imap (λ k c, if decide (k = 0 ∨ (k = length w0 - 1 ∧ 2 < length w0))
               then Some c else wildcard) w0.

End Pattern.

(** ** HiveBuilder: [uniqueLetters], [shuffleArray], [isBeeWord],
       [isPangram], [buildBeePuzzle] *)

Module Bee.

Definition BEE_MAX_WORDS : nat := 100.
Definition BEE_ATTEMPTS : nat := 600.

(** [uniqueLetters]: the letters of a word in order of first occurrence. *)
Definition uniqueLetters (w : Word) : list ascii :=
  (foldl (λ (st : gset ascii * list ascii) ch,
            let '(seen, order) := st in
            if decide (ch ∈ seen) then st
            else ({[ch]} ∪ seen, order ++ [ch]))
         (∅, []) w).2.

(** The loop of [shuffleArray], from index [i] down to [1].  Both reads
    of the swap are below the length of [copy]. *)
Fixpoint shuffle_loop {A} (rng : Rng) (copy : list A) (i pos : nat)
    : list A * nat :=
  match i with
  | 0 => (copy, pos)
  | S i' =>
      let j := random_index rng pos (i + 1) in
      let copy :=
        match copy !! i, copy !! j with
        | Some ci, Some cj => <[j := ci]> (<[i := cj]> copy)
        | _, _ => copy
        end in
      shuffle_loop rng copy i' (pos + 1)
  end.

Definition shuffleArray {A} (rng : Rng) (arr : list A) (pos : nat)
    : list A * nat :=
  shuffle_loop rng arr (length arr - 1) pos.

(** The text [String.prototype.includes] searches for when handed a
    one-unit string or [undefined]. *)
Definition js_text (c : option ascii) : Word :=
  match c with
  | Some a => [a]
  | None => word "undefined"
  end.

Fixpoint starts_with (needle hay : Word) : bool :=
  match needle, hay with
  | [], _ => true
  | n :: ns, h :: hs => bool_decide (n = h) && starts_with ns hs
  | _ :: _, [] => false
  end.

(** [hay.includes(needle)] *)
Fixpoint includes (hay needle : Word) : bool :=
  starts_with needle hay
  || match hay with
     | [] => false
     | _ :: hs => includes hs needle
     end.

Definition isBeeWord (w : Word) (letters : gset ascii) (center : option ascii)
    : bool :=
  if decide (length w < 4) then false
  else if negb (includes w (js_text center)) then false
  else forallb (λ ch, bool_decide (ch ∈ letters)) w.

Definition isPangram (w : Word) (letters : gset ascii) : bool :=
  forallb (λ l, includes w [l]) (elements letters).

Record Puzzle : Type := mkPuzzle {
  letters : list ascii;
  center : option ascii;
  valid : list Word;
  pangrams : list Word
}.

Definition pangramCandidates (dictionary : list Word) : list Word :=
  filter (λ w, length (uniqueLetters w) = 7 ∧ 7 ≤ length w) dictionary.

(** The body of the search loop up to the record [current]: [None] is
    the [break] on a missing (or empty) base word. *)
Definition bee_attempt (rng : Rng) (dictionary candidates : list Word)
    (pos : nat) : option Puzzle * nat :=
  match candidates !! random_index rng pos (length candidates) with
  | None | Some [] => (None, pos + 1)
  | Some base =>
      let letters := take 7 (uniqueLetters base) in
      let '(shuffled, pos) := shuffleArray rng letters (pos + 1) in
      let center := shuffled !! random_index rng pos (length shuffled) in
      let letterSet : gset ascii := list_to_set shuffled in
      let valid := filter (λ w, isBeeWord w letterSet center = true) dictionary in
      let pangrams := filter (λ w, isPangram w letterSet = true) valid in
      (Some (mkPuzzle shuffled center valid pangrams), pos + 1)
  end.

Definition within_cap (p : Puzzle) : Prop := length (valid p) ≤ BEE_MAX_WORDS.

Definition accepted (p : Puzzle) : Prop :=
  12 ≤ length (valid p) ∧ 0 < length (pangrams p).

Definition track_best (best : option Puzzle) (current : Puzzle) : option Puzzle :=
  match best with
  | None => Some current
  | Some b =>
      if decide (length (valid b) < length (valid current)) then Some current
      else best
  end.

(** The search loop with [n] attempts left. *)
Fixpoint bee_search (n : nat) (rng : Rng) (dictionary candidates : list Word)
    (pos : nat) (best : option Puzzle) : option Puzzle :=
  match n with
  | 0 => best
  | S n' =>
      match bee_attempt rng dictionary candidates pos with
      | (None, _) => best
      | (Some current, pos') =>
          if decide (within_cap current) then
            let best := track_best best current in
            if decide (accepted current) then Some current
            else bee_search n' rng dictionary candidates pos' best
          else bee_search n' rng dictionary candidates pos' best
      end
  end.

Definition buildBeePuzzle (rng : Rng) (dictionary : list Word) : option Puzzle :=
  bee_search BEE_ATTEMPTS rng dictionary (pangramCandidates dictionary) 0 None.

(** The attempts the loop makes when none of them returns early. *)
Fixpoint bee_trace (n : nat) (rng : Rng) (dictionary candidates : list Word)
    (pos : nat) : list Puzzle :=
  match n with
  | 0 => []
  | S n' =>
      match bee_attempt rng dictionary candidates pos with
      | (None, _) => []
      | (Some current, pos') =>
          current :: bee_trace n' rng dictionary candidates pos'
      end
  end.

Definition attempts (rng : Rng) (dictionary : list Word) : list Puzzle :=
  bee_trace BEE_ATTEMPTS rng dictionary (pangramCandidates dictionary) 0.

(** The acceptance test of an attempt: inside the density cap, at least
    12 valid words and at least one pangram. *)
Definition acceptable (p : Puzzle) : Prop := within_cap p ∧ accepted p.

(** The best attempt kept over a list of attempts: those over the density
    cap are skipped, a later attempt replaces the best only when it has
    strictly more valid words. *)
Definition best_tracked (best : option Puzzle) (T : list Puzzle) : option Puzzle :=
  foldl (λ b p, if decide (within_cap p) then track_best b p else b) best T.

End Bee.

(** ** Sessions *)

(** Why a handler returned without accepting the submission: the message
    it set. *)
Inductive Reason : Set :=
  | BadLength | NotInWordList | NoGuessesLeft | LockedGreen
  | TooShort | MissingCenter | OutsideHive | NotInHiveDictionary | AlreadyFound.

(** How a submit handler ended: a silent [return], a rejection with its
    message, an accepted submission, or an uncaught [TypeError] raised
    before any state setter ran. *)
Inductive Outcome : Set :=
  | Ignored
  | Rejected (why : Reason)
  | Accepted
  | Threw.

(** [wordSet && wordSet.has(raw)], for [wordSet : Set<string> | null]. *)
Definition in_word_set (wordSet : option (gset Word)) (raw : Word) : bool :=
  match wordSet with
  | None => false
  | Some ws => bool_decide (raw ∈ ws)
  end.

(** The three phases the specification gives a guessing session. *)
Inductive Status : Set := InProgress | Won | Lost.

(** *** Keyboard hints: the body shared by the three [...LetterStates] *)

Module Hints.

(** The update for one letter with a defined status. *)
Definition hint_update (states : gmap ascii Score) (letter : ascii)
    (status : Score) : gmap ascii Score :=
  let prev := states !! letter in
  match status with
  | Correct => <[letter := Correct]> states
  | Present =>
      if decide (prev ≠ Some Correct) then <[letter := Present]> states
      else states
  | Absent =>
      match prev with
      | None => <[letter := Absent]> states
      | Some _ => states
      end
  end.

(** The inner loop over the positions of one guess. *)
Definition hint_row (states : gmap ascii Score) (guess : Word)
    (resultRow : list Score) : gmap ascii Score :=
  foldl (λ states i,
           match guess !! i, resultRow !! i with
           | Some letter, Some status => hint_update states letter status
           | _, _ => states
           end)
        states (seq 0 (length guess)).

(** [guesses.forEach((guess, rowIndex) => ...)], from row [rowIndex] on. *)
Fixpoint hint_rows (results : list (list Score)) (rowIndex : nat)
    (guesses : list Word) (states : gmap ascii Score) : gmap ascii Score :=
  match guesses with
  | [] => states
  | guess :: rest =>
      let resultRow := default [] (results !! rowIndex) in
      hint_rows results (S rowIndex) rest (hint_row states guess resultRow)
  end.

Definition wordleLetterStates (wordleGuesses : list Word)
    (wordleResults : list (list Score)) : gmap ascii Score :=
  hint_rows wordleResults 0 wordleGuesses ∅.

(** The precedence of the hints: no entry, then absent, present, correct. *)
Definition rank (st : option Score) : nat :=
  match st with
  | None => 0
  | Some Absent => 1
  | Some Present => 2
  | Some Correct => 3
  end.

(** Pointwise order of two hint maps. *)
Definition below (st st' : gmap ascii Score) : Prop :=
  ∀ k, rank (st !! k) ≤ rank (st' !! k).

End Hints.

(** *** WordleSession *)

Module Wordle.

Record State : Type := mkState {
  wordleAnswer : option Word;
  wordleGuesses : list Word;
  wordleResults : list (list Score);
  wordleDone : bool
}.

(** [startNewWordleGame], given the word the random index picked. *)
Definition startNewWordleGame (answer : Word) : State :=
  mkState (Some answer) [] [] false.

Definition handleWordleSubmit (wordSet : option (gset Word)) (s : State)
    (raw : Word) : State * Outcome :=
  match wordleAnswer s with
  | None | Some [] => (s, Ignored)
  | Some answer =>
      if wordleDone s then (s, Ignored)
      else if decide (length raw ≠ 5) then (s, Rejected BadLength)
      else if negb (in_word_set wordSet raw) then (s, Rejected NotInWordList)
      else if decide (6 ≤ length (wordleGuesses s)) then (s, Rejected NoGuessesLeft)
      else
        let score := Scoring.scoreWordleGuess raw answer in
        let newGuesses := wordleGuesses s ++ [raw] in
        let newResults := wordleResults s ++ [score] in
        let done :=
          if decide (raw = answer) then true
          else if decide (6 ≤ length newGuesses) then true
          else wordleDone s in
        (mkState (wordleAnswer s) newGuesses newResults done, Accepted)
  end.

(** The states a round can be in: a fresh game on a corpus word, then
    any submissions. *)
Inductive reachable (words : list Word) (wordSet : option (gset Word))
    : State → Prop :=
  | reach_start answer :
      answer ∈ words → reachable words wordSet (startNewWordleGame answer)
  | reach_submit s raw :
      reachable words wordSet s →
      reachable words wordSet (handleWordleSubmit wordSet s raw).1.

(** Won once a guess equals the answer, lost at six guesses without. *)
Definition solved (s : State) : bool :=
  match wordleAnswer s with
  | Some answer => bool_decide (answer ∈ wordleGuesses s)
  | None => false
  end.

Definition status (s : State) : Status :=
  if solved s then Won
  else if decide (6 ≤ length (wordleGuesses s)) then Lost
  else InProgress.

End Wordle.

(** *** QuordleSession *)

Module Quordle.

Record State : Type := mkState {
  quordleAnswers : option (list Word);
  quordleGuesses : list Word;
  quordleResults : list (list (list Score));
  quordleDone : bool;
  quordleWins : list bool
}.

(** [startNewQuordleGame], given the four distinct words its loop picked. *)
Definition startNewQuordleGame (picked : list Word) : State :=
  mkState (Some picked) [] (replicate 4 []) false (replicate 4 false).

(** The body of the loop over the four boards.  [None] is the
    [TypeError] of scoring against a missing answer.  [newResults] has four
    rows by construction and [quordleWins] is only ever built with four
    entries, so both writes are in range. *)
Definition board_step (raw : Word) (answers : list Word)
    (acc : option (list (list (list Score)) * list bool)) (boardIndex : nat)
    : option (list (list (list Score)) * list bool) :=
  '(newResults, newWins) ← acc;
  answer ← answers !! boardIndex;
  let score := Scoring.scoreWordleGuess raw answer in
  let newResults := alter (λ rows, rows ++ [score]) boardIndex newResults in
  let newWins :=
    if negb (default false (newWins !! boardIndex)) && bool_decide (raw = answer)
    then <[boardIndex := true]> newWins
    else newWins in
  Some (newResults, newWins).

Definition handleQuordleSubmit (wordSet : option (gset Word)) (s : State)
    (raw : Word) : State * Outcome :=
  match quordleAnswers s with
  | None => (s, Ignored)
  | Some answers =>
      if quordleDone s then (s, Ignored)
      else if decide (length raw ≠ 5) then (s, Rejected BadLength)
      else if negb (in_word_set wordSet raw) then (s, Rejected NotInWordList)
      else if decide (9 ≤ length (quordleGuesses s)) then (s, Rejected NoGuessesLeft)
      else
        let newGuesses := quordleGuesses s ++ [raw] in
        let newResults :=
          if decide (length (quordleResults s) = 4) then quordleResults s
          else replicate 4 [] in
        let newWins := quordleWins s in
        match foldl (board_step raw answers) (Some (newResults, newWins)) (seq 0 4) with
        | None => (s, Threw)
        | Some (newResults, newWins) =>
            let allSolved := forallb id newWins in
            let done :=
              if allSolved then true
              else if decide (9 ≤ length newGuesses) then true
              else quordleDone s in
            (mkState (quordleAnswers s) newGuesses newResults done newWins, Accepted)
        end
  end.

(** What the picking loop of [startNewQuordleGame] guarantees on exit. *)
Definition picks (words picked : list Word) : Prop :=
  length picked = 4 ∧ NoDup picked ∧ picked ⊆ words.

(** The state after a list of submissions, in order. *)
Definition run (wordSet : option (gset Word)) (s : State) (raws : list Word)
    : State :=
  foldl (λ s raw, (handleQuordleSubmit wordSet s raw).1) s raws.

Inductive reachable (words : list Word) (wordSet : option (gset Word))
    : State → Prop :=
  | reach_start picked :
      picks words picked → reachable words wordSet (startNewQuordleGame picked)
  | reach_submit s raw :
      reachable words wordSet s →
      reachable words wordSet (handleQuordleSubmit wordSet s raw).1.

(** Board [i]'s win flag is set. *)
Definition won_board (s : State) (i : nat) : Prop :=
  quordleWins s !! i = Some true.

(** Won with all four flags set, lost at nine guesses without. *)
Definition status (s : State) : Status :=
  if forallb id (quordleWins s) then Won
  else if decide (9 ≤ length (quordleGuesses s)) then Lost
  else InProgress.

(** The shape every state of a round keeps. *)
Definition shaped (s : State) : Prop :=
  (∃ answers, quordleAnswers s = Some answers ∧ length answers = 4)
  ∧ length (quordleResults s) = 4
  ∧ length (quordleWins s) = 4.

End Quordle.

(** *** StreakleSession *)

Module Streakle.

Record State : Type := mkState {
  streakleTargets : option (list Word);
  streakleCurrentIndex : nat;
  streakleGuesses : list Word;
  streakleResults : list (list (list Score));
  streakleDone : bool;
  streakleSolved : list bool
}.

(** [solved.findIndex((v) => !v)], with [None] for [-1]. *)
Definition first_unsolved (solved : list bool) : option nat :=
  fst <$> list_find (λ v, v = false) solved.

(** [startNewStreakleGame], given the start word and the three targets
    its loop picked. *)
Definition startNewStreakleGame (startWord : Word) (targets : list Word) : State :=
  let initialGuesses := [startWord] in
  let initialResults := Scoring.computeStreakleResults initialGuesses targets in
  let solved := (λ t, bool_decide (t = startWord)) <$> targets in
  let activeIndex := default 0 (first_unsolved solved) in
  let remaining := (8 - Z.of_nat (length initialGuesses))%Z in
  mkState (Some targets) activeIndex initialGuesses initialResults
          (forallb id solved || bool_decide (remaining ≤ 0)%Z) solved.

(** The inner loop of [streakleLockedPattern] over the columns of a row;
    [guess] is [streakleGuesses[row]], used when it is a non-empty string. *)
Definition lock_row (guess : option Word) (resultRow : list Score)
    (pattern : list Cell) : list Cell :=
  foldl (λ pattern col,
           match guess with
           | Some ((_ :: _) as g) =>
               if decide (resultRow !! col = Some Correct)
               then array_set col (g !! col) pattern
               else pattern
           | _ => pattern
           end)
        pattern (seq 0 (length resultRow)).

Definition streakleLockedPattern (s : State) : list Cell :=
  match streakleTargets s with
  | None | Some [] => []
  | Some _ =>
      let boardResults := default [] (streakleResults s !! streakleCurrentIndex s) in
      foldl (λ pattern row,
               let resultRow := default [] (boardResults !! row) in
               lock_row (streakleGuesses s !! row) resultRow pattern)
            (replicate 5 wildcard) (seq 0 (length boardResults))
  end.

(** The lock check: some slot holds a letter that [raw] does not have. *)
Definition breaks_lock (lockedPattern : list Cell) (raw : Word) : bool :=
  bool_decide (length lockedPattern = 5)
  && existsb (λ i, match lockedPattern !! i with
                   | Some lock =>
                       bool_decide (lock ≠ wildcard) && bool_decide (raw !! i ≠ lock)
                   | None => false
                   end)
             (seq 0 (length lockedPattern)).

Definition handleStreakleSubmit (wordSet : option (gset Word)) (s : State)
    (raw : Word) : State * Outcome :=
  match streakleTargets s with
  | None => (s, Ignored)
  | Some targets =>
      if streakleDone s then (s, Ignored)
      else if decide (length raw ≠ 5) then (s, Rejected BadLength)
      else if negb (in_word_set wordSet raw) then (s, Rejected NotInWordList)
      else if decide (8 ≤ length (streakleGuesses s)) then
        (mkState (streakleTargets s) (streakleCurrentIndex s) (streakleGuesses s)
                 (streakleResults s) true (streakleSolved s),
         Rejected NoGuessesLeft)
      else if breaks_lock (streakleLockedPattern s) raw then (s, Rejected LockedGreen)
      else
        let newGuesses := streakleGuesses s ++ [raw] in
        let newResults := Scoring.computeStreakleResults newGuesses targets in
        let solved := (λ t, bool_decide (t ∈ newGuesses)) <$> targets in
        let allSolved := forallb id solved in
        let done := allSolved in
        let nextTargetIndex :=
          if allSolved then streakleCurrentIndex s
          else if default false (solved !! streakleCurrentIndex s) then
            default (streakleCurrentIndex s) (first_unsolved solved)
          else streakleCurrentIndex s in
        let done :=
          if bool_decide (8 ≤ length newGuesses) && negb allSolved then true
          else done in
        (mkState (streakleTargets s) nextTargetIndex newGuesses newResults done solved,
         Accepted)
  end.

(** What the picking loop of [startNewStreakleGame] guarantees on exit. *)
Definition picks (words : list Word) (startWord : Word) (targets : list Word)
    : Prop :=
  startWord ∈ words ∧ length targets = 3 ∧ NoDup targets
  ∧ (startWord ∉ targets) ∧ targets ⊆ words.

Inductive reachable (words : list Word) (wordSet : option (gset Word))
    : State → Prop :=
  | reach_start startWord targets :
      picks words startWord targets →
      reachable words wordSet (startNewStreakleGame startWord targets)
  | reach_submit s raw :
      reachable words wordSet s →
      reachable words wordSet (handleStreakleSubmit wordSet s raw).1.

(** The corpus of the five-letter modes: five letters each, none of them
    the wildcard character. *)
Definition corpus (words : list Word) : Prop :=
  Forall (λ w : Word, length w = 5 ∧ "_"%char ∉ w) words.

(** Position [i] is locked to letter [X]: an earlier guess has [X] there
    and scored correct there against the active target. *)
Definition locked (s : State) (i : nat) (X : ascii) : Prop :=
  ∃ targets target guess,
    streakleTargets s = Some targets
    ∧ targets !! streakleCurrentIndex s = Some target
    ∧ guess ∈ streakleGuesses s
    ∧ Scoring.scoreWordleGuess guess target !! i = Some Correct
    ∧ guess !! i = Some X.

(** The guess log, the feedback history, the solved flags and the active
    index (and the targets) of [s'] are those of [s]. *)
Definition same_log (s s' : State) : Prop :=
  streakleTargets s' = streakleTargets s
  ∧ streakleCurrentIndex s' = streakleCurrentIndex s
  ∧ streakleGuesses s' = streakleGuesses s
  ∧ streakleResults s' = streakleResults s
  ∧ streakleSolved s' = streakleSolved s.

(** Won with every target solved, lost at eight guesses without. *)
Definition status (s : State) : Status :=
  if forallb id (streakleSolved s) then Won
  else if decide (8 ≤ length (streakleGuesses s)) then Lost
  else InProgress.

(** The step of the inner loop of [streakleLockedPattern]. *)
Definition lock_col (g : Word) (resultRow : list Score) (pattern : list Cell)
    (col : nat) : list Cell :=
  if decide (resultRow !! col = Some Correct) then array_set col (g !! col) pattern
  else pattern.

(** The outer loop of [streakleLockedPattern] over the first [k] rows. *)
Definition lock_rows (guesses : list Word) (boardResults : list (list Score))
    (k : nat) : list Cell :=
  foldl (λ pattern row,
           let resultRow := default [] (boardResults !! row) in
           lock_row (guesses !! row) resultRow pattern)
        (replicate 5 wildcard) (seq 0 k).

(** The shape every state of a round keeps. *)
Definition shaped (s : State) : Prop :=
  ∃ targets,
    streakleTargets s = Some targets ∧ length targets = 3
    ∧ streakleCurrentIndex s < 3
    ∧ streakleResults s
      = Scoring.computeStreakleResults (streakleGuesses s) targets.

End Streakle.

(** *** BeeSession *)

Module BeeSession.

Record State : Type := mkState {
  beeLetters : option (list ascii);
  beeCenterLetter : option ascii;
  beeValidWords : list Word;
  beePangrams : list Word;
  beeFoundWords : list Word;
  beeDictLoading : bool
}.

(** [beeLetterSet = new Set(beeLetters || [])] *)
Definition beeLetterSet (s : State) : gset ascii :=
  list_to_set (default [] (beeLetters s)).

(** [beeValidSet = new Set(beeValidWords)] *)
Definition beeValidSet (s : State) : gset Word :=
  list_to_set (beeValidWords s).

Definition handleBeeSubmit (s : State) (raw : Word) : State * Outcome :=
  match beeLetters s, beeCenterLetter s with
  | Some _, Some centerLetter =>
      if beeDictLoading s then (s, Ignored)
      else if decide (length raw < 4) then (s, Rejected TooShort)
      else if negb (Bee.includes raw [centerLetter]) then (s, Rejected MissingCenter)
      else if negb (forallb (λ ch, bool_decide (ch ∈ beeLetterSet s)) raw)
        then (s, Rejected OutsideHive)
      else if negb (bool_decide (raw ∈ beeValidSet s))
        then (s, Rejected NotInHiveDictionary)
      else if bool_decide (raw ∈ beeFoundWords s) then (s, Rejected AlreadyFound)
      else
        let newFound := beeFoundWords s ++ [raw] in
        (mkState (beeLetters s) (beeCenterLetter s) (beeValidWords s)
                 (beePangrams s) newFound (beeDictLoading s),
         Accepted)
  | _, _ => (s, Ignored)
  end.

(** The handler did not accept the submission. *)
Definition rejected (o : Outcome) : Prop := o ≠ Accepted.

End BeeSession.

(** The same notion for the guessing sessions. *)
Definition not_accepted (o : Outcome) : Prop := o ≠ Accepted.

(** ** Further definitions, for the properties of Part III *)

Module HintMarks.

(** Letter [L] carries mark [sc] at some position of some guess. *)
Definition has_mark (guesses : list Word) (results : list (list Score))
    (L : ascii) (sc : Score) : Prop :=
  ∃ row g r i,
    guesses !! row = Some g ∧ results !! row = Some r
    ∧ g !! i = Some L ∧ r !! i = Some sc.

End HintMarks.

Module HivePuzzle.

(** What a hive puzzle over a dictionary has to be: seven distinct letters,
    a center among them, as valid words exactly the dictionary words of at
    least four letters that contain the center and stay inside the hive,
    at most a hundred of them, and as pangrams exactly the valid words
    that use every letter of the hive. *)
Definition well_formed (dictionary : list Word) (p : Bee.Puzzle) : Prop :=
  length (Bee.letters p) = 7 ∧ NoDup (Bee.letters p)
  ∧ (∃ c, Bee.center p = Some c ∧ c ∈ Bee.letters p
          ∧ ∀ w, w ∈ Bee.valid p
                 ↔ w ∈ dictionary ∧ 4 ≤ length w ∧ c ∈ w
                   ∧ ∀ ch, ch ∈ w → ch ∈ Bee.letters p)
  ∧ (∀ w, w ∈ Bee.pangrams p
          ↔ w ∈ Bee.valid p ∧ ∀ l, l ∈ Bee.letters p → l ∈ w)
  ∧ Bee.valid p `sublist_of` dictionary
  ∧ length (Bee.valid p) ≤ 100.

End HivePuzzle.

Module BeeRound.
Import BeeSession.

(** The state after a list of submissions, in order. *)
Definition run (s : State) (raws : list Word) : State :=
  foldl (λ s raw, (handleBeeSubmit s raw).1) s raws.

(** [startNewBeeGame].  Its three early returns and the failed build only
    set the message, which is not part of [State].  [beeDictError] and
    [beeDict] are the two other state variables it reads; [rng] feeds
    [buildBeePuzzle] and [rngOuter] is the rest of the random source, read by
    the shuffle of the outer letters.  A puzzle without center is never
    built; on it the code would store [undefined] as center and as head of
    the letters, and the handler, which returns at once on a missing center,
    could not tell that from the state given here. *)
Definition startNewBeeGame (rng rngOuter : Rng) (beeDictError : string)
    (beeDict : list Word) (s : State) : State :=
  if beeDictLoading s then s
  else if decide (beeDictError ≠ ""%string) then s
  else if decide (length beeDict = 0) then s
  else
    match Bee.buildBeePuzzle rng beeDict with
    | None => s
    | Some puzzle =>
        let outerShuffled :=
          (Bee.shuffleArray rngOuter
             (filter (λ l, Some l ≠ Bee.center puzzle) (Bee.letters puzzle)) 0).1 in
        match Bee.center puzzle with
        | Some c =>
            mkState (Some (c :: outerShuffled)) (Some c) (Bee.valid puzzle)
                    (Bee.pangrams puzzle) [] (beeDictLoading s)
        | None =>
            mkState (Some outerShuffled) None (Bee.valid puzzle)
                    (Bee.pangrams puzzle) [] (beeDictLoading s)
        end
    end.

(** [shuffleBeeLetters]: the center stays in front, the others are
    reshuffled. *)
Definition shuffleBeeLetters (rng : Rng) (pos : nat) (s : State) : State :=
  match beeLetters s, beeCenterLetter s with
  | Some ls, Some c =>
      let outer := filter (λ l, l ≠ c) ls in
      let reshuffled := (Bee.shuffleArray rng outer pos).1 in
      mkState (Some (c :: reshuffled)) (beeCenterLetter s) (beeValidWords s)
              (beePangrams s) (beeFoundWords s) (beeDictLoading s)
  | _, _ => s
  end.

End BeeRound.

Module PatternPolicy.
Import Pattern.

(** The attempts of a full search, [None] for an attempt that took the
    [continue]. *)
Definition attempts (rng : Rng) (words : list Word) (w0 : Word)
    : list (option (list Cell * list Word)) :=
  pattern_trace MAX_PATTERN_ATTEMPTS rng words w0 0.

(** [Math.abs(count - target)] for the matches of an attempt. *)
Definition target_distance (cur : list Cell * list Word) : Z :=
  Z.abs (Z.of_nat (length cur.2)
         - (Z.of_nat MIN_MATCHES + Z.of_nat MAX_MATCHES) / 2).

(** The fallback kept over a list of attempts. *)
Definition best_fallback (fallback : option (list Cell * list Word))
    (T : list (option (list Cell * list Word))) : option (list Cell * list Word) :=
  foldl (λ fb a, match a with
                 | None => fb
                 | Some cur => track_fallback fb cur
                 end) fallback T.

(** The word has the length of the pattern and its letter at every slot
    that is not the wildcard. *)
Definition agrees (w : Word) (patternArr : list Cell) : Prop :=
  length w = length patternArr
  ∧ ∀ i ch, patternArr !! i = Some ch → ch = wildcard ∨ w !! i = ch.

(** The matches of a result are the words of the corpus that fit its
    pattern, in corpus order. *)
Definition exact_matches (words : list Word) (cur : list Cell * list Word) : Prop :=
  cur.2 = filter (λ w, matchesPattern w cur.1 = true) words.

End PatternPolicy.

Module Keyboard.

(** [streakleLetterStates]: the loop of [wordleLetterStates] over the
    feedback of the active target. *)
Definition streakleLetterStates (s : Streakle.State) : gmap ascii Score :=
  match Streakle.streakleTargets s with
  | None | Some [] => ∅
  | Some _ =>
      let boardResults :=
        default [] (Streakle.streakleResults s !! Streakle.streakleCurrentIndex s) in
      Hints.hint_rows boardResults 0 (Streakle.streakleGuesses s) ∅
  end.

(** Some guess has [L] where the target has it. *)
Definition placed (guesses : list Word) (target : Word) (L : ascii) : Prop :=
  ∃ g i, g ∈ guesses ∧ g !! i = Some L ∧ target !! i = Some L.

(** Some guess has [L]. *)
Definition tried (guesses : list Word) (L : ascii) : Prop :=
  ∃ g, g ∈ guesses ∧ L ∈ g.

(** What a hint tells about its letter: green for a letter placed where
    the target has it, yellow for a letter of the target that was tried but
    never placed, grey for a tried letter the target does not have, and
    no hint for a letter never tried. *)
Definition explains (hint : option Score) (guesses : list Word) (target : Word)
    (L : ascii) : Prop :=
  (hint = Some Correct ↔ placed guesses target L)
  ∧ (hint = Some Present ↔ tried guesses L ∧ L ∈ target ∧ ¬ placed guesses target L)
  ∧ (hint = Some Absent ↔ tried guesses L ∧ L ∉ target)
  ∧ (hint = None ↔ ¬ tried guesses L).

End Keyboard.

Module Picking.

(** [words[Math.floor(Math.random() * words.length)]] at call number
    [pos], on the non-empty list [words = w0 :: _]. *)
Definition draw (rng : Rng) (words : list Word) (w0 : Word) (pos : nat) : Word :=
  default w0 (words !! random_index rng pos (length words)).

(** The picking loops of [startNewQuordleGame] and [startNewStreakleGame]:
    [while (picked.length < need)], drawing a candidate and keeping it when
    it is not the banned word (the start word of Streakle; Quordle bans
    none) and not picked yet.  [fuel] bounds the number of draws; [None]
    says that the loop is still running after that many. *)
Fixpoint pick_loop (fuel need : nat) (banned : option Word) (rng : Rng)
    (words : list Word) (w0 : Word) (picked : list Word) (pos : nat)
    : option (list Word * nat) :=
  if decide (need ≤ length picked) then Some (picked, pos)
  else
    match fuel with
    | 0 => None
    | S fuel' =>
        let candidate := draw rng words w0 pos in
        if bool_decide (Some candidate ≠ banned)
           && negb (bool_decide (candidate ∈ picked))
        then pick_loop fuel' need banned rng words w0 (picked ++ [candidate]) (pos + 1)
        else pick_loop fuel' need banned rng words w0 picked (pos + 1)
    end.

(** The state [startNewQuordleGame] sets on a non-empty word list, when
    its loop ends within [fuel] draws. *)
Definition quordle_start (fuel : nat) (rng : Rng) (words : list Word)
    : option Quordle.State :=
  match words with
  | [] => None
  | w0 :: _ =>
      '(picked, _) ← pick_loop fuel 4 None rng words w0 [] 0;
      Some (Quordle.startNewQuordleGame picked)
  end.

(** The state [startNewStreakleGame] sets on a non-empty word list, when
    its loop ends within [fuel] draws: the start word is the first draw. *)
Definition streakle_start (fuel : nat) (rng : Rng) (words : list Word)
    : option Streakle.State :=
  match words with
  | [] => None
  | w0 :: _ =>
      let startWord := draw rng words w0 0 in
      '(targets, _) ← pick_loop fuel 3 (Some startWord) rng words w0 [] 1;
      Some (Streakle.startNewStreakleGame startWord targets)
  end.

(** The candidates of the [n] draws from call number [pos] on. *)
Definition draws (rng : Rng) (words : list Word) (w0 : Word) (pos n : nat)
    : list Word :=
  draw rng words w0 <$> seq pos n.

(** The words among the [n] draws from [pos] on, the banned one apart. *)
Definition hits (banned : option Word) (rng : Rng) (words : list Word) (w0 : Word)
    (pos n : nat) : gset Word :=
  list_to_set (draws rng words w0 pos n) ∖ list_to_set (option_list banned).

End Picking.

Module PatternSession.

(** The order of [Array.prototype.sort] without comparator on strings:
    code unit by code unit, a proper prefix first. *)
Fixpoint word_leb (a b : Word) : bool :=
  match a, b with
  | [], _ => true
  | _ :: _, [] => false
  | x :: a', y :: b' =>
      if decide (nat_of_ascii x < nat_of_ascii y) then true
      else if decide (x = y) then word_leb a' b'
      else false
  end.

Definition word_le (a b : Word) : Prop := word_leb a b = true.

#[global] Instance word_le_dec a b : Decision (word_le a b).
Proof. unfold word_le. apply _. Defined.

(** [[...l].sort()].  The order is total and antisymmetric, so the sorted
    rearrangement of a list is unique and any sorting function computes it. *)
Definition js_sort (l : list Word) : list Word := merge_sort word_le l.

Record State : Type := mkState {
  pattern : option (list Cell);
  solutions : list Word;
  foundWords : list Word
}.

(** How [handlePatternSubmit] ended: the silent return without a round,
    one of its four refusals, or an accepted word with the count
    [remaining] that selects the message. *)
Inductive Verdict : Set :=
  | NoRound
  | WrongLength
  | OffPattern
  | NotAllowed
  | Repeated
  | Found (remaining : Z).

(** [startNewPatternGame] on the loaded word list. *)
Definition startNewPatternGame (rng : Rng) (words : list Word) (s : State) : State :=
  match words with
  | [] => s
  | _ :: _ =>
      let '(patternArr, matches) := Pattern.generateTwoLetterPattern rng words in
      mkState (Some patternArr) matches []
  end.

Definition handlePatternSubmit (wordSet : option (gset Word)) (s : State)
    (raw : Word) : State * Verdict :=
  match pattern s with
  | None => (s, NoRound)
  | Some patternArr =>
      if decide (length raw ≠ length patternArr) then (s, WrongLength)
      else if negb (Pattern.matchesPattern raw patternArr) then (s, OffPattern)
      else if negb (in_word_set wordSet raw) then (s, NotAllowed)
      else if bool_decide (raw ∈ foundWords s) then (s, Repeated)
      else
        let updated := js_sort (foundWords s ++ [raw]) in
        let remaining :=
          (Z.of_nat (length (solutions s)) - Z.of_nat (length updated))%Z in
        (mkState (pattern s) (solutions s) updated, Found remaining)
  end.

(** The state after a list of submissions, in order. *)
Definition run (wordSet : option (gset Word)) (s : State) (raws : list Word)
    : State :=
  foldl (λ s raw, (handlePatternSubmit wordSet s raw).1) s raws.

(** The word set the loader stores beside the word list:
    [new Set(list)]. *)
Definition loaded_word_set (words : list Word) : option (gset Word) :=
  Some (list_to_set words).

(** A round on the loaded word list: a fresh game, then the submissions
    [raws]. *)
Definition round (rng : Rng) (words : list Word) (s0 : State) (raws : list Word)
    : State :=
  run (loaded_word_set words) (startNewPatternGame rng words s0) raws.

(** The submission was accepted. *)
Definition found (v : Verdict) : Prop :=
  match v with
  | Found _ => True
  | _ => False
  end.

End PatternSession.

Module Dictionary.

(** A code unit in [A-Z]. *)
Definition is_upper (c : ascii) : Prop :=
  65 ≤ nat_of_ascii c ∧ nat_of_ascii c ≤ 90.

(** A code unit in [a-z]. *)
Definition is_lower (c : ascii) : Prop :=
  97 ≤ nat_of_ascii c ∧ nat_of_ascii c ≤ 122.

(** The character class [[A-Za-z]]. *)
Definition is_letter (c : ascii) : Prop := is_upper c ∨ is_lower c.

#[global] Instance is_upper_dec c : Decision (is_upper c).
Proof. unfold is_upper. apply _. Defined.

#[global] Instance is_lower_dec c : Decision (is_lower c).
Proof. unfold is_lower. apply _. Defined.

#[global] Instance is_letter_dec c : Decision (is_letter c).
Proof. unfold is_letter. apply _. Defined.

(** The maximal runs of letters of a text, in order, [cur] being the run
    under way; runs may be empty. *)
Fixpoint letter_runs (text : list ascii) (cur : Word) : list Word :=
  match text with
  | [] => [cur]
  | c :: rest =>
      if decide (is_letter c) then letter_runs rest (cur ++ [c])
      else cur :: letter_runs rest []
  end.

(** [text.match(/[A-Za-z]{4,}/g) || []]: the quantifier is greedy and the
    search resumes where a match ended, so the matches are the maximal runs
    of letters that have at least four of them. *)
Definition regex_matches (text : list ascii) : list Word :=
  filter (λ w : Word, 4 ≤ length w) (letter_runs text []).

(** [toUpperCase] on a string of letters of [[A-Za-z]]. *)
Definition toUpperCase (w : Word) : Word :=
  (λ c, if decide (is_lower c) then ascii_of_nat (nat_of_ascii c - 32) else c) <$> w.

(** [Array.from(new Set(l))]: the elements in order of first occurrence. *)
Definition set_in_order {A} `{Countable A} (l : list A) : list A :=
  (foldl (λ (st : gset A * list A) x,
            let '(seen, order) := st in
            if decide (x ∈ seen) then st
            else ({[x]} ∪ seen, order ++ [x]))
         (∅, []) l).2.

Definition extractDictionaryWords (text : list ascii) : list Word :=
  let matches := regex_matches text in
  let words := filter (λ w : Word, 4 ≤ length w) (toUpperCase <$> matches) in
  set_in_order words.

End Dictionary.

Module QuordleKeyboard.

(** The entry a letter gets when it is first seen:
    [[undefined, undefined, undefined, undefined]]. *)
Definition blank : list (option Score) := replicate 4 None.

(** The body of the innermost loop of [quordleLetterStates] for a letter
    with a defined status.  An entry is always one of the four-slot arrays
    made here and [boardIndex] is below four, so the write is in range. *)
Definition board_update (states : gmap ascii (list (option Score)))
    (boardIndex : nat) (letter : ascii) (status : Score)
    : gmap ascii (list (option Score)) :=
  let states :=
    match states !! letter with
    | Some _ => states
    | None => <[letter := blank]> states
    end in
  let entry := default blank (states !! letter) in
  let prev := default None (entry !! boardIndex) in
  match status with
  | Correct => <[letter := <[boardIndex := Some Correct]> entry]> states
  | Present =>
      if decide (prev ≠ Some Correct)
      then <[letter := <[boardIndex := Some Present]> entry]> states
      else states
  | Absent =>
      match prev with
      | None => <[letter := <[boardIndex := Some Absent]> entry]> states
      | Some _ => states
      end
  end.

(** The loop over the positions of one guess on one board. *)
Definition board_row (states : gmap ascii (list (option Score)))
    (boardIndex : nat) (guess : Word) (resultRow : list Score)
    : gmap ascii (list (option Score)) :=
  foldl (λ states i,
           match guess !! i, resultRow !! i with
           | Some letter, Some status => board_update states boardIndex letter status
           | _, _ => states
           end)
        states (seq 0 (length guess)).

(** The loop over the four boards for one guess. *)
Definition guess_boards (results : list (list (list Score))) (guessIndex : nat)
    (guess : Word) (states : gmap ascii (list (option Score)))
    : gmap ascii (list (option Score)) :=
  foldl (λ states boardIndex,
           let boardRows := default [] (results !! boardIndex) in
           let resultRow := default [] (boardRows !! guessIndex) in
           board_row states boardIndex guess resultRow)
        states (seq 0 4).

(** [quordleGuesses.forEach((guess, guessIndex) => ...)], from
    [guessIndex] on. *)
Fixpoint guess_rows (results : list (list (list Score))) (guessIndex : nat)
    (guesses : list Word) (states : gmap ascii (list (option Score)))
    : gmap ascii (list (option Score)) :=
  match guesses with
  | [] => states
  | guess :: rest =>
      guess_rows results (S guessIndex) rest (guess_boards results guessIndex guess states)
  end.

Definition quordleLetterStates (quordleGuesses : list Word)
    (quordleResults : list (list (list Score))) : gmap ascii (list (option Score)) :=
  guess_rows quordleResults 0 quordleGuesses ∅.

(** What the keyboard shows of a letter for board [b]: slot [b] of the
    letter's entry, nothing without an entry. *)
Definition board_hints (b : nat) (states : gmap ascii (list (option Score)))
    : gmap ascii Score :=
  omap (λ entry, default None (entry !! b)) states.

(** Every entry has four slots. *)
Definition four_slots (states : gmap ascii (list (option Score))) : Prop :=
  ∀ L entry, states !! L = Some entry → length entry = 4.

End QuordleKeyboard.

(** ** A small corpus on which the theorems are exercised *)

Definition demo_words : list Word :=
  [word "LASER"; word "LATER"; word "APPLE"; word "EERIE"; word "ALERT"].

Definition demo_set : option (gset Word) := Some (list_to_set demo_words).

(** Settles a closed decidable proposition by evaluation. *)
Ltac by_evaluation := apply (bool_decide_unpack _); vm_compute; exact I.

Definition demo_wordle_won : Wordle.State :=
  (Wordle.handleWordleSubmit demo_set (Wordle.startNewWordleGame (word "APPLE"))
     (word "APPLE")).1.

Definition demo_quordle_start : Quordle.State :=
  Quordle.startNewQuordleGame [word "LASER"; word "LATER"; word "APPLE"; word "EERIE"].

Definition demo_quordle_lost : Quordle.State :=
  Quordle.run demo_set demo_quordle_start (replicate 9 (word "ALERT")).

Definition demo_streakle_start : Streakle.State :=
  Streakle.startNewStreakleGame (word "ALERT") [word "LASER"; word "LATER"; word "APPLE"].

Definition demo_streakle_won : Streakle.State :=
  foldl (λ s raw, (Streakle.handleStreakleSubmit demo_set s raw).1)
        demo_streakle_start [word "LASER"; word "LATER"; word "APPLE"].

Definition demo_streakle_locked : Streakle.State :=
  Streakle.startNewStreakleGame (word "LASER") [word "LATER"; word "APPLE"; word "EERIE"].

Definition demo_dictionary : list Word :=
  word <$> ["PLAYERS"; "PARSLEY"; "REPLAYS"; "PLAY"; "PLAYS"; "PLAYER"; "REPLAY";
            "EARLY"; "YEARLY"; "RELAY"; "RELAYS"; "LAYER"; "LAYERS"; "PALE"; "PEAL";
            "PLEA"; "SLAY"; "REAL"; "SEAL"; "SALE"; "LEAP"; "YEAR"; "EARS";
            "PEAR"; "SPRY"]%string.

Definition demo_rng : Rng := λ i, 3 * i + 1.

Definition demo_text : list ascii :=
  word ("players, parsley; replays play plays player replay early yearly relay "
        ++ "relays layer layers pale peal plea slay real seal sale leap year ears "
        ++ "pear spry (and the cat sat)").

(** * Part II: properties *)

(** ** Counting lemmas *)

Lemma count_idx_S (P : nat → Prop) `{∀ i, Decision (P i)} n :
  count_idx P (S n) = count_idx P n + (if decide (P n) then 1 else 0).
Proof.
  unfold count_idx. rewrite seq_S, filter_app, length_app. simpl.
  rewrite filter_cons, filter_nil. by destruct (decide (P n)).
Qed.

Section CountIdx.
Context (P Q R : nat → Prop) `{∀ i, Decision (P i)} `{∀ i, Decision (Q i)}
        `{∀ i, Decision (R i)}.

Lemma count_idx_ext n :
  (∀ i, i < n → P i ↔ Q i) → count_idx P n = count_idx Q n.
Proof.
  induction n as [|n IH]; intros HPQ; [done|].
  rewrite !count_idx_S, IH by (intros; apply HPQ; lia).
  pose proof (HPQ n (Nat.lt_succ_diag_r n)).
  destruct (decide (P n)), (decide (Q n)); tauto || lia.
Qed.

Lemma count_idx_le n :
  (∀ i, i < n → P i → Q i) → count_idx P n ≤ count_idx Q n.
Proof.
  induction n as [|n IH]; intros HPQ; [done|].
  rewrite !count_idx_S.
  specialize (IH (λ i Hi, HPQ i (Nat.lt_lt_succ_r _ _ Hi))).
  pose proof (HPQ n (Nat.lt_succ_diag_r n)).
  destruct (decide (P n)), (decide (Q n)); tauto || lia.
Qed.

Lemma count_idx_split n :
  (∀ i, i < n → P i ↔ Q i ∨ R i) → (∀ i, i < n → ¬ (Q i ∧ R i)) →
  count_idx P n = count_idx Q n + count_idx R n.
Proof.
  induction n as [|n IH]; intros Hor Hdisj; [done|].
  rewrite !count_idx_S, IH by (intros; auto with lia).
  pose proof (Hor n (Nat.lt_succ_diag_r n)) as Hn.
  pose proof (Hdisj n (Nat.lt_succ_diag_r n)) as Hd.
  destruct (decide (P n)), (decide (Q n)), (decide (R n)); tauto || lia.
Qed.

Lemma count_idx_bound n : count_idx P n ≤ n.
Proof.
  induction n as [|n IH]; [done|]. rewrite count_idx_S.
  destruct (decide (P n)); lia.
Qed.
End CountIdx.

Lemma count_idx_lookup {A} `{EqDecision A} (x : A) (l : list A) :
  count_idx (λ i, l !! i = Some x) (length l) = length (filter (x =.) l).
Proof.
  induction l as [|a l IH] using rev_ind; [done|].
  rewrite length_app, Nat.add_1_r, count_idx_S, filter_app, length_app.
  rewrite <- IH. f_equal.
  - apply count_idx_ext. intros i Hi. by rewrite lookup_app_l.
  - rewrite list_lookup_middle by done. rewrite filter_cons, filter_nil.
    destruct (decide (Some a = Some x)) as [[= ->]|Hne].
    + by rewrite decide_True.
    + rewrite decide_False; [done|]. intros ->. by apply Hne.
Qed.

(** ** ScoringEngine *)

Module ScoringFacts.
Import Scoring.

Lemma first_pass_S guess answer k :
  first_pass guess answer (S k)
  = first_pass_step guess answer (first_pass guess answer k) k.
Proof. unfold first_pass. by rewrite seq_S, foldl_app. Qed.

Lemma second_pass_S guess answer k :
  second_pass guess answer (S k)
  = second_pass_step guess (second_pass guess answer k) k.
Proof. unfold second_pass. by rewrite seq_S, foldl_app. Qed.

Lemma rcv_insert rc k v k' :
  rcv (<[k := v]> rc) k' = if decide (k = k') then v else rcv rc k'.
Proof. unfold rcv. rewrite lookup_insert. by destruct (decide (k = k')). Qed.

Lemma first_pass_spec guess answer k :
  k ≤ length answer →
  ∃ res rc,
    first_pass guess answer k = (res, rc)
    ∧ length res = length answer
    ∧ (∀ i, i < length answer →
         res !! i = Some (if decide (i < k ∧ guess !! i = answer !! i)
                          then Correct else Absent))
    ∧ rc !! None = None
    ∧ (∀ c, rcv rc (Some c) = Z.of_nat (count_idx (mismatch guess answer c) k)).
Proof.
  induction k as [|k IH]; intros Hk.
  { eexists _, _. split; [reflexivity|]. split_and!; [| |done|done].
    - apply length_replicate.
    - intros i Hi. rewrite lookup_replicate_2 by done.
      rewrite decide_False by lia. done. }
  destruct IH as (res & rc & Heq & Hlen & Hres & Hnone & Hcnt); [lia|].
  rewrite first_pass_S, Heq. unfold first_pass_step.
  destruct (lookup_lt_is_Some_2 answer k) as [a Ha]; [lia|].
  destruct (decide (guess !! k = answer !! k)) as [Hm|Hm].
  - eexists _, _. split; [reflexivity|]. split_and!; [| |done|].
    + by rewrite length_insert.
    + intros i Hi. destruct (decide (i = k)) as [->|Hne].
      * rewrite list_lookup_insert_eq by lia. by rewrite decide_True by auto with lia.
      * rewrite list_lookup_insert_ne by done. rewrite Hres by done.
        f_equal.
        destruct (decide (i < S k ∧ guess !! i = answer !! i)) as [[? ?]|n1],
          (decide (i < k ∧ guess !! i = answer !! i)) as [[? ?]|n2];
          try done; exfalso; [apply n2|apply n1]; split; (lia || done).
    + intros c. rewrite Hcnt, count_idx_S.
      rewrite decide_False; [f_equal; lia|]. unfold mismatch. tauto.
  - eexists _, _. split; [reflexivity|]. split_and!; [done| | |].
    + intros i Hi. rewrite Hres by done. f_equal.
      destruct (decide (i < S k ∧ guess !! i = answer !! i)) as [[? ?]|n1],
        (decide (i < k ∧ guess !! i = answer !! i)) as [[? ?]|n2];
        try done; exfalso; [apply n2|apply n1]; split; try (lia || done).
      destruct (decide (i = k)) as [->|]; [done|lia].
    + rewrite Ha. by rewrite lookup_insert_ne.
    + intros c. rewrite Ha, rcv_insert, count_idx_S. unfold mismatch at 2.
      fold (rcv rc (Some a)). destruct (decide (Some a = Some c)) as [[= ->]|Hne].
      * rewrite Hcnt, decide_True; [lia|]. by split.
      * rewrite Hcnt, decide_False; [lia|]. intros [? _]. congruence.
Qed.

Lemma second_pass_spec guess answer k :
  k ≤ length answer →
  ∃ res rc,
    second_pass guess answer k = (res, rc)
    ∧ length res = length answer
    ∧ (∀ i, i < length answer →
         res !! i = Some Correct ↔ guess !! i = answer !! i)
    ∧ (∀ i, res !! i = Some Present → i < k ∧ is_Some (guess !! i))
    ∧ rc !! None = None
    ∧ (∀ key, 0 ≤ rcv rc key)%Z
    ∧ (∀ c, (Z.of_nat (count_idx (present_at guess res c) k) + rcv rc (Some c)
             = Z.of_nat (count_idx (mismatch guess answer c) (length answer)))%Z).
Proof.
  induction k as [|k IH]; intros Hk.
  { destruct (first_pass_spec guess answer (length answer))
      as (res & rc & Heq & Hlen & Hres & Hnone & Hcnt); [done|].
    exists res, rc. unfold second_pass. simpl. split_and!; try done.
    - intros i Hi. rewrite Hres by done. case_decide; [tauto|].
      split; [done|]. intros Hm. exfalso. tauto.
    - intros i HP. exfalso. destruct (decide (i < length answer)) as [Hi|Hi].
      + rewrite Hres in HP by done. by case_decide.
      + rewrite lookup_ge_None_2 in HP by lia. done.
    - intros [c|]; [rewrite Hcnt; lia|]. unfold rcv. by rewrite Hnone. }
  destruct IH as (res & rc & Heq & Hlen & Hcor & Hpre & Hnone & Hpos & Hcnt); [lia|].
  rewrite second_pass_S, Heq. unfold second_pass_step.
  assert (Hk_np : res !! k ≠ Some Present) by (intros HP; apply Hpre in HP; lia).
  assert (Hsame : ∀ c,
    count_idx (present_at guess res c) (S k) = count_idx (present_at guess res c) k).
  { intros c. rewrite count_idx_S, decide_False; [lia|]. unfold present_at. tauto. }
  assert (Hkeep : ∃ res' rc', (res, rc) = (res', rc')
    ∧ length res' = length answer
    ∧ (∀ i, i < length answer → res' !! i = Some Correct ↔ guess !! i = answer !! i)
    ∧ (∀ i, res' !! i = Some Present → i < S k ∧ is_Some (guess !! i))
    ∧ rc' !! None = None ∧ (∀ key, 0 ≤ rcv rc' key)%Z
    ∧ (∀ c, (Z.of_nat (count_idx (present_at guess res' c) (S k)) + rcv rc' (Some c)
             = Z.of_nat (count_idx (mismatch guess answer c) (length answer)))%Z)).
  { exists res, rc. split_and!; try done.
    - intros i HP. apply Hpre in HP. split; [lia|tauto].
    - intros c. rewrite Hsame. apply Hcnt. }
  destruct (decide (res !! k = Some Correct)) as [Hc|Hc]; [done|].
  destruct (rc !! (guess !! k)) as [n|] eqn:Hrc; [|done].
  destruct (decide (0 < n)%Z) as [Hn|Hn]; [|done]. clear Hkeep.
  destruct (guess !! k) as [a|] eqn:Hg; [|congruence].
  eexists _, _. split; [reflexivity|]. split_and!.
  - by rewrite length_insert.
  - intros i Hi. destruct (decide (i = k)) as [->|Hne].
    + rewrite list_lookup_insert_eq by lia. split; [done|].
      intros Hm. exfalso. apply Hc. apply Hcor; [lia|done].
    + rewrite list_lookup_insert_ne by done. by apply Hcor.
  - intros i HP. destruct (decide (i = k)) as [->|Hne].
    + split; [lia|]. by rewrite Hg.
    + rewrite list_lookup_insert_ne in HP by done. apply Hpre in HP.
      split; [lia|tauto].
  - by rewrite lookup_insert_ne.
  - intros key. rewrite rcv_insert. case_decide; [lia|apply Hpos].
  - intros c. rewrite rcv_insert, count_idx_S.
    assert (count_idx (present_at guess (<[k:=Present]> res) c) k
            = count_idx (present_at guess res c) k) as ->.
    { apply count_idx_ext. intros i Hi. unfold present_at.
      by rewrite list_lookup_insert_ne by lia. }
    specialize (Hcnt c). unfold present_at at 2.
    destruct (decide (Some a = Some c)) as [[= ->]|Hne].
    + rewrite decide_True.
      2: { split; [done|]. by rewrite list_lookup_insert_eq by lia. }
      unfold rcv in Hcnt. rewrite Hrc in Hcnt. simpl in Hcnt. lia.
    + rewrite decide_False; [lia|]. intros [? _]. congruence.
Qed.

Lemma score_length guess answer :
  length (scoreWordleGuess guess answer) = length answer.
Proof.
  unfold scoreWordleGuess.
  destruct (second_pass_spec guess answer (length answer))
    as (res & rc & -> & Hlen & _); done.
Qed.

Lemma score_correct_iff guess answer i :
  i < length answer →
  scoreWordleGuess guess answer !! i = Some Correct ↔ guess !! i = answer !! i.
Proof.
  unfold scoreWordleGuess.
  destruct (second_pass_spec guess answer (length answer))
    as (res & rc & -> & _ & Hcor & _); [done|]. apply Hcor.
Qed.

Lemma score_present_defined guess answer i :
  scoreWordleGuess guess answer !! i = Some Present → is_Some (guess !! i).
Proof.
  unfold scoreWordleGuess.
  destruct (second_pass_spec guess answer (length answer))
    as (res & rc & -> & _ & _ & Hpre & _); [done|]. apply Hpre.
Qed.

Lemma score_present_count guess answer c :
  count_idx (present_at guess (scoreWordleGuess guess answer) c) (length answer)
  ≤ count_idx (mismatch guess answer c) (length answer).
Proof.
  unfold scoreWordleGuess.
  destruct (second_pass_spec guess answer (length answer))
    as (res & rc & -> & _ & _ & _ & _ & Hpos & Hcnt); [done|].
  specialize (Hcnt c). specialize (Hpos (Some c)). simpl. lia.
Qed.

(** Conservation holds for any two strings, of equal length or not. *)
Lemma conservation_any L guess answer :
  count_marked L guess (scoreWordleGuess guess answer) ≤ count_letter L answer.
Proof.
  unfold count_marked, count_letter. rewrite score_length.
  set (row := scoreWordleGuess guess answer).
  rewrite <- count_idx_lookup.
  rewrite (count_idx_split (marked L guess row)
             (λ i, guess !! i = Some L ∧ row !! i = Some Correct)
             (present_at guess row L)).
  2: { intros i _. unfold marked, present_at. tauto. }
  2: { intros i _ [[_ H1] [_ H2]]. congruence. }
  rewrite (count_idx_split (λ i, answer !! i = Some L)
             (λ i, answer !! i = Some L ∧ guess !! i = answer !! i)
             (mismatch guess answer L) (length answer)).
  2: { intros i _. unfold mismatch.
       destruct (decide (guess !! i = answer !! i)); tauto. }
  2: { intros i _. unfold mismatch. tauto. }
  apply Nat.add_le_mono; [|apply score_present_count].
  apply count_idx_le. intros i Hi [Hg Hc].
  apply score_correct_iff in Hc; [|done]. split; congruence.
Qed.

End ScoringFacts.

(** C1. Multiset conservation: for a guess and an answer of equal length
    and every letter [L], the feedback row of [scoreWordleGuess] marks at
    most [count(L in answer)] positions holding [L] as correct or present. *)
Theorem score_multiset_conservation (guess answer : Word) (L : ascii) :
  length guess = length answer →
  Scoring.count_marked L guess (Scoring.scoreWordleGuess guess answer)
  ≤ Scoring.count_letter L answer.
Proof. intros _. apply ScoringFacts.conservation_any. Qed.

Lemma score_multiset_conservation_witness :
  length (word "EERIE") = length (word "LATER")
  ∧ Scoring.count_marked "E" (word "EERIE")
      (Scoring.scoreWordleGuess (word "EERIE") (word "LATER"))
    ≤ Scoring.count_letter "E" (word "LATER").
Proof.
  split; [reflexivity|].
  apply (score_multiset_conservation (word "EERIE") (word "LATER") "E").
  reflexivity.
Defined.

(** C10. [scoreWordleGuess] is total on all pairs of strings: the row has
    the length of the answer, and every position at or beyond the end of a
    shorter guess is absent. *)
Theorem score_total_short_guess (guess answer : Word) :
  length (Scoring.scoreWordleGuess guess answer) = length answer
  ∧ ∀ i, length guess ≤ i → i < length answer →
      Scoring.scoreWordleGuess guess answer !! i = Some Absent.
Proof.
  split; [apply ScoringFacts.score_length|]. intros i Hg Ha.
  destruct (lookup_lt_is_Some_2 (Scoring.scoreWordleGuess guess answer) i)
    as [sc Hsc]; [by rewrite ScoringFacts.score_length|].
  destruct (lookup_lt_is_Some_2 answer i) as [a Hai]; [done|].
  rewrite Hsc. destruct sc; [| |done]; exfalso.
  - apply ScoringFacts.score_correct_iff in Hsc; [|done].
    rewrite lookup_ge_None_2 in Hsc by done. congruence.
  - apply ScoringFacts.score_present_defined in Hsc as [x Hx].
    rewrite lookup_ge_None_2 in Hx by done. done.
Qed.

Lemma score_total_short_guess_witness :
  length (Scoring.scoreWordleGuess (word "LA") (word "LATER")) = 5
  ∧ Scoring.scoreWordleGuess (word "LA") (word "LATER") !! 3 = Some Absent.
Proof.
  destruct (score_total_short_guess (word "LA") (word "LATER")) as [Hlen Habs].
  split; [exact Hlen|]. apply Habs; simpl; lia.
Defined.

(** ** Keyboard hints *)

Module HintFacts.
Import Hints.

Lemma below_refl st : below st st.
Proof. by intros k. Qed.

Lemma below_trans st1 st2 st3 : below st1 st2 → below st2 st3 → below st1 st3.
Proof. intros H1 H2 k. etrans; [apply H1|apply H2]. Qed.

Lemma rank_le_3 o : rank o ≤ 3.
Proof. destruct o as [[]|]; simpl; lia. Qed.

Lemma rank_not_correct o : o ≠ Some Correct → rank o ≤ 2.
Proof. destruct o as [[]|]; simpl; intros; try lia. done. Qed.

Lemma rank_some (sc : Score) : 1 ≤ rank (Some sc).
Proof. destruct sc; simpl; lia. Qed.

(** What [hint_update] leaves at a key. *)
Lemma hint_update_lookup st letter status k :
  hint_update st letter status !! k
  = if decide (letter = k) then
      match status with
      | Correct => Some Correct
      | Present => if decide (st !! k ≠ Some Correct) then Some Present else st !! k
      | Absent => match st !! k with None => Some Absent | Some sc => Some sc end
      end
    else st !! k.
Proof.
  unfold hint_update. destruct (decide (letter = k)) as [->|Hne].
  - destruct status.
    + by rewrite lookup_insert_eq.
    + case_decide; [by rewrite lookup_insert_eq|done].
    + destruct (st !! k) eqn:E; [done|by rewrite lookup_insert_eq].
  - destruct status.
    + by rewrite lookup_insert_ne.
    + case_decide; [by rewrite lookup_insert_ne|done].
    + destruct (st !! letter); [done|by rewrite lookup_insert_ne].
Qed.

Lemma hint_update_infl st letter status : below st (hint_update st letter status).
Proof.
  intros k. rewrite hint_update_lookup.
  case_decide; [|done]. destruct status.
  - apply rank_le_3.
  - case_decide; [|done]. by apply rank_not_correct.
  - destruct (st !! k); [done|simpl; lia].
Qed.

Lemma hint_update_mono st st' letter status :
  below st st' → below (hint_update st letter status) (hint_update st' letter status).
Proof.
  intros Hb k. pose proof (Hb k) as Hk. rewrite !hint_update_lookup.
  case_decide; [|done]. destruct status.
  - done.
  - destruct (decide (st !! k ≠ Some Correct)) as [Hs|Hs],
      (decide (st' !! k ≠ Some Correct)) as [Hs'|Hs']; try done.
    + apply dec_stable in Hs'. rewrite Hs'. simpl. lia.
    + apply dec_stable in Hs. rewrite Hs in Hk.
      exfalso. apply rank_not_correct in Hs'. simpl in Hk. lia.
  - destruct (st !! k) as [sc|], (st' !! k) as [sc'|]; try done.
    + pose proof (rank_some sc). change (rank None) with 0 in Hk. lia.
    + apply rank_some.
Qed.

Lemma hint_fold_infl (guess : Word) (row : list Score) (idx : list nat) st :
  below st
    (foldl (λ states i,
              match guess !! i, row !! i with
              | Some letter, Some status => hint_update states letter status
              | _, _ => states
              end) st idx).
Proof.
  revert st. induction idx as [|i idx IH]; intros st; [apply below_refl|].
  simpl. eapply below_trans; [|apply IH].
  destruct (guess !! i), (row !! i); try apply below_refl. apply hint_update_infl.
Qed.

Lemma hint_fold_mono (guess : Word) (row : list Score) (idx : list nat) st st' :
  below st st' →
  below
    (foldl (λ states i,
              match guess !! i, row !! i with
              | Some letter, Some status => hint_update states letter status
              | _, _ => states
              end) st idx)
    (foldl (λ states i,
              match guess !! i, row !! i with
              | Some letter, Some status => hint_update states letter status
              | _, _ => states
              end) st' idx).
Proof.
  revert st st'. induction idx as [|i idx IH]; intros st st' Hb; [done|].
  simpl. apply IH. destruct (guess !! i), (row !! i); try done.
  by apply hint_update_mono.
Qed.

Lemma hint_row_infl st guess row : below st (hint_row st guess row).
Proof. apply hint_fold_infl. Qed.

Lemma hint_row_mono st st' guess row :
  below st st' → below (hint_row st guess row) (hint_row st' guess row).
Proof. apply hint_fold_mono. Qed.

(** A guess without a feedback row changes nothing. *)
Lemma hint_row_nil st guess : hint_row st guess [] = st.
Proof.
  unfold hint_row. generalize (seq 0 (length guess)). intros idx.
  induction idx as [|i idx IH]; [done|]. simpl.
  by destruct (guess !! i).
Qed.

Lemma hint_rows_append results guesses rowIndex st st' g r :
  below st st' →
  below (hint_rows results rowIndex guesses st)
        (hint_rows (results ++ [r]) rowIndex (guesses ++ [g]) st').
Proof.
  revert rowIndex st st'.
  induction guesses as [|g0 rest IH]; intros rowIndex st st' Hb; simpl.
  - eapply below_trans; [exact Hb|apply hint_row_infl].
  - apply IH. destruct (decide (rowIndex < length results)) as [Hlt|Hge].
    + rewrite lookup_app_l by done. by apply hint_row_mono.
    + rewrite (lookup_ge_None_2 results) by lia. simpl. rewrite hint_row_nil.
      eapply below_trans; [exact Hb|apply hint_row_infl].
Qed.

End HintFacts.

(** C9. The keyboard hints are monotone in the order absent < present <
    correct: appending a guess (and a feedback row) never lowers the
    aggregated state of any letter; a correct letter stays correct and a
    present letter is never turned absent. *)
Theorem wordle_hints_monotone (guesses : list Word) (results : list (list Score))
    (g : Word) (r : list Score) (letter : ascii) :
  let before := Hints.wordleLetterStates guesses results !! letter in
  let after := Hints.wordleLetterStates (guesses ++ [g]) (results ++ [r]) !! letter in
  Hints.rank before ≤ Hints.rank after
  ∧ (before = Some Correct → after = Some Correct)
  ∧ (before = Some Present → after = Some Present ∨ after = Some Correct).
Proof.
  intros before after.
  assert (Hle : Hints.rank before ≤ Hints.rank after).
  { apply HintFacts.hint_rows_append, HintFacts.below_refl. }
  split_and!; [done| |]; intros Hb; rewrite Hb in Hle; simpl in Hle;
    destruct after as [[]|]; simpl in Hle; auto; lia.
Qed.

(** ** BeeSession *)

Module BeeSessionFacts.
Import Bee BeeSession.

Lemma includes_singleton (hay : Word) (c : ascii) :
  includes hay [c] = true ↔ c ∈ hay.
Proof.
  induction hay as [|h hay IH]; simpl.
  - split; [done|]. by intros ?%elem_of_nil.
  - rewrite elem_of_cons, <- IH, andb_true_r, orb_true_iff, bool_decide_eq_true.
    done.
Qed.

Lemma forallb_in_set (letters : gset ascii) (raw : Word) :
  forallb (λ ch, bool_decide (ch ∈ letters)) raw = true ↔ ∀ ch, ch ∈ raw → ch ∈ letters.
Proof.
  rewrite forallb_forall. setoid_rewrite bool_decide_eq_true.
  by setoid_rewrite list_elem_of_In.
Qed.

End BeeSessionFacts.

(** C8. A submitted word that lacks the center letter, or that uses a
    letter outside the hive, is never accepted, whatever the valid-word list
    holds: the handler returns before it consults that list and the state,
    the found words with it, is unchanged. *)
Theorem bee_rejects_outside_hive (s : BeeSession.State) (raw : Word) :
  (∃ c, BeeSession.beeCenterLetter s = Some c ∧ c ∉ raw)
  ∨ (∃ ch, ch ∈ raw ∧ ch ∉ BeeSession.beeLetterSet s) →
  (BeeSession.handleBeeSubmit s raw).1 = s
  ∧ BeeSession.beeFoundWords (BeeSession.handleBeeSubmit s raw).1
    = BeeSession.beeFoundWords s
  ∧ BeeSession.rejected (BeeSession.handleBeeSubmit s raw).2
  ∧ (BeeSession.handleBeeSubmit s raw).2 ≠ Rejected NotInHiveDictionary
  ∧ (BeeSession.handleBeeSubmit s raw).2 ≠ Rejected AlreadyFound.
Proof.
  intros Hbad. unfold BeeSession.handleBeeSubmit, BeeSession.rejected.
  destruct (BeeSession.beeLetters s) as [ls|] eqn:Hls; [|done].
  destruct (BeeSession.beeCenterLetter s) as [centerLetter|] eqn:Hc; [|done].
  destruct (BeeSession.beeDictLoading s); [done|].
  case_decide; [done|].
  destruct (Bee.includes raw [centerLetter]) eqn:Hinc; simpl; [|done].
  destruct (forallb _ raw) eqn:Hall; simpl; [|done].
  exfalso. destruct Hbad as [(c & [= <-] & Hnot)|(ch & Hin & Hnot)].
  - by apply Hnot, BeeSessionFacts.includes_singleton.
  - apply Hnot. by eapply BeeSessionFacts.forallb_in_set.
Qed.

Lemma bee_rejects_outside_hive_witness :
  let s := BeeSession.mkState (Some (word "TABCDEF")) (Some "T"%char)
             [word "ABED"; word "BEAT"] [] [] false in
  (BeeSession.handleBeeSubmit s (word "ABED")).1 = s
  ∧ BeeSession.rejected (BeeSession.handleBeeSubmit s (word "ABED")).2.
Proof.
  intros s.
  destruct (bee_rejects_outside_hive s (word "ABED")) as (H1 & _ & H2 & _).
  - left. exists "T"%char. split; [reflexivity|].
    unfold word. simpl. rewrite !elem_of_cons, elem_of_nil.
    intros [?|[?|[?|[?|[]]]]]; discriminate.
  - split; [exact H1|exact H2].
Defined.

(** ** WordleSession *)

Module WordleFacts.
Import Wordle.

Lemma wordle_status_in_progress s :
  status s = InProgress ↔ solved s = false ∧ length (wordleGuesses s) < 6.
Proof.
  unfold status. destruct (solved s); [split; [done|by intros []]|].
  case_decide; split; try done; intros []; (done || lia).
Qed.

(** A finished game returns at the second line of the handler. *)
Lemma wordle_done_ignored wordSet s raw :
  wordleDone s = true → handleWordleSubmit wordSet s raw = (s, Ignored).
Proof.
  intros Hd. unfold handleWordleSubmit.
  destruct (wordleAnswer s) as [[|]|]; try done. by rewrite Hd.
Qed.

(** The flag [wordleDone] is set exactly in the won and lost states. *)
Lemma wordle_done_iff_terminal words wordSet s :
  reachable words wordSet s → wordleDone s = true ↔ status s ≠ InProgress.
Proof.
  induction 1 as [answer Hin|s raw Hreach IH].
  - simpl. split; [done|]. intros Hs. exfalso. apply Hs.
    apply wordle_status_in_progress. split; [|simpl; lia].
    unfold solved. simpl. done.
  - unfold handleWordleSubmit.
    destruct (wordleAnswer s) as [[|a0 answer]|] eqn:Ha; try done.
    destruct (wordleDone s) eqn:Hd; [simpl; by rewrite Hd|].
    destruct (decide (length raw ≠ 5)); [simpl; by rewrite Hd|].
    destruct (negb (in_word_set wordSet raw)); [simpl; by rewrite Hd|].
    destruct (decide (6 ≤ length (wordleGuesses s))); [simpl; by rewrite Hd|].
    assert (Hnot : status s = InProgress).
    { destruct (status s); [done| |]; exfalso;
        (assert (false = true) by (by apply IH)); done. }
    apply wordle_status_in_progress in Hnot as [Hsol Hlen].
    unfold solved in Hsol. rewrite Ha in Hsol. apply bool_decide_eq_false in Hsol.
    cbn [fst wordleDone].
    set (s' := mkState _ _ _ _).
    assert (Hs' : status s' = InProgress
                  ↔ raw ≠ a0 :: answer ∧ length (wordleGuesses s ++ [raw]) < 6).
    { rewrite wordle_status_in_progress. unfold solved, s'. cbn [wordleAnswer wordleGuesses].
      rewrite bool_decide_eq_false, elem_of_app, list_elem_of_singleton.
      split; intros [H1 H2]; (split; [|done]); [intros ->; tauto|].
      intros [?|?]; [done|]. congruence. }
    destruct (decide (raw = a0 :: answer)) as [->|Hne].
    { split; [|done]. intros _ Hf. apply Hs' in Hf as [Hf _]. done. }
    destruct (decide (6 ≤ length (wordleGuesses s ++ [raw]))) as [Hsix|Hsix].
    { split; [|done]. intros _ Hf. apply Hs' in Hf as [_ Hf]. lia. }
    split; [done|]. intros Hf. exfalso. apply Hf, Hs'. split; [done|lia].
Qed.

(** In a reachable state that is won or lost, a submission changes nothing. *)
Lemma wordle_terminal_ignored words wordSet s raw :
  reachable words wordSet s → status s ≠ InProgress →
  handleWordleSubmit wordSet s raw = (s, Ignored).
Proof.
  intros Hr Hs. apply wordle_done_ignored. by eapply wordle_done_iff_terminal.
Qed.

End WordleFacts.

(** ** QuordleSession *)

Module QuordleFacts.
Import Quordle.

(** The loop over the first [k] boards does not throw while answers and
    flags exist, and sets each visited flag to its old value or-ed with
    "the guess is this answer". *)
Lemma board_fold_prefix raw (answers : list Word) results (wins : list bool) k :
  k ≤ length answers → k ≤ length wins →
  ∃ results' wins',
    foldl (board_step raw answers) (Some (results, wins)) (seq 0 k)
    = Some (results', wins')
    ∧ length results' = length results ∧ length wins' = length wins
    ∧ ∀ i a w, answers !! i = Some a → wins !! i = Some w →
        wins' !! i = Some (if decide (i < k) then w || bool_decide (raw = a) else w).
Proof.
  induction k as [|k IH]; intros Ha Hw.
  { exists results, wins. split_and!; try done. }
  destruct IH as (results' & wins' & Heq & Hr & Hlw & Hwins); [lia..|].
  rewrite seq_S, foldl_app, Heq. cbn [foldl Nat.add]. unfold board_step.
  destruct (lookup_lt_is_Some_2 answers k) as [a Hka]; [lia|].
  destruct (lookup_lt_is_Some_2 wins k) as [w Hkw]; [lia|].
  pose proof (Hwins k a w Hka Hkw) as Hk. rewrite decide_False in Hk by lia.
  rewrite Hka. cbn [mbind option_bind]. rewrite Hk. cbn [from_option id].
  eexists _, _. split; [reflexivity|]. split_and!.
  - by rewrite length_alter.
  - destruct (negb w && bool_decide (raw = a)); [by rewrite length_insert|done].
  - intros i a' w' Hia Hiw. specialize (Hwins i a' w' Hia Hiw).
    destruct (decide (i = k)) as [->|Hne].
    + assert (a' = a) as -> by congruence. assert (w' = w) as -> by congruence.
      rewrite decide_True by lia.
      destruct w, (bool_decide (raw = a)); simpl; try done.
      rewrite list_lookup_insert_eq; [done|]. rewrite Hlw. by eapply lookup_lt_Some.
    + assert (Hsame : (if negb w && bool_decide (raw = a)
                       then <[k:=true]> wins' else wins') !! i = wins' !! i).
      { destruct (negb w && bool_decide (raw = a)); [|done].
        by rewrite list_lookup_insert_ne. }
      rewrite Hsame, Hwins.
      destruct (decide (i < k)), (decide (i < S k)); try done; lia.
Qed.

Lemma board_fold_spec raw (answers : list Word) results (wins : list bool) :
  length answers = 4 → length results = 4 → length wins = 4 →
  ∃ results' wins',
    foldl (board_step raw answers) (Some (results, wins)) (seq 0 4)
    = Some (results', wins')
    ∧ length results' = 4 ∧ length wins' = 4
    ∧ ∀ i a w, answers !! i = Some a → wins !! i = Some w →
        wins' !! i = Some (w || bool_decide (raw = a)).
Proof.
  intros Ha Hr Hw.
  destruct (board_fold_prefix raw answers results wins 4)
    as (results' & wins' & Heq & Hr' & Hw' & Hwins); [lia..|].
  exists results', wins'. split_and!; [done|lia|lia|].
  intros i a w Hia Hiw. rewrite (Hwins i a w Hia Hiw).
  rewrite decide_True; [done|]. apply lookup_lt_Some in Hia. lia.
Qed.

(** A submission on a shaped state either leaves the state alone, without
    being accepted, or is accepted and appends to the logs. *)
Lemma quordle_submit_cases wordSet s raw :
  shaped s →
  (handleQuordleSubmit wordSet s raw).1 = s
  ∧ (handleQuordleSubmit wordSet s raw).2 ≠ Accepted
  ∧ (handleQuordleSubmit wordSet s raw).2 ≠ Threw
  ∨ ∃ answers results' wins',
      quordleAnswers s = Some answers
      ∧ quordleDone s = false
      ∧ handleQuordleSubmit wordSet s raw
        = (mkState (Some answers) (quordleGuesses s ++ [raw]) results'
             (if forallb id wins' then true
              else if decide (9 ≤ length (quordleGuesses s ++ [raw])) then true
              else false) wins', Accepted)
      ∧ length results' = 4 ∧ length wins' = 4
      ∧ ∀ i a w, answers !! i = Some a → quordleWins s !! i = Some w →
          wins' !! i = Some (w || bool_decide (raw = a)).
Proof.
  intros ((answers & Ha & Hlen) & Hr & Hw). unfold handleQuordleSubmit.
  rewrite Ha.
  destruct (quordleDone s) eqn:Hd; [by left|].
  destruct (decide (length raw ≠ 5)); [by left|].
  destruct (negb (in_word_set wordSet raw)); [by left|].
  destruct (decide (9 ≤ length (quordleGuesses s))); [by left|].
  right. rewrite decide_True by done.
  destruct (board_fold_spec raw answers (quordleResults s) (quordleWins s))
    as (results' & wins' & -> & Hr' & Hw' & Hwins); try done.
  by exists answers, results', wins'.
Qed.

(** With four answers on the boards the handler never throws. *)
Lemma quordle_submit_returns wordSet s raw :
  shaped s → (handleQuordleSubmit wordSet s raw).2 ≠ Threw.
Proof.
  intros Hs. destruct (quordle_submit_cases wordSet s raw Hs)
    as [(_ & _ & Hno)|(answers & results' & wins' & _ & _ & -> & _)]; done.
Qed.

(** A five-letter corpus word is accepted while the round is open. *)
Lemma quordle_submit_accepts wordSet s raw :
  shaped s → quordleDone s = false → length raw = 5 →
  in_word_set wordSet raw = true → length (quordleGuesses s) < 9 →
  (handleQuordleSubmit wordSet s raw).2 = Accepted.
Proof.
  intros ((answers & Ha & Hal) & Hr & Hw) Hd Hlen Hin Hleft.
  unfold handleQuordleSubmit. rewrite Ha, Hd.
  rewrite decide_False by lia. rewrite Hin. cbn [negb].
  rewrite decide_False by lia. rewrite decide_True by done.
  destruct (board_fold_spec raw answers (quordleResults s) (quordleWins s))
    as (results' & wins' & -> & _); done.
Qed.

Lemma quordle_shaped_start words picked :
  picks words picked → shaped (startNewQuordleGame picked).
Proof. intros (Hlen & _). split_and!; [by eexists|done|done]. Qed.

Lemma quordle_shaped_submit wordSet s raw :
  shaped s → shaped (handleQuordleSubmit wordSet s raw).1.
Proof.
  intros Hs. destruct (quordle_submit_cases wordSet s raw Hs)
    as [[-> _]|(answers & results' & wins' & Ha & _ & -> & Hr & Hw & _)]; [done|].
  destruct Hs as ((answers' & Ha' & Hlen) & _). simplify_eq.
  split_and!; [by eexists|done|done].
Qed.

Lemma quordle_reachable_shaped words wordSet s : reachable words wordSet s → shaped s.
Proof.
  induction 1; [by eapply quordle_shaped_start|by apply quordle_shaped_submit].
Qed.

Lemma quordle_reachable_run words wordSet s raws :
  reachable words wordSet s → reachable words wordSet (run wordSet s raws).
Proof.
  revert s. induction raws as [|raw raws IH]; intros s Hs; [done|].
  simpl. apply IH. by constructor.
Qed.

Lemma quordle_status_in_progress s :
  status s = InProgress
  ↔ forallb id (quordleWins s) = false ∧ length (quordleGuesses s) < 9.
Proof.
  unfold status. destruct (forallb id (quordleWins s)); [split; [done|by intros []]|].
  case_decide; split; try done; intros []; (done || lia).
Qed.

Lemma quordle_done_ignored wordSet s raw :
  quordleDone s = true → handleQuordleSubmit wordSet s raw = (s, Ignored).
Proof.
  intros Hd. unfold handleQuordleSubmit.
  destruct (quordleAnswers s); [|done]. by rewrite Hd.
Qed.

(** The flag [quordleDone] is set exactly in the won and lost states. *)
Lemma quordle_done_iff_terminal words wordSet s :
  reachable words wordSet s → quordleDone s = true ↔ status s ≠ InProgress.
Proof.
  induction 1 as [picked Hp|s raw Hreach IH].
  - simpl. split; [done|]. intros Hs. exfalso. apply Hs.
    apply quordle_status_in_progress. simpl. split; [done|lia].
  - destruct (quordle_submit_cases wordSet s raw (quordle_reachable_shaped _ _ _ Hreach))
      as [[-> _]|(answers & results' & wins' & Ha & Hd & -> & Hr & Hw & _)]; [done|].
    cbn [fst quordleDone]. rewrite quordle_status_in_progress. cbn [quordleWins quordleGuesses].
    destruct (forallb id wins'); [split; [by intros _ []|done]|].
    case_decide; [split; [intros _ []; lia|done]|].
    split; [done|]. intros Hf. exfalso. apply Hf. split; [done|lia].
Qed.

Lemma quordle_terminal_ignored words wordSet s raw :
  reachable words wordSet s → status s ≠ InProgress →
  handleQuordleSubmit wordSet s raw = (s, Ignored).
Proof.
  intros Hr Hs. apply quordle_done_ignored. by eapply quordle_done_iff_terminal.
Qed.

(** A set flag survives one submission. *)
Lemma won_board_step wordSet s raw i :
  shaped s → won_board s i → won_board (handleQuordleSubmit wordSet s raw).1 i.
Proof.
  intros Hs Hw. destruct (quordle_submit_cases wordSet s raw Hs)
    as [[-> _]|(answers & results' & wins' & Ha & _ & -> & _ & _ & Hwins)]; [done|].
  unfold won_board in *. cbn [fst quordleWins].
  destruct Hs as ((answers' & Ha' & Hlen) & _ & Hlw). simplify_eq.
  destruct (lookup_lt_is_Some_2 answers' i) as [a Hia].
  { apply lookup_lt_Some in Hw. lia. }
  by rewrite (Hwins i a true Hia Hw).
Qed.

(** A set flag survives any further submissions. *)
Lemma won_board_run wordSet s raws i :
  shaped s → won_board s i → won_board (run wordSet s raws) i.
Proof.
  revert s. induction raws as [|raw raws IH]; intros s Hs Hw; [done|].
  simpl. apply IH; [by apply quordle_shaped_submit|by apply won_board_step].
Qed.

End QuordleFacts.

(** C3. Quordle independence, in every state a round can reach: a guess
    that is accepted and equals board [i]'s answer sets board [i]'s flag; a
    set flag stays set through any further submissions; a guess different
    from board [i]'s answer leaves board [i]'s flag as it was. *)
Theorem quordle_independence (words : list Word) (wordSet : option (gset Word))
    (s : Quordle.State) (answers : list Word) (raw : Word) (i : nat) (a : Word)
    (later : list Word) :
  Quordle.reachable words wordSet s →
  Quordle.quordleAnswers s = Some answers →
  answers !! i = Some a →
  let s' := (Quordle.handleQuordleSubmit wordSet s raw).1 in
  ((Quordle.handleQuordleSubmit wordSet s raw).2 = Accepted → raw = a →
     Quordle.won_board s' i)
  ∧ (Quordle.won_board s i → Quordle.won_board (Quordle.run wordSet s later) i)
  ∧ (raw ≠ a → Quordle.quordleWins s' !! i = Quordle.quordleWins s !! i).
Proof.
  intros Hreach Ha Hia s'.
  pose proof (QuordleFacts.quordle_reachable_shaped _ _ _ Hreach) as Hs.
  split_and!.
  - intros Hacc ->. subst s'.
    destruct (QuordleFacts.quordle_submit_cases wordSet s a Hs)
      as [(_ & Hno & _)|(answers' & results' & wins' & Ha' & _ & Heq & _ & _ & Hwins)];
      [done|].
    rewrite Heq. unfold Quordle.won_board. cbn [fst Quordle.quordleWins].
    simplify_eq. destruct Hs as ((? & ? & Hlen) & _ & Hlw). simplify_eq.
    destruct (lookup_lt_is_Some_2 (Quordle.quordleWins s) i) as [w Hiw].
    { apply lookup_lt_Some in Hia. lia. }
    rewrite (Hwins i a w Hia Hiw). by rewrite bool_decide_true, orb_true_r.
  - by apply QuordleFacts.won_board_run.
  - intros Hne. subst s'.
    destruct (QuordleFacts.quordle_submit_cases wordSet s raw Hs)
      as [[-> _]|(answers' & results' & wins' & Ha' & _ & Heq & _ & _ & Hwins)];
      [done|].
    rewrite Heq. cbn [fst Quordle.quordleWins].
    simplify_eq. destruct Hs as ((? & ? & Hlen) & _ & Hlw). simplify_eq.
    destruct (lookup_lt_is_Some_2 (Quordle.quordleWins s) i) as [w Hiw].
    { apply lookup_lt_Some in Hia. lia. }
    rewrite (Hwins i a w Hia Hiw), Hiw. by rewrite bool_decide_false, orb_false_r.
Qed.

(** ** StreakleSession *)

Module StreakleFacts.
Import Streakle.

Lemma lock_row_unfold (g : Word) resultRow pattern :
  g ≠ [] →
  lock_row (Some g) resultRow pattern
  = foldl (lock_col g resultRow) pattern (seq 0 (length resultRow)).
Proof. intros Hg. destruct g; [done|]. reflexivity. Qed.

Lemma array_set_in_range {A} i (x : option A) a :
  i < length a → array_set i x a = <[i := x]> a.
Proof. intros Hi. unfold array_set. by rewrite decide_True. Qed.

Lemma lock_cols_spec (g : Word) resultRow pattern c :
  c ≤ length pattern →
  length (foldl (lock_col g resultRow) pattern (seq 0 c)) = length pattern
  ∧ ∀ i, foldl (lock_col g resultRow) pattern (seq 0 c) !! i
         = if decide (i < c ∧ resultRow !! i = Some Correct) then Some (g !! i)
           else pattern !! i.
Proof.
  induction c as [|c IH]; intros Hc.
  { split; [done|]. intros i. case_decide as Hd; [destruct Hd; lia|done]. }
  destruct IH as [Hlen Hlook]; [lia|].
  rewrite seq_S, foldl_app. cbn [foldl Nat.add]. unfold lock_col at 1 3.
  destruct (decide (resultRow !! c = Some Correct)) as [Hcor|Hcor].
  - rewrite array_set_in_range by lia. split; [by rewrite length_insert|].
    intros i. destruct (decide (i = c)) as [->|Hne].
    + rewrite list_lookup_insert_eq by lia. by rewrite decide_True by auto with lia.
    + rewrite list_lookup_insert_ne by done. rewrite Hlook.
      destruct (decide (i < c ∧ resultRow !! i = Some Correct)) as [[? ?]|n1],
        (decide (i < S c ∧ resultRow !! i = Some Correct)) as [[? ?]|n2];
        try done; exfalso; [apply n2|apply n1]; split; (lia || done).
  - split; [done|]. intros i. rewrite Hlook.
    destruct (decide (i < c ∧ resultRow !! i = Some Correct)) as [[? ?]|n1],
      (decide (i < S c ∧ resultRow !! i = Some Correct)) as [[? ?]|n2];
      try done; exfalso; [apply n2|apply n1]; split; try (lia || done).
    destruct (decide (i = c)) as [->|]; [done|lia].
Qed.

(** One row of feedback against [target] pins the positions where the
    guess has the target's letter and leaves the others. *)
Lemma lock_row_spec (g target : Word) (pattern : list Cell) :
  length g = 5 → length target = 5 → length pattern = 5 →
  length (lock_row (Some g) (Scoring.scoreWordleGuess g target) pattern) = 5
  ∧ ∀ i, i < 5 →
      lock_row (Some g) (Scoring.scoreWordleGuess g target) pattern !! i
      = if decide (g !! i = target !! i) then Some (target !! i) else pattern !! i.
Proof.
  intros Hg Ht Hp. rewrite lock_row_unfold by (by destruct g).
  rewrite ScoringFacts.score_length, Ht.
  destruct (lock_cols_spec g (Scoring.scoreWordleGuess g target) pattern 5)
    as [Hlen Hlook]; [lia|].
  split; [lia|]. intros i Hi. rewrite Hlook.
  destruct (decide (g !! i = target !! i)) as [Hm|Hm].
  - rewrite decide_True; [by rewrite Hm|]. split; [done|].
    apply ScoringFacts.score_correct_iff; [lia|done].
  - rewrite decide_False; [done|]. intros [_ Hc].
    apply Hm. eapply ScoringFacts.score_correct_iff; [|done]. lia.
Qed.

Lemma lock_rows_spec (guesses : list Word) (target : Word) k :
  Forall (λ g : Word, length g = 5) guesses → length target = 5 →
  k ≤ length guesses →
  let p := lock_rows guesses ((λ g, Scoring.scoreWordleGuess g target) <$> guesses) k in
  length p = 5
  ∧ ∀ r g i, r < k → guesses !! r = Some g → i < 5 → g !! i = target !! i →
      p !! i = Some (target !! i).
Proof.
  intros Hall Ht. induction k as [|k IH]; intros Hk p.
  { split; [done|]. intros; lia. }
  destruct IH as [Hlen Hpin]; [lia|].
  destruct (lookup_lt_is_Some_2 guesses k) as [gk Hgk]; [lia|].
  assert (Hgk5 : length gk = 5).
  { eapply (Forall_lookup_1 _ _ _ _ Hall Hgk). }
  subst p. unfold lock_rows in *. rewrite seq_S, foldl_app. simpl.
  rewrite list_lookup_fmap, Hgk. simpl.
  destruct (lock_row_spec gk target _ Hgk5 Ht Hlen) as [Hlen' Hlook].
  split; [done|]. intros r g i Hr Hg Hi Hm. rewrite Hlook by done.
  destruct (decide (gk !! i = target !! i)); [done|].
  apply (Hpin r g); try done.
  destruct (decide (r = k)) as [->|]; [|lia]. congruence.
Qed.

Lemma same_log_refl s : same_log s s.
Proof. by repeat split. Qed.

Lemma first_unsolved_lt solved i :
  first_unsolved solved = Some i → i < length solved.
Proof.
  unfold first_unsolved.
  destruct (list_find _ solved) as [[j x]|] eqn:E; simpl; [|done].
  intros [= <-]. apply list_find_Some in E as (Hl & _). by eapply lookup_lt_Some.
Qed.

(** The three ways a submission can end on a state with targets. *)
Lemma streakle_submit_cases wordSet s raw targets :
  streakleTargets s = Some targets →
  (handleStreakleSubmit wordSet s raw).1 = s
  ∧ (handleStreakleSubmit wordSet s raw).2 ≠ Accepted
  ∨ 8 ≤ length (streakleGuesses s)
    ∧ handleStreakleSubmit wordSet s raw
      = (mkState (streakleTargets s) (streakleCurrentIndex s) (streakleGuesses s)
           (streakleResults s) true (streakleSolved s), Rejected NoGuessesLeft)
  ∨ ∃ next done,
      let newGuesses := streakleGuesses s ++ [raw] in
      let solved := (λ t, bool_decide (t ∈ newGuesses)) <$> targets in
      handleStreakleSubmit wordSet s raw
      = (mkState (Some targets) next newGuesses
           (Scoring.computeStreakleResults newGuesses targets) done solved, Accepted)
      ∧ streakleDone s = false ∧ length raw = 5
      ∧ length (streakleGuesses s) < 8
      ∧ breaks_lock (streakleLockedPattern s) raw = false
      ∧ (next = streakleCurrentIndex s ∨ first_unsolved solved = Some next)
      ∧ (done = true ↔ forallb id solved = true ∨ 8 ≤ length newGuesses).
Proof.
  intros Ht. unfold handleStreakleSubmit. rewrite Ht.
  destruct (streakleDone s) eqn:Hd; [by left|].
  destruct (decide (length raw ≠ 5)) as [|Hraw]; [by left|].
  destruct (negb (in_word_set wordSet raw)); [by left|].
  destruct (decide (8 ≤ length (streakleGuesses s))); [by right; left|].
  destruct (breaks_lock (streakleLockedPattern s) raw) eqn:Hlock; [by left|].
  right; right. eexists _, _. cbn zeta. split; [reflexivity|].
  split_and!; try done; try lia.
  - destruct (forallb id _); [by left|].
    destruct (default false _); [|by left].
    destruct (first_unsolved _); [by right|by left].
  - destruct (forallb id _), (bool_decide (8 ≤ _)) eqn:E; simpl;
      try apply bool_decide_eq_true in E; try apply bool_decide_eq_false in E;
      split; auto; intros [|]; done.
Qed.

Lemma streakle_shaped_start words startWord targets :
  picks words startWord targets → shaped (startNewStreakleGame startWord targets).
Proof.
  intros (_ & Hlen & _). exists targets. split_and!; try done. simpl.
  destruct (first_unsolved _) as [i|] eqn:E; simpl; [|lia].
  apply first_unsolved_lt in E. by rewrite length_fmap, Hlen in E.
Qed.

Lemma streakle_shaped_submit wordSet s raw :
  shaped s → shaped (handleStreakleSubmit wordSet s raw).1.
Proof.
  intros (targets & Ht & Hlen & Hcur & Hres).
  destruct (streakle_submit_cases wordSet s raw targets Ht)
    as [[-> _]|[[_ ->]|(next & done & Heq & _ & _ & _ & _ & Hnext & _)]].
  - by exists targets.
  - by exists targets.
  - cbn zeta in *. rewrite Heq. exists targets. split_and!; try done. simpl.
    destruct Hnext as [->|Hn]; [done|].
    apply first_unsolved_lt in Hn. by rewrite length_fmap, Hlen in Hn.
Qed.

Lemma streakle_reachable_shaped words wordSet s : reachable words wordSet s → shaped s.
Proof. induction 1; [by eapply streakle_shaped_start|by apply streakle_shaped_submit]. Qed.

Lemma streakle_status_in_progress s :
  status s = InProgress
  ↔ forallb id (streakleSolved s) = false ∧ length (streakleGuesses s) < 8.
Proof.
  unfold status. destruct (forallb id (streakleSolved s)); [split; [done|by intros []]|].
  case_decide; split; try done; intros []; (done || lia).
Qed.

Lemma streakle_done_ignored wordSet s raw :
  streakleDone s = true → handleStreakleSubmit wordSet s raw = (s, Ignored).
Proof.
  intros Hd. unfold handleStreakleSubmit.
  destruct (streakleTargets s); [|done]. by rewrite Hd.
Qed.

(** The flag [streakleDone] is set exactly in the won and lost states. *)
Lemma streakle_done_iff_terminal words wordSet s :
  reachable words wordSet s → streakleDone s = true ↔ status s ≠ InProgress.
Proof.
  induction 1 as [startWord targets Hp|s raw Hreach IH].
  - rewrite streakle_status_in_progress. simpl.
    destruct (forallb id _); simpl; [split; [by intros _ []|done]|].
    split; [done|]. intros Hf. exfalso. apply Hf. split; [done|lia].
  - destruct (streakle_reachable_shaped _ _ _ Hreach) as (targets & Ht & _).
    destruct (streakle_submit_cases wordSet s raw targets Ht)
      as [[-> _]|[[Hfull ->]|(next & done & Heq & _ & _ & _ & _ & _ & Hdone)]].
    + done.
    + rewrite streakle_status_in_progress. simpl. split; [|done]. intros _ [_ Hf]. lia.
    + cbn zeta in *. rewrite Heq, streakle_status_in_progress. cbn [fst streakleDone
        streakleSolved streakleGuesses]. rewrite Hdone.
      destruct (forallb id _); [split; [by intros _ []|by left]|].
      split.
      * intros [|Hl] [_ Hf]; [done|lia].
      * intros Hf. right. destruct (decide (8 ≤ length (streakleGuesses s ++ [raw])));
          [done|]. exfalso. apply Hf. split; [done|lia].
Qed.

Lemma streakle_terminal_ignored words wordSet s raw :
  reachable words wordSet s → status s ≠ InProgress →
  handleStreakleSubmit wordSet s raw = (s, Ignored).
Proof.
  intros Hr Hs. apply streakle_done_ignored. by eapply streakle_done_iff_terminal.
Qed.

(** On a corpus of five-letter words every logged guess has five letters
    and the targets are corpus words. *)
Lemma streakle_reachable_corpus words wordSet s :
  corpus words → reachable words wordSet s →
  Forall (λ g : Word, length g = 5) (streakleGuesses s)
  ∧ ∃ targets, streakleTargets s = Some targets ∧ targets ⊆ words.
Proof.
  intros Hc. induction 1 as [startWord targets Hp|s raw Hreach [Hall (targets & Ht & Hsub)]].
  - destruct Hp as (Hsw & _ & _ & _ & Hsub). split; [|by exists targets].
    simpl. constructor; [|done].
    unfold corpus in Hc. rewrite Forall_forall in Hc. by apply Hc.
  - destruct (streakle_submit_cases wordSet s raw targets Ht)
      as [[-> _]|[[_ ->]|(next & done & Heq & _ & Hraw & _)]].
    + split; [done|by exists targets].
    + split; [done|by exists targets].
    + cbn zeta in *. rewrite Heq. simpl. split; [|by exists targets].
      apply Forall_app. split; [done|by constructor].
Qed.

(** A locked position is pinned in [streakleLockedPattern] to its letter,
    which is not the wildcard. *)
Lemma locked_pattern words wordSet s i X :
  corpus words → reachable words wordSet s → locked s i X →
  length (streakleLockedPattern s) = 5 ∧ i < 5
  ∧ streakleLockedPattern s !! i = Some (Some X) ∧ X ≠ "_"%char.
Proof.
  intros Hc Hreach (targets & target & guess & Ht & Htarget & Hguess & Hscore & HX).
  destruct (streakle_reachable_shaped _ _ _ Hreach) as (targets' & Ht' & Hlen & Hcur & Hres).
  destruct (streakle_reachable_corpus _ _ _ Hc Hreach) as (Hall & targets'' & Ht'' & Hsub).
  simplify_eq.
  assert (Hin : target ∈ words).
  { apply Hsub. by eapply list_elem_of_lookup_2. }
  unfold corpus in Hc. rewrite Forall_forall in Hc.
  destruct (Hc target Hin) as [Htlen Hwild].
  assert (Hi : i < 5).
  { apply lookup_lt_Some in Hscore. by rewrite ScoringFacts.score_length, Htlen in Hscore. }
  assert (Hmatch : guess !! i = target !! i).
  { eapply ScoringFacts.score_correct_iff; [|done]. lia. }
  apply list_elem_of_lookup in Hguess as [r Hr].
  assert (Hpat : streakleLockedPattern s
    = lock_rows (streakleGuesses s)
        ((λ g, Scoring.scoreWordleGuess g target) <$> streakleGuesses s)
        (length (streakleGuesses s))).
  { unfold streakleLockedPattern. rewrite Ht.
    destruct targets as [|t0 ts]; [done|].
    rewrite Hres. unfold Scoring.computeStreakleResults.
    rewrite list_lookup_fmap, Htarget. simpl. by rewrite length_fmap. }
  rewrite Hpat.
  destruct (lock_rows_spec (streakleGuesses s) target (length (streakleGuesses s)))
    as [Hlen5 Hpin]; try done.
  split_and!; try done.
  - rewrite (Hpin r guess i); try done; [by rewrite <- Hmatch, HX|].
    by eapply lookup_lt_Some.
  - intros ->. apply Hwild. rewrite Hmatch in HX. by eapply list_elem_of_lookup_2.
Qed.

(** A guess that disagrees with a locked position fails the lock check. *)
Lemma locked_breaks words wordSet s i X raw :
  corpus words → reachable words wordSet s → locked s i X →
  raw !! i ≠ Some X → breaks_lock (streakleLockedPattern s) raw = true.
Proof.
  intros Hc Hreach Hlock Hraw.
  destruct (locked_pattern _ _ _ _ _ Hc Hreach Hlock) as (Hlen & Hi & Hpat & HX).
  unfold breaks_lock. rewrite Hlen. rewrite bool_decide_true by done.
  rewrite andb_true_l. apply existsb_exists. exists i. split; [apply in_seq; lia|].
  rewrite Hpat. apply andb_true_iff. split; apply bool_decide_eq_true.
  - unfold wildcard. congruence.
  - done.
Qed.

End StreakleFacts.

(** C2. Streakle lock invariant.  On a corpus of five-letter words, in
    every state a round can reach: if an earlier guess scored correct at
    position [i] against the active target, locking [i] to [X], then a
    submitted guess with another letter at [i] is not accepted and leaves the
    guess log, the feedback history, the solved flags and the active index
    unchanged; so every accepted guess has [X] at [i]. *)
Theorem streakle_lock_invariant (words : list Word) (wordSet : option (gset Word))
    (s : Streakle.State) (raw : Word) (i : nat) (X : ascii) :
  Streakle.corpus words →
  Streakle.reachable words wordSet s →
  Streakle.locked s i X →
  (raw !! i ≠ Some X →
     Streakle.same_log s (Streakle.handleStreakleSubmit wordSet s raw).1
     ∧ not_accepted (Streakle.handleStreakleSubmit wordSet s raw).2
     ∧ length (Streakle.streakleGuesses (Streakle.handleStreakleSubmit wordSet s raw).1)
       = length (Streakle.streakleGuesses s))
  ∧ ((Streakle.handleStreakleSubmit wordSet s raw).2 = Accepted → raw !! i = Some X).
Proof.
  intros Hc Hreach Hlock.
  assert (Hrej : raw !! i ≠ Some X →
     Streakle.same_log s (Streakle.handleStreakleSubmit wordSet s raw).1
     ∧ not_accepted (Streakle.handleStreakleSubmit wordSet s raw).2
     ∧ length (Streakle.streakleGuesses (Streakle.handleStreakleSubmit wordSet s raw).1)
       = length (Streakle.streakleGuesses s)).
  { intros Hraw.
    pose proof (StreakleFacts.locked_breaks _ _ _ _ _ _ Hc Hreach Hlock Hraw) as Hb.
    destruct (StreakleFacts.streakle_reachable_shaped _ _ _ Hreach) as (targets & Ht & _).
    destruct (StreakleFacts.streakle_submit_cases wordSet s raw targets Ht)
      as [[-> Hno]|[[_ ->]|(next & done & _ & _ & _ & _ & Hnb & _)]].
    - split_and!; [apply StreakleFacts.same_log_refl|done|done].
    - split_and!; [by repeat split|done|done].
    - congruence. }
  split; [done|]. intros Hacc.
  destruct (decide (raw !! i = Some X)) as [|Hne]; [done|].
  destruct (Hrej Hne) as (_ & Hno & _). by destruct Hno.
Qed.

(** C4. Terminal idempotence: in every state a Wordle, Quordle or
    Streakle round can reach, once the session is won or lost a submitted
    guess is turned away at the top of the handler and the whole state (guess
    log, feedback history, flags, guess count) is returned unchanged. *)
Theorem terminal_idempotence (words : list Word) (wordSet : option (gset Word))
    (sw : Wordle.State) (sq : Quordle.State) (ss : Streakle.State) (raw : Word) :
  (Wordle.reachable words wordSet sw → Wordle.status sw ≠ InProgress →
     Wordle.handleWordleSubmit wordSet sw raw = (sw, Ignored))
  ∧ (Quordle.reachable words wordSet sq → Quordle.status sq ≠ InProgress →
       Quordle.handleQuordleSubmit wordSet sq raw = (sq, Ignored))
  ∧ (Streakle.reachable words wordSet ss → Streakle.status ss ≠ InProgress →
       Streakle.handleStreakleSubmit wordSet ss raw = (ss, Ignored)).
Proof.
  split_and!.
  - apply WordleFacts.wordle_terminal_ignored.
  - apply QuordleFacts.quordle_terminal_ignored.
  - apply StreakleFacts.streakle_terminal_ignored.
Qed.

Lemma demo_corpus : Streakle.corpus demo_words.
Proof.
  unfold Streakle.corpus, demo_words.
  repeat (apply List.Forall_cons; [cbv beta; split; [reflexivity|by_evaluation]|]).
  apply List.Forall_nil.
Defined.

Example demo_wordle_won_status : Wordle.status demo_wordle_won = Won.
Proof. vm_compute. reflexivity. Qed.

Example demo_quordle_lost_status : Quordle.status demo_quordle_lost = Lost.
Proof. vm_compute. reflexivity. Qed.

Example demo_streakle_won_status :
  Streakle.status demo_streakle_won = Won
  ∧ length (Streakle.streakleGuesses demo_streakle_won) = 4.
Proof. vm_compute. split; reflexivity. Qed.

Lemma demo_wordle_reachable : Wordle.reachable demo_words demo_set demo_wordle_won.
Proof. apply Wordle.reach_submit, Wordle.reach_start. by_evaluation. Defined.

Lemma demo_quordle_picks :
  Quordle.picks demo_words [word "LASER"; word "LATER"; word "APPLE"; word "EERIE"].
Proof. split_and!; [reflexivity|by_evaluation|by_evaluation]. Defined.

Lemma demo_quordle_reachable :
  Quordle.reachable demo_words demo_set demo_quordle_lost.
Proof.
  apply QuordleFacts.quordle_reachable_run, Quordle.reach_start, demo_quordle_picks.
Defined.

Lemma demo_streakle_picks :
  Streakle.picks demo_words (word "ALERT") [word "LASER"; word "LATER"; word "APPLE"].
Proof.
  split_and!; [by_evaluation|reflexivity|by_evaluation|by_evaluation|by_evaluation].
Defined.

Lemma demo_streakle_reachable :
  Streakle.reachable demo_words demo_set demo_streakle_won.
Proof.
  do 3 apply Streakle.reach_submit. apply Streakle.reach_start, demo_streakle_picks.
Defined.

Lemma terminal_idempotence_witness :
  Wordle.handleWordleSubmit demo_set demo_wordle_won (word "LATER")
  = (demo_wordle_won, Ignored)
  ∧ Quordle.handleQuordleSubmit demo_set demo_quordle_lost (word "LATER")
    = (demo_quordle_lost, Ignored)
  ∧ Streakle.handleStreakleSubmit demo_set demo_streakle_won (word "LATER")
    = (demo_streakle_won, Ignored).
Proof.
  destruct (terminal_idempotence demo_words demo_set demo_wordle_won
              demo_quordle_lost demo_streakle_won (word "LATER")) as (Hw & Hq & Hs).
  split_and!.
  - apply Hw; [apply demo_wordle_reachable|vm_compute; discriminate].
  - apply Hq; [apply demo_quordle_reachable|vm_compute; discriminate].
  - apply Hs; [apply demo_streakle_reachable|vm_compute; discriminate].
Defined.

Lemma quordle_independence_witness :
  Quordle.won_board
    (Quordle.handleQuordleSubmit demo_set demo_quordle_start (word "LATER")).1 1
  ∧ Quordle.quordleWins
      (Quordle.handleQuordleSubmit demo_set demo_quordle_start (word "LATER")).1 !! 0
    = Quordle.quordleWins demo_quordle_start !! 0.
Proof.
  split.
  - apply (quordle_independence demo_words demo_set demo_quordle_start
             [word "LASER"; word "LATER"; word "APPLE"; word "EERIE"]
             (word "LATER") 1 (word "LATER") []);
      [apply Quordle.reach_start, demo_quordle_picks|reflexivity..].
  - apply (quordle_independence demo_words demo_set demo_quordle_start
             [word "LASER"; word "LATER"; word "APPLE"; word "EERIE"]
             (word "LATER") 0 (word "LASER") []);
      [apply Quordle.reach_start, demo_quordle_picks|reflexivity|reflexivity|].
    vm_compute. discriminate.
Defined.

Lemma streakle_lock_invariant_witness :
  Streakle.same_log demo_streakle_locked
    (Streakle.handleStreakleSubmit demo_set demo_streakle_locked (word "APPLE")).1
  ∧ not_accepted
      (Streakle.handleStreakleSubmit demo_set demo_streakle_locked (word "APPLE")).2.
Proof.
  destruct (streakle_lock_invariant demo_words demo_set demo_streakle_locked
              (word "APPLE") 0 "L"%char) as [Hrej _].
  - apply demo_corpus.
  - apply Streakle.reach_start.
    split_and!; [by_evaluation|reflexivity|by_evaluation|by_evaluation|by_evaluation].
  - exists [word "LATER"; word "APPLE"; word "EERIE"], (word "LATER"), (word "LASER").
    split_and!; [reflexivity|reflexivity|by_evaluation|vm_compute; reflexivity|reflexivity].
  - destruct Hrej as (H1 & H2 & _); [vm_compute; discriminate|]. split; [exact H1|exact H2].
Defined.

Example demo_streakle_lock_message :
  (Streakle.handleStreakleSubmit demo_set demo_streakle_locked (word "APPLE")).2
  = Rejected LockedGreen.
Proof. vm_compute. reflexivity. Qed.

(** ** HiveBuilder *)

Module HiveFacts.
Import Bee.

Lemma bee_trace_length n rng dictionary candidates pos :
  length (bee_trace n rng dictionary candidates pos) ≤ n.
Proof.
  revert pos. induction n as [|n IH]; intros pos; simpl; [done|].
  destruct (bee_attempt rng dictionary candidates pos) as [[cur|] pos']; simpl; [|lia].
  specialize (IH pos'). lia.
Qed.

(** The search returns the first attempt that passes the acceptance test. *)
Lemma bee_search_first n rng dictionary candidates pos best pre a post :
  bee_trace n rng dictionary candidates pos = pre ++ a :: post →
  Forall (λ p, ¬ acceptable p) pre → acceptable a →
  bee_search n rng dictionary candidates pos best = Some a.
Proof.
  revert pos best pre. induction n as [|n IH]; intros pos best pre; simpl.
  { by destruct pre. }
  destruct (bee_attempt rng dictionary candidates pos) as [[cur|] pos'].
  2: { by destruct pre. }
  intros Htrace Hpre Ha. destruct pre as [|p pre]; simplify_eq/=.
  - destruct Ha as [Hcap Hacc]. by rewrite !decide_True.
  - apply Forall_cons in Hpre as [Hp Hpre].
    destruct (decide (within_cap p)) as [Hcap|Hcap]; [|by eapply IH].
    rewrite decide_False; [by eapply IH|]. intros Hacc. by apply Hp.
Qed.

(** Without an acceptable attempt the search returns the tracked best. *)
Lemma bee_search_exhausted n rng dictionary candidates pos best :
  Forall (λ p, ¬ acceptable p) (bee_trace n rng dictionary candidates pos) →
  bee_search n rng dictionary candidates pos best
  = best_tracked best (bee_trace n rng dictionary candidates pos).
Proof.
  revert pos best. induction n as [|n IH]; intros pos best; simpl; [done|].
  destruct (bee_attempt rng dictionary candidates pos) as [[cur|] pos']; [|done].
  intros [Hcur Hrest]%Forall_cons. unfold best_tracked. simpl.
  destruct (decide (within_cap cur)) as [Hcap|Hcap]; [|by apply IH].
  rewrite decide_False; [by apply IH|]. intros Hacc. by apply Hcur.
Qed.

Lemma track_best_cases best p :
  track_best best p = Some p
  ∧ (∀ b, best = Some b → length (valid b) < length (valid p))
  ∨ ∃ b, best = Some b ∧ track_best best p = Some b
         ∧ length (valid p) ≤ length (valid b).
Proof.
  unfold track_best. destruct best as [b|]; [|by left].
  case_decide; [left|right].
  - split; [done|]. by intros ? [= <-].
  - exists b. split_and!; [done|done|lia].
Qed.

Lemma best_tracked_spec T best :
  match best_tracked best T with
  | None => best = None ∧ Forall (λ p, ¬ within_cap p) T
  | Some a =>
      (best = Some a ∨ a ∈ T ∧ within_cap a)
      ∧ (∀ b, best = Some b → length (valid b) ≤ length (valid a))
      ∧ ∀ b, b ∈ T → within_cap b → length (valid b) ≤ length (valid a)
  end.
Proof.
  revert best. induction T as [|p T IH]; intros best.
  { simpl. destruct best as [a|]; [|done]. split_and!; [by left| |].
    - by intros ? [= <-].
    - by intros ? ?%elem_of_nil. }
  unfold best_tracked in *. simpl.
  destruct (decide (within_cap p)) as [Hcap|Hcap].
  - specialize (IH (track_best best p)).
    destruct (foldl _ (track_best best p) T) as [a|].
    + destruct IH as (Hfrom & Hbest & Hmax).
      destruct (track_best_cases best p) as [[Htb Hlt]|(b0 & Hb0 & Htb & Hle)].
      * split_and!.
        -- destruct Hfrom as [Heq|[Hin Hc]].
           ++ right. rewrite Htb in Heq. simplify_eq. split; [left|done].
           ++ right. split; [by right|done].
        -- intros b Hb. specialize (Hlt b Hb). specialize (Hbest p Htb). lia.
        -- intros b [->|Hin]%elem_of_cons Hc; [by apply Hbest|by apply Hmax].
      * split_and!.
        -- destruct Hfrom as [Heq|[Hin Hc]].
           ++ left. congruence.
           ++ right. split; [by right|done].
        -- intros b Hb. apply Hbest. congruence.
        -- intros b [->|Hin]%elem_of_cons Hc; [|by apply Hmax].
           specialize (Hbest b0 Htb). lia.
    + destruct IH as [Hnone _]. exfalso.
      destruct (track_best_cases best p) as [[Htb _]|(b0 & _ & Htb & _)]; congruence.
  - specialize (IH best). destruct (foldl _ best T) as [a|].
    + destruct IH as (Hfrom & Hbest & Hmax). split_and!; [|done|].
      * destruct Hfrom as [Heq|[Hin Hc]]; [by left|]. right. split; [by right|done].
      * intros b [->|Hin]%elem_of_cons Hc; [done|by apply Hmax].
    + destruct IH as [-> Hall]. split; [done|]. by constructor.
Qed.

(** With a candidate base word no attempt breaks out of the loop. *)
Lemma bee_attempt_some rng dictionary pos :
  pangramCandidates dictionary ≠ [] →
  ∃ cur pos', bee_attempt rng dictionary (pangramCandidates dictionary) pos
              = (Some cur, pos').
Proof.
  intros Hne. unfold bee_attempt.
  set (cands := pangramCandidates dictionary) in *.
  destruct (lookup_lt_is_Some_2 cands (random_index rng pos (length cands)))
    as [base Hbase].
  { unfold random_index. destruct cands; [done|]. rewrite decide_False by done.
    apply Nat.mod_upper_bound. done. }
  rewrite Hbase.
  assert (Hlen : 7 ≤ length base).
  { apply list_elem_of_lookup_2 in Hbase. unfold cands, pangramCandidates in Hbase.
    apply list_elem_of_filter in Hbase. tauto. }
  destruct base as [|c base]; [simpl in Hlen; lia|].
  destruct (shuffleArray rng _ (pos + 1)) as [shuffled pos2]. by eexists _, _.
Qed.

Lemma bee_trace_full n rng dictionary pos :
  pangramCandidates dictionary ≠ [] →
  length (bee_trace n rng dictionary (pangramCandidates dictionary) pos) = n.
Proof.
  intros Hne. revert pos. induction n as [|n IH]; intros pos; simpl; [done|].
  destruct (bee_attempt_some rng dictionary pos Hne) as (cur & pos' & ->).
  simpl. by rewrite IH.
Qed.

Lemma bee_trace_no_candidates n rng dictionary pos :
  bee_trace n rng dictionary [] pos = [].
Proof. by destruct n. Qed.

(** The first attempt heads the list of attempts. *)
Lemma attempts_head rng dictionary :
  attempts rng dictionary !! 0
  = (bee_attempt rng dictionary (pangramCandidates dictionary) 0).1.
Proof.
  unfold attempts. change BEE_ATTEMPTS with (S 599). cbn [bee_trace].
  by destruct (bee_attempt rng dictionary (pangramCandidates dictionary) 0)
    as [[cur|] pos'].
Qed.

End HiveFacts.

Lemma first_satisfying {A} (P : A → Prop) `{∀ x, Decision (P x)} (l : list A) :
  Forall (λ x, ¬ P x) l
  ∨ ∃ pre a post, l = pre ++ a :: post ∧ Forall (λ x, ¬ P x) pre ∧ P a.
Proof.
  induction l as [|x l IH]; [by left|].
  destruct (decide (P x)) as [Hx|Hx].
  - right. by exists [], x, l.
  - destruct IH as [Hall|(pre & a & post & -> & Hpre & Ha)].
    + left. by constructor.
    + right. exists (x :: pre), a, post. split_and!; [done|by constructor|done].
Qed.

(** C5. [buildBeePuzzle] makes at most 600 attempts and returns the first
    one that is inside the density cap of 100 with at least 12 valid words and
    a pangram; when no attempt passes that test it returns an attempt with the
    largest valid-word count among those inside the cap; and it returns
    [null] exactly when there is no candidate base word or no attempt was
    inside the cap. *)
Theorem bee_search_policy (rng : Rng) (dictionary : list Word) :
  let T := Bee.attempts rng dictionary in
  length T ≤ 600
  ∧ (Bee.pangramCandidates dictionary ≠ [] → length T = 600)
  ∧ (∀ k a, T !! k = Some a → Bee.acceptable a →
       (∀ j b, j < k → T !! j = Some b → ¬ Bee.acceptable b) →
       Bee.buildBeePuzzle rng dictionary = Some a)
  ∧ ((∀ b, b ∈ T → ¬ Bee.acceptable b) → (∃ b, b ∈ T ∧ Bee.within_cap b) →
       ∃ a, Bee.buildBeePuzzle rng dictionary = Some a
            ∧ a ∈ T ∧ Bee.within_cap a
            ∧ ∀ b, b ∈ T → Bee.within_cap b →
                length (Bee.valid b) ≤ length (Bee.valid a))
  ∧ (Bee.buildBeePuzzle rng dictionary = None
     ↔ Bee.pangramCandidates dictionary = []
       ∨ ∀ b, b ∈ T → ¬ Bee.within_cap b).
Proof.
  intros T. unfold Bee.buildBeePuzzle. subst T. unfold Bee.attempts.
  set (cands := Bee.pangramCandidates dictionary).
  set (T := Bee.bee_trace Bee.BEE_ATTEMPTS rng dictionary cands 0).
  assert (Hexh : Forall (λ p, ¬ Bee.acceptable p) T →
    Bee.bee_search Bee.BEE_ATTEMPTS rng dictionary cands 0 None
    = Bee.best_tracked None T) by apply HiveFacts.bee_search_exhausted.
  pose proof (HiveFacts.best_tracked_spec T None) as Hspec.
  split_and!.
  - apply HiveFacts.bee_trace_length.
  - apply HiveFacts.bee_trace_full.
  - intros k a Hk Ha Hbefore.
    apply (HiveFacts.bee_search_first _ _ _ _ _ _ (take k T) a (drop (S k) T));
      [by rewrite take_drop_middle| |done].
    apply Forall_lookup_2. intros j b [Hj Hlt]%lookup_take_Some. by eapply Hbefore.
  - intros Hnone (b & Hb & Hcap). rewrite Hexh by (by apply Forall_forall).
    destruct (Bee.best_tracked None T) as [a|].
    + destruct Hspec as ([?|[Hin Hc]] & _ & Hmax); [done|]. by exists a.
    + destruct Hspec as [_ Hall]. rewrite Forall_forall in Hall.
      by destruct (Hall b Hb).
  - split.
    + intros Hret.
      destruct (first_satisfying Bee.acceptable T)
        as [Hall|(pre & a & post & HT & Hpre & Ha)].
      * rewrite Hexh in Hret by done. rewrite Hret in Hspec.
        right. destruct Hspec as [_ Hcap]. by apply Forall_forall.
      * by rewrite (HiveFacts.bee_search_first _ _ _ _ _ _ pre a post HT Hpre Ha) in Hret.
    + intros Hcase.
      assert (Hcap : ∀ b, b ∈ T → ¬ Bee.within_cap b).
      { destruct Hcase as [Hno|Hcap]; [|done].
        subst T. rewrite Hno, HiveFacts.bee_trace_no_candidates.
        by intros b ?%elem_of_nil. }
      rewrite Hexh.
      2: { apply Forall_forall. intros b Hb [Hc _]. by apply (Hcap b). }
      destruct (Bee.best_tracked None T) as [a|]; [|done].
      destruct Hspec as ([?|[Hin Hc]] & _); [done|]. by destruct (Hcap a).
Qed.

Lemma bee_search_policy_witness :
  ∃ a, Bee.attempts demo_rng demo_dictionary !! 0 = Some a
       ∧ Bee.acceptable a
       ∧ Bee.buildBeePuzzle demo_rng demo_dictionary = Some a.
Proof.
  assert (Hhead : ∃ a, Bee.attempts demo_rng demo_dictionary !! 0 = Some a
                       ∧ Bee.acceptable a).
  { rewrite HiveFacts.attempts_head. eexists.
    split; [vm_compute; reflexivity|by_evaluation]. }
  destruct Hhead as (a & Ha & Hacc). exists a. split_and!; [done|done|].
  destruct (bee_search_policy demo_rng demo_dictionary) as (_ & _ & Hfirst & _).
  apply (Hfirst 0); [done|done|intros; lia].
Defined.

(** ** PatternGenerator *)

Lemma random_index_lt rng pos n : n ≠ 0 → random_index rng pos n < n.
Proof.
  intros Hn. unfold random_index. rewrite decide_False by done.
  by apply Nat.mod_upper_bound.
Qed.

Lemma array_set_length {A} i (x : option A) a :
  i < length a → length (array_set i x a) = length a.
Proof.
  intros Hi. unfold array_set. rewrite decide_True by done. apply length_insert.
Qed.

Lemma array_set_lookup {A} i (x : option A) a j :
  i < length a →
  array_set i x a !! j = if decide (j = i) then Some x else a !! j.
Proof.
  intros Hi. unfold array_set. rewrite decide_True by done.
  destruct (decide (j = i)) as [->|Hne].
  - by rewrite list_lookup_insert_eq.
  - by rewrite list_lookup_insert_ne.
Qed.

Module PatternFacts.
Import Pattern.

(** The concrete slots among the first [k], for a pattern whose concrete
    slots are [a] and [b]. *)
Lemma concrete_prefix (p : list Cell) a b k :
  a < b →
  (∀ i, i < k → p !! i ≠ Some wildcard ↔ i = a ∨ i = b) →
  filter (λ i, p !! i ≠ Some wildcard) (seq 0 k)
  = (if decide (a < k) then [a] else []) ++ (if decide (b < k) then [b] else []).
Proof.
  intros Hab. induction k as [|k IH]; intros Hp.
  { rewrite !decide_False by lia. done. }
  rewrite seq_S, filter_app, IH by (intros; apply Hp; lia). simpl.
  rewrite filter_cons, filter_nil.
  pose proof (Hp k (Nat.lt_succ_diag_r k)) as Hk.
  destruct (decide (p !! k ≠ Some wildcard)) as [Hc|Hc].
  - apply Hk in Hc as [->| ->].
    + rewrite (decide_False (P := a < a)), (decide_False (P := b < a)),
        (decide_True (P := a < S a)), (decide_False (P := b < S a)) by lia. done.
    + rewrite (decide_True (P := a < b)), (decide_False (P := b < b)),
        (decide_True (P := a < S b)), (decide_True (P := b < S b)) by lia. done.
  - assert (k ≠ a ∧ k ≠ b) as [Hka Hkb] by (split; intros ->; apply Hc, Hk; auto).
    rewrite app_nil_r.
    destruct (decide (a < k)), (decide (a < S k)), (decide (b < k)),
      (decide (b < S k)); try done; lia.
Qed.

Lemma two_apart_intro (p : list Cell) a b :
  a + 1 < b → b < length p →
  (∀ i, i < length p → p !! i ≠ Some wildcard ↔ i = a ∨ i = b) →
  two_apart p.
Proof.
  intros Hab Hb Hp. unfold two_apart, concrete_slots.
  rewrite (concrete_prefix p a b) by (done || lia).
  rewrite !decide_True by lia. done.
Qed.

(** A pattern with the letters of a corpus word at two positions. *)
Lemma two_letters_apart n (base : Word) first second :
  length base = n → "_"%char ∉ base → first < n → second < n →
  (1 < Z.abs (Z.of_nat second - Z.of_nat first))%Z →
  two_apart (array_set second (base !! second)
               (array_set first (base !! first) (replicate n wildcard))).
Proof.
  intros Hlen Hwild Hf Hs Hfar.
  set (p := array_set second _ _).
  assert (Hplen : length p = n).
  { unfold p. rewrite !array_set_length; rewrite ?array_set_length;
      rewrite ?length_replicate; done. }
  assert (Hlook : ∀ i, i < n →
    p !! i = if decide (i = second) then Some (base !! second)
             else if decide (i = first) then Some (base !! first)
             else Some wildcard).
  { intros i Hi. unfold p.
    rewrite array_set_lookup by (by rewrite array_set_length, length_replicate;
                                 rewrite ?length_replicate).
    rewrite array_set_lookup by (by rewrite length_replicate).
    by rewrite lookup_replicate_2. }
  assert (Hletter : ∀ i, i < n → base !! i ≠ wildcard).
  { intros i Hi Heq. apply Hwild. by eapply list_elem_of_lookup_2. }
  assert (Hconc : ∀ i, i < length p → p !! i ≠ Some wildcard ↔ i = first ∨ i = second).
  { intros i Hi. rewrite Hplen in Hi. rewrite Hlook by done.
    destruct (decide (i = second)) as [->|Hns].
    - split; [by right|]. intros _ [= Heq]. by apply (Hletter second).
    - destruct (decide (i = first)) as [->|Hnf].
      + split; [by left|]. intros _ [= Heq]. by apply (Hletter first).
      + split; [done|]. by intros [|]. }
  destruct (decide (first < second)).
  - apply (two_apart_intro p first second); [lia|lia|done].
  - apply (two_apart_intro p second first); [lia|lia|].
    intros i Hi. rewrite Hconc by done. tauto.
Qed.

(** Every pattern an attempt builds on a corpus has two slots apart. *)
Lemma attempt_two_apart rng (words : list Word) w0 pos n p m pos' :
  corpus_of_length n words → w0 ∈ words →
  pattern_attempt rng words w0 pos = (Some (p, m), pos') → two_apart p.
Proof.
  intros Hc Hw0. unfold corpus_of_length in Hc. rewrite Forall_forall in Hc.
  destruct (Hc w0 Hw0) as [Hn _]. unfold pattern_attempt. rewrite Hn.
  set (first := random_index rng (pos + 1) n).
  set (candidates := second_candidates n first).
  destruct (decide (length candidates = 0)) as [|Hcand]; [done|].
  intros [= <- _ _].
  destruct (lookup_lt_is_Some_2 candidates
              (random_index rng (pos + 2) (length candidates))) as [second Hsecond].
  { by apply random_index_lt. }
  rewrite Hsecond. simpl.
  apply list_elem_of_lookup_2 in Hsecond. unfold candidates, second_candidates in Hsecond.
  apply list_elem_of_filter in Hsecond as [[Hne Hfar] Hin].
  apply elem_of_seq in Hin.
  assert (Hn0 : n ≠ 0) by lia.
  pose proof (random_index_lt rng (pos + 1) n Hn0) as Hfirst. fold first in Hfirst.
  set (base := default w0 (words !! random_index rng pos (length words))).
  assert (Hbase : base ∈ words).
  { unfold base. destruct (words !! _) eqn:E; simpl; [|done].
    by eapply list_elem_of_lookup_2. }
  destruct (Hc base Hbase) as [Hblen Hbwild].
  apply (two_letters_apart n); try done; lia.
Qed.

(** The search keeps the property for what it returns or records. *)
Lemma search_two_apart k rng (words : list Word) w0 pos n fallback :
  corpus_of_length n words → w0 ∈ words →
  (∀ f, fallback = Some f → two_apart f.1) →
  match pattern_search k rng words w0 pos fallback with
  | inl found => two_apart found.1
  | inr (Some f) => two_apart f.1
  | inr None => True
  end.
Proof.
  intros Hc Hw0. revert pos fallback.
  induction k as [|k IH]; intros pos fallback Hfb; simpl.
  { destruct fallback as [f|]; [by apply Hfb|done]. }
  destruct (pattern_attempt rng words w0 pos) as [[[p m]|] pos'] eqn:Hatt;
    [|by apply IH].
  pose proof (attempt_two_apart _ _ _ _ _ _ _ _ Hc Hw0 Hatt) as Hp.
  destruct (decide (in_bounds (length (p, m).2))); [done|].
  apply IH. intros f. unfold track_fallback.
  destruct (decide (2 ≤ length (p, m).2)); [|by apply Hfb].
  destruct fallback as [best|]; [|by intros [= <-]].
  case_decide; [by intros [= <-]|by apply Hfb].
Qed.

(** The last resort on a word of at least three letters. *)
Lemma last_resort_two_apart (words : list Word) w0 n :
  length w0 = n → "_"%char ∉ w0 → 3 ≤ n → two_apart (last_resort words w0).1.
Proof.
  intros Hn Hwild Hn3. unfold last_resort. rewrite Hn. simpl.
  rewrite decide_True by lia.
  apply (two_letters_apart n w0 0 (n - 1)); try done; lia.
Qed.


(** A search whose attempts all stay below two matches records nothing. *)
Lemma search_no_fallback k rng (words : list Word) w0 pos fallback :
  Forall no_fallback_attempt (pattern_trace k rng words w0 pos) →
  pattern_search k rng words w0 pos fallback = inr fallback.
Proof.
  revert pos fallback. induction k as [|k IH]; intros pos fallback; simpl; [done|].
  destruct (pattern_attempt rng words w0 pos) as [[cur|] pos'].
  - intros [Hcur Hrest]%Forall_cons. simpl in Hcur.
    rewrite decide_False by (unfold in_bounds, MIN_MATCHES; lia).
    unfold track_fallback. rewrite decide_False by lia. by apply IH.
  - intros [_ Hrest]%Forall_cons. by apply IH.
Qed.

(** The pattern of the last resort, slot by slot. *)
Lemma last_resort_pattern (words : list Word) w0 :
  1 ≤ length w0 → (last_resort words w0).1 = guarded_first_last w0.
Proof.
  intros Hlen. unfold last_resort, guarded_first_last. cbn [fst].
  apply list_eq. intros i. rewrite list_lookup_imap.
  remember (length w0) as n eqn:Hdef.
  assert (Hset0 : ∀ j, array_set 0 (w0 !! 0) (replicate n wildcard) !! j
                       = if decide (j = 0) then Some (w0 !! 0)
                         else replicate n wildcard !! j).
  { intros j. apply array_set_lookup. rewrite length_replicate. lia. }
  destruct (decide (i < n)) as [Hi|Hi].
  - destruct (lookup_lt_is_Some_2 w0 i) as [c Hc]; [lia|]. rewrite Hc. simpl.
    destruct (decide (2 < n)) as [Hn|Hn].
    + rewrite array_set_lookup
        by (rewrite array_set_length; rewrite length_replicate; lia).
      rewrite Hset0, lookup_replicate_2 by done.
      destruct (decide (i = n - 1)) as [->|Hlast].
      * rewrite decide_True by (right; done). by rewrite Hc.
      * destruct (decide (i = 0)) as [->|Hfirst].
        -- rewrite decide_True by (by left). by rewrite Hc.
        -- rewrite decide_False; [done|]. intros [?|[? _]]; done.
    + rewrite Hset0, lookup_replicate_2 by done.
      destruct (decide (i = 0)) as [->|Hfirst].
      * rewrite decide_True by (by left). by rewrite Hc.
      * rewrite decide_False; [done|]. intros [?|[_ ?]]; done.
  - rewrite (lookup_ge_None_2 w0 i) by lia. simpl.
    apply lookup_ge_None_2.
    destruct (decide (2 < n)).
    + rewrite !array_set_length; rewrite ?array_set_length;
        rewrite ?length_replicate; lia.
    + rewrite array_set_length; rewrite length_replicate; lia.
Qed.

Lemma guarded_is_first_last w0 :
  length w0 ≠ 2 → guarded_first_last w0 = first_last_pattern w0.
Proof.
  intros Hn. unfold guarded_first_last, first_last_pattern.
  apply imap_ext. intros i c Hi. apply lookup_lt_Some in Hi.
  destruct (decide (i = 0 ∨ i = length w0 - 1 ∧ 2 < length w0)) as [H1|H1],
    (decide (i = 0 ∨ i = length w0 - 1)) as [H2|H2]; try done; exfalso.
  - apply H2. destruct H1 as [?|[? _]]; auto.
  - apply H1. destruct H2 as [?|?]; [by left|].
    destruct (decide (i = 0)); [by left|]. right. split; [done|lia].
Qed.

(** Without a fallback the function returns its last resort. *)
Lemma generate_last_resort rng (w0 : Word) (rest : list Word) :
  Forall no_fallback_attempt
    (pattern_trace MAX_PATTERN_ATTEMPTS rng (w0 :: rest) w0 0) →
  generateTwoLetterPattern rng (w0 :: rest) = last_resort (w0 :: rest) w0.
Proof.
  intros Htrace. unfold generateTwoLetterPattern.
  by rewrite search_no_fallback.
Qed.

(** Words of one or two letters leave no second position. *)
Lemma short_word_no_candidates n first :
  n ≤ 2 → first < n → second_candidates n first = [].
Proof.
  intros Hn Hf. destruct n as [|[|[|n]]]; try lia;
    destruct first as [|[|first]]; try lia; reflexivity.
Qed.

Lemma short_word_attempt rng (words : list Word) w0 pos :
  length w0 ≤ 2 → pattern_attempt rng words w0 pos = (None, pos + 2).
Proof.
  intros Hlen. unfold pattern_attempt.
  destruct (decide (length w0 = 0)) as [Hz|Hz].
  - rewrite Hz. reflexivity.
  - rewrite short_word_no_candidates; [done|done|by apply random_index_lt].
Qed.

Lemma short_word_trace k rng (words : list Word) w0 pos :
  length w0 ≤ 2 → Forall no_fallback_attempt (pattern_trace k rng words w0 pos).
Proof.
  intros Hlen. revert pos. induction k as [|k IH]; intros pos; simpl; [done|].
  rewrite short_word_attempt by done. by constructor.
Qed.

(** An attempt matches no more words than the corpus has. *)
Lemma attempt_matches_bound rng (words : list Word) w0 pos p m pos' :
  pattern_attempt rng words w0 pos = (Some (p, m), pos') → length m ≤ length words.
Proof.
  unfold pattern_attempt. case_decide; [done|].
  intros [= _ <- _]. apply length_filter.
Qed.

(** On a corpus of one word no attempt reaches two matches. *)
Lemma single_word_trace k rng (w0 : Word) pos :
  Forall no_fallback_attempt (pattern_trace k rng [w0] w0 pos).
Proof.
  revert pos. induction k as [|k IH]; intros pos; simpl; [done|].
  destruct (pattern_attempt rng [w0] w0 pos) as [[[p m]|] pos'] eqn:Hatt;
    (constructor; [|done]); [|done].
  apply attempt_matches_bound in Hatt. simpl in *. lia.
Qed.

End PatternFacts.

(** C6, as far as it holds.  For every non-empty corpus of equal-length
    words of at least three letters, the pattern of
    [generateTwoLetterPattern] has exactly two concrete slots and they are not
    adjacent, whichever of the three return paths produced it. *)
Theorem pattern_two_slots_apart (rng : Rng) (words : list Word) (n : nat) :
  words ≠ [] → Pattern.corpus_of_length n words → 3 ≤ n →
  Pattern.two_apart (Pattern.generateTwoLetterPattern rng words).1.
Proof.
  intros Hne Hc Hn. destruct words as [|w0 rest]; [done|].
  unfold Pattern.generateTwoLetterPattern.
  assert (Hw0 : w0 ∈ w0 :: rest) by left.
  pose proof (PatternFacts.search_two_apart Pattern.MAX_PATTERN_ATTEMPTS rng
                (w0 :: rest) w0 0 n None Hc Hw0) as Hs.
  destruct (Pattern.pattern_search _ rng (w0 :: rest) w0 0 None) as [found|[f|]].
  - by apply Hs.
  - by apply Hs.
  - unfold Pattern.corpus_of_length in Hc. rewrite Forall_forall in Hc.
    destruct (Hc w0 Hw0) as [Hlen Hwild].
    by apply (PatternFacts.last_resort_two_apart _ _ n).
Qed.

(** C6 as stated fails on a corpus of two-letter words: no second position
    exists, every attempt is skipped, and the last resort fixes one slot. *)
Lemma pattern_two_slots_counterexample :
  ¬ (∀ (rng : Rng) (words : list Word) (n : nat),
       words ≠ [] → Pattern.corpus_of_length n words →
       Pattern.two_apart (Pattern.generateTwoLetterPattern rng words).1).
Proof.
  intros H. specialize (H (λ _, 0) [word "AB"] 2).
  assert (Hc : Pattern.corpus_of_length 2 [word "AB"]).
  { apply List.Forall_cons; [|apply List.Forall_nil].
    split; [reflexivity|by_evaluation]. }
  specialize (H ltac:(done) Hc).
  rewrite PatternFacts.generate_last_resort in H
    by (by apply PatternFacts.short_word_trace).
  vm_compute in H. exact H.
Qed.

Example pattern_two_letter_corpus (rng : Rng) :
  Pattern.generateTwoLetterPattern rng [word "AB"]
  = ([Some "A"%char; wildcard], [word "AB"]).
Proof.
  rewrite PatternFacts.generate_last_resort
    by (by apply PatternFacts.short_word_trace).
  vm_compute. reflexivity.
Qed.

Lemma demo_pattern_corpus : Pattern.corpus_of_length 5 demo_words.
Proof.
  unfold Pattern.corpus_of_length, demo_words.
  repeat (apply List.Forall_cons; [cbv beta; split; [reflexivity|by_evaluation]|]).
  apply List.Forall_nil.
Defined.

Lemma pattern_two_slots_apart_witness :
  Pattern.two_apart (Pattern.generateTwoLetterPattern demo_rng demo_words).1.
Proof.
  apply (pattern_two_slots_apart demo_rng demo_words 5);
    [discriminate|apply demo_pattern_corpus|lia].
Defined.


(** C7, as far as it holds.  On a non-empty corpus whose first word is not
    the empty string, when no attempt of the search reaches two matches, the
    function returns the last-resort pattern of the first word, paired with
    the corpus words that match it: the first letter is fixed, the last
    letter is fixed when the word has more than two letters, every other
    slot is a wildcard.  For every length but two this is the pattern
    fixing the first and the last letter. *)
Theorem last_resort_result (rng : Rng) (w0 : Word) (rest : list Word) :
  1 ≤ length w0 →
  Forall Pattern.no_fallback_attempt
    (Pattern.pattern_trace Pattern.MAX_PATTERN_ATTEMPTS rng (w0 :: rest) w0 0) →
  let p := Pattern.guarded_first_last w0 in
  Pattern.generateTwoLetterPattern rng (w0 :: rest)
  = (p, filter (λ w, Pattern.matchesPattern w p = true) (w0 :: rest))
  ∧ (length w0 ≠ 2 → p = Pattern.first_last_pattern w0).
Proof.
  intros Hlen Htrace p. split; [|apply PatternFacts.guarded_is_first_last].
  unfold Pattern.generateTwoLetterPattern.
  rewrite PatternFacts.search_no_fallback by done.
  subst p. rewrite <- (PatternFacts.last_resort_pattern (w0 :: rest) w0 Hlen).
  reflexivity.
Qed.

Lemma last_resort_result_witness :
  Pattern.generateTwoLetterPattern demo_rng [word "ABC"]
  = (Pattern.guarded_first_last (word "ABC"),
     filter (λ w, Pattern.matchesPattern w (Pattern.guarded_first_last (word "ABC")) = true)
            [word "ABC"])
  ∧ Pattern.guarded_first_last (word "ABC") = Pattern.first_last_pattern (word "ABC").
Proof.
  destruct (last_resort_result demo_rng (word "ABC") []) as [Heq Hfl];
    [simpl; lia|apply PatternFacts.single_word_trace|].
  split; [exact Heq|apply Hfl; simpl; lia].
Defined.

Example last_resort_three_letters (rng : Rng) :
  Pattern.generateTwoLetterPattern rng [word "ABC"]
  = ([Some "A"%char; wildcard; Some "C"%char], [word "ABC"]).
Proof.
  rewrite PatternFacts.generate_last_resort
    by apply PatternFacts.single_word_trace.
  vm_compute. reflexivity.
Qed.

(** C7 as stated fails on a two-letter first word: the last letter is left
    a wildcard. *)
Lemma last_resort_counterexample :
  ¬ (∀ (rng : Rng) (w0 : Word) (rest : list Word),
       Forall Pattern.no_fallback_attempt
         (Pattern.pattern_trace Pattern.MAX_PATTERN_ATTEMPTS rng (w0 :: rest) w0 0) →
       (Pattern.generateTwoLetterPattern rng (w0 :: rest)).1
       = Pattern.first_last_pattern w0).
Proof.
  intros H. specialize (H (λ _, 0) (word "AB") []).
  assert (Ht : Forall Pattern.no_fallback_attempt
    (Pattern.pattern_trace Pattern.MAX_PATTERN_ATTEMPTS (λ _, 0) [word "AB"]
       (word "AB") 0)) by (by apply PatternFacts.short_word_trace).
  specialize (H Ht). rewrite PatternFacts.generate_last_resort in H by done.
  vm_compute in H. discriminate H.
Qed.

Example last_resort_empty_word (rng : Rng) :
  Pattern.generateTwoLetterPattern rng [[]] = ([None], []).
Proof.
  rewrite PatternFacts.generate_last_resort
    by (apply PatternFacts.short_word_trace; simpl; lia).
  vm_compute. reflexivity.
Qed.

(** * Part III: further properties of the code *)

(** ** ScoringEngine, continued *)

Lemma count_idx_pos (P : nat → Prop) `{∀ i, Decision (P i)} n :
  0 < count_idx P n ↔ ∃ i, i < n ∧ P i.
Proof.
  induction n as [|n IH].
  { split; [unfold count_idx; simpl; lia|]. intros (i & Hi & _). lia. }
  rewrite count_idx_S. destruct (decide (P n)) as [Hn|Hn].
  - split; [|lia]. intros _. exists n. split; [lia|done].
  - rewrite Nat.add_0_r, IH. split; intros (i & Hi & HP).
    + exists i. split; [lia|done].
    + exists i. split; [|done]. destruct (decide (i = n)) as [->|]; [done|lia].
Qed.

Lemma count_idx_all (P : nat → Prop) `{∀ i, Decision (P i)} n :
  (∀ i, i < n → P i) → count_idx P n = n.
Proof.
  induction n as [|n IH]; intros HP; [done|].
  rewrite count_idx_S, IH by (intros; apply HP; lia).
  rewrite decide_True by (apply HP; lia). lia.
Qed.

Module ScoringMore.
Import Scoring.

(** Once a letter has been marked absent, its remaining count is zero. *)
Lemma second_pass_absent guess answer k :
  k ≤ length answer →
  ∀ i c, i < k → guess !! i = Some c →
    (second_pass guess answer k).1 !! i = Some Absent →
    rcv (second_pass guess answer k).2 (Some c) = 0%Z.
Proof.
  induction k as [|k IH]; intros Hk i c Hi Hg Habs; [lia|].
  destruct (ScoringFacts.second_pass_spec guess answer k)
    as (res & rc & Heq & Hlen & Hcor & Hpre & Hnone & Hpos & Hcnt); [lia|].
  specialize (IH ltac:(lia)). rewrite Heq in IH. cbn [fst snd] in IH.
  rewrite ScoringFacts.second_pass_S, Heq in Habs |- *.
  unfold second_pass_step in Habs |- *.
  assert (Hstay : i < k → res !! i = Some Absent → rcv rc (Some c) = 0%Z)
    by (intros; by eapply IH).
  assert (Hhere : i = k → res !! k = Some Absent →
            (∀ n, rc !! (guess !! k) = Some n → ¬ (0 < n)%Z) →
            rcv rc (Some c) = 0%Z).
  { intros -> _ Hn. rewrite Hg in Hn. unfold rcv.
    pose proof (Hpos (Some c)) as Hp. unfold rcv in Hp.
    destruct (rc !! Some c) as [n|]; [|done]. simpl in *.
    specialize (Hn n eq_refl). lia. }
  destruct (decide (res !! k = Some Correct)) as [Hc|Hc].
  { cbn [fst snd] in *. destruct (decide (i = k)) as [->|]; [congruence|].
    apply Hstay; [lia|done]. }
  destruct (rc !! (guess !! k)) as [n|] eqn:Hrc.
  2: { cbn [fst snd] in *. destruct (decide (i = k)) as [->|].
       - by apply Hhere.
       - apply Hstay; [lia|done]. }
  destruct (decide (0 < n)%Z) as [Hn|Hn].
  2: { cbn [fst snd] in *. destruct (decide (i = k)) as [->|].
       - apply Hhere; [done|done|]. by intros ? [= <-].
       - apply Hstay; [lia|done]. }
  cbn [fst snd] in *. destruct (decide (i = k)) as [->|Hne].
  - rewrite list_lookup_insert_eq in Habs by lia. done.
  - rewrite list_lookup_insert_ne in Habs by done.
    rewrite ScoringFacts.rcv_insert.
    pose proof (Hstay ltac:(lia) Habs) as Hz.
    destruct (decide (guess !! k = Some c)) as [Hkc|]; [|done].
    exfalso. unfold rcv in Hz. rewrite Hkc in Hrc. rewrite Hrc in Hz.
    simpl in Hz. lia.
Qed.

(** Every position of the row holds a mark. *)
Lemma score_defined guess answer i :
  i < length answer → is_Some (scoreWordleGuess guess answer !! i).
Proof.
  intros Hi. apply lookup_lt_is_Some_2. by rewrite ScoringFacts.score_length.
Qed.

(** With an absent [L] in the row, every [L] of the answer is accounted
    for by the marks. *)
Lemma absent_exhausts guess answer L i :
  guess !! i = Some L → scoreWordleGuess guess answer !! i = Some Absent →
  count_marked L guess (scoreWordleGuess guess answer) = count_letter L answer.
Proof.
  intros Hg Habs.
  assert (Hi : i < length answer).
  { apply lookup_lt_Some in Habs. by rewrite ScoringFacts.score_length in Habs. }
  pose proof (second_pass_absent guess answer (length answer) ltac:(done)
                i L Hi Hg Habs) as Hz.
  unfold count_marked, count_letter. rewrite ScoringFacts.score_length.
  unfold scoreWordleGuess in *.
  destruct (ScoringFacts.second_pass_spec guess answer (length answer))
    as (res & rc & Heq & Hlen & Hcor & Hpre & Hnone & Hpos & Hcnt); [done|].
  rewrite Heq in *. cbn [fst snd] in *.
  rewrite <- count_idx_lookup.
  rewrite (count_idx_split (marked L guess res)
             (λ i, guess !! i = Some L ∧ res !! i = Some Correct)
             (present_at guess res L)).
  2: { intros j _. unfold marked, present_at. tauto. }
  2: { intros j _ [[_ H1] [_ H2]]. congruence. }
  rewrite (count_idx_split (λ i, answer !! i = Some L)
             (λ i, answer !! i = Some L ∧ guess !! i = answer !! i)
             (mismatch guess answer L) (length answer)).
  2: { intros j _. unfold mismatch.
       destruct (decide (guess !! j = answer !! j)); tauto. }
  2: { intros j _. unfold mismatch. tauto. }
  specialize (Hcnt L). f_equal; [|lia].
  apply count_idx_ext. intros j Hj. rewrite (Hcor j Hj).
  split; intros [H1 H2]; split; congruence.
Qed.

End ScoringMore.

(** X1. A position of the feedback row is correct exactly when the guess
    and the answer have the same letter there. *)
Theorem score_correct_exactly (guess answer : Word) (i : nat) :
  i < length answer →
  Scoring.scoreWordleGuess guess answer !! i = Some Correct
  ↔ guess !! i = answer !! i.
Proof. apply ScoringFacts.score_correct_iff. Qed.

Lemma score_correct_exactly_witness :
  Scoring.scoreWordleGuess (word "LASER") (word "LATER") !! 1 = Some Correct
  ↔ word "LASER" !! 1 = word "LATER" !! 1.
Proof. apply (score_correct_exactly (word "LASER") (word "LATER") 1). simpl. lia. Defined.

(** X2. For a guess of the answer's length, the row is all correct exactly
    when the guess is the answer: the row agrees with the sessions' test
    [raw === answer]. *)
Theorem score_all_correct_iff (guess answer : Word) :
  length guess = length answer →
  Forall (λ sc, sc = Correct) (Scoring.scoreWordleGuess guess answer)
  ↔ guess = answer.
Proof.
  intros Hlen. rewrite Forall_lookup. split.
  - intros Hall. apply list_eq. intros i.
    destruct (decide (i < length answer)) as [Hi|Hi].
    + destruct (ScoringMore.score_defined guess answer i Hi) as [sc Hsc].
      pose proof (Hall i sc Hsc) as ->.
      by apply ScoringFacts.score_correct_iff in Hsc.
    + rewrite !lookup_ge_None_2 by lia. done.
  - intros -> i sc Hsc.
    assert (Hi : i < length answer).
    { apply lookup_lt_Some in Hsc. by rewrite ScoringFacts.score_length in Hsc. }
    assert (Hc : Scoring.scoreWordleGuess answer answer !! i = Some Correct)
      by (by apply ScoringFacts.score_correct_iff).
    congruence.
Qed.

Lemma score_all_correct_iff_witness :
  Forall (λ sc, sc = Correct) (Scoring.scoreWordleGuess (word "APPLE") (word "APPLE"))
  ↔ word "APPLE" = word "APPLE".
Proof. apply (score_all_correct_iff (word "APPLE") (word "APPLE")). reflexivity. Defined.

(** X3. A position marked present holds a letter that the answer has
    somewhere, at a position where guess and answer differ, and the guess
    does not match the answer at the marked position. *)
Theorem score_present_sound (guess answer : Word) (i : nat) :
  Scoring.scoreWordleGuess guess answer !! i = Some Present →
  ∃ c j, guess !! i = Some c ∧ answer !! j = Some c
         ∧ guess !! j ≠ answer !! j ∧ guess !! i ≠ answer !! i.
Proof.
  intros Hp.
  assert (Hi : i < length answer).
  { apply lookup_lt_Some in Hp. by rewrite ScoringFacts.score_length in Hp. }
  destruct (ScoringFacts.score_present_defined guess answer i Hp) as [c Hc].
  assert (Hpos : 0 < count_idx
            (Scoring.present_at guess (Scoring.scoreWordleGuess guess answer) c)
            (length answer)).
  { apply count_idx_pos. exists i. by repeat split. }
  pose proof (ScoringFacts.score_present_count guess answer c) as Hle.
  assert (Hm : 0 < count_idx (Scoring.mismatch guess answer c) (length answer)) by lia.
  apply count_idx_pos in Hm as (j & Hj & Haj & Hne).
  exists c, j. split_and!; try done.
  intros Heq. apply ScoringFacts.score_correct_iff in Heq; [|done]. congruence.
Qed.

Lemma score_present_sound_witness :
  ∃ c j, word "ALERT" !! 0 = Some c ∧ word "LATER" !! j = Some c
         ∧ word "ALERT" !! j ≠ word "LATER" !! j
         ∧ word "ALERT" !! 0 ≠ word "LATER" !! 0.
Proof.
  apply (score_present_sound (word "ALERT") (word "LATER") 0).
  vm_compute. reflexivity.
Defined.

(** X4. For a guess of the answer's length and every letter [L], the
    positions holding [L] that are marked correct or present number exactly
    the smaller of the count of [L] in the guess and in the answer. *)
Theorem score_marks_min (guess answer : Word) (L : ascii) :
  length guess = length answer →
  Scoring.count_marked L guess (Scoring.scoreWordleGuess guess answer)
  = Scoring.count_letter L guess `min` Scoring.count_letter L answer.
Proof.
  intros Hlen.
  set (row := Scoring.scoreWordleGuess guess answer).
  pose proof (ScoringFacts.conservation_any L guess answer) as Hans. fold row in Hans.
  assert (Hguess : Scoring.count_marked L guess row ≤ Scoring.count_letter L guess).
  { unfold Scoring.count_marked, Scoring.count_letter.
    rewrite <- count_idx_lookup. unfold row.
    rewrite ScoringFacts.score_length, Hlen.
    apply count_idx_le. by intros i _ [? _]. }
  assert (Hcase : (∃ i, i < length answer ∧ guess !! i = Some L
                        ∧ row !! i = Some Absent)
                  ∨ ¬ (∃ i, i < length answer ∧ guess !! i = Some L
                            ∧ row !! i = Some Absent)).
  { rewrite <- (count_idx_pos (λ i, guess !! i = Some L ∧ row !! i = Some Absent)).
    destruct (decide (0 < count_idx
                (λ i, guess !! i = Some L ∧ row !! i = Some Absent)
                (length answer))); auto. }
  destruct Hcase as [(i & _ & Hg & Habs)|Hno].
  - pose proof (ScoringMore.absent_exhausts guess answer L i Hg Habs) as Heq.
    fold row in Heq. lia.
  - assert (Heq : Scoring.count_marked L guess row = Scoring.count_letter L guess).
    { unfold Scoring.count_marked, Scoring.count_letter.
      rewrite <- count_idx_lookup. unfold row.
      rewrite ScoringFacts.score_length, Hlen. fold row.
      apply count_idx_ext. intros i Hi. unfold Scoring.marked.
      split; [by intros [? _]|]. intros Hg. split; [done|].
      destruct (ScoringMore.score_defined guess answer i Hi) as [sc Hsc].
      fold row in Hsc. destruct sc; auto.
      exfalso. apply Hno. by exists i. }
    lia.
Qed.

Lemma score_marks_min_witness :
  Scoring.count_marked "E" (word "EERIE")
    (Scoring.scoreWordleGuess (word "EERIE") (word "LATER"))
  = Scoring.count_letter "E" (word "EERIE") `min` Scoring.count_letter "E" (word "LATER").
Proof. apply (score_marks_min (word "EERIE") (word "LATER") "E"). reflexivity. Defined.

(** ** Keyboard hints, continued *)

Module HintMore.
Import Hints HintMarks.

Lemma hint_update_rank st letter status k :
  rank (hint_update st letter status !! k)
  = if decide (letter = k) then rank (st !! k) `max` rank (Some status)
    else rank (st !! k).
Proof.
  rewrite HintFacts.hint_update_lookup. case_decide; [|done].
  destruct status.
  - pose proof (HintFacts.rank_le_3 (st !! k)). simpl. lia.
  - case_decide as Hc.
    + apply HintFacts.rank_not_correct in Hc. simpl. lia.
    + try apply dec_stable in Hc. rewrite Hc. simpl. lia.
  - destruct (st !! k) as [sc|]; [|done].
    pose proof (HintFacts.rank_some sc). simpl in *. lia.
Qed.

Lemma hint_fold_rank (guess : Word) (row : list Score) (idx : list nat) st L n :
  n ≤ rank (foldl (λ states i,
                     match guess !! i, row !! i with
                     | Some letter, Some status => hint_update states letter status
                     | _, _ => states
                     end) st idx !! L)
  ↔ n ≤ rank (st !! L)
    ∨ ∃ i sc, i ∈ idx ∧ guess !! i = Some L ∧ row !! i = Some sc
              ∧ n ≤ rank (Some sc).
Proof.
  revert st. induction idx as [|j idx IH]; intros st; simpl.
  { split; [by left|]. intros [?|(i & sc & Hin & _)]; [done|].
    by apply elem_of_nil in Hin. }
  rewrite IH. clear IH.
  assert (Hhead : n ≤ rank (match guess !! j, row !! j with
                            | Some letter, Some status => hint_update st letter status
                            | _, _ => st
                            end !! L)
    ↔ n ≤ rank (st !! L)
      ∨ ∃ sc, guess !! j = Some L ∧ row !! j = Some sc ∧ n ≤ rank (Some sc)).
  { destruct (guess !! j) as [letter|] eqn:Hg, (row !! j) as [status|] eqn:Hr.
    - rewrite hint_update_rank. destruct (decide (letter = L)) as [->|Hne].
      + split.
        * intros Hmax. destruct (decide (n ≤ rank (st !! L))); [by left|].
          right. exists status. split_and!; [done|done|lia].
        * intros [?|(sc & _ & [= <-] & ?)]; lia.
      + split; [by left|]. intros [?|(sc & [= ?] & _)]; [done|by subst].
    - split; [by left|]. by intros [?|(sc & _ & ? & _)].
    - split; [by left|]. by intros [?|(sc & ? & _)].
    - split; [by left|]. by intros [?|(sc & ? & _)]. }
  rewrite Hhead. split.
  - intros [[?|(sc & ? & ? & ?)]|(i & sc & Hin & ? & ? & ?)].
    + by left.
    + right. exists j, sc. split_and!; [left|done..].
    + right. exists i, sc. split_and!; [by right|done..].
  - intros [?|(i & sc & Hin & ? & ? & ?)]; [by left; left|].
    apply elem_of_cons in Hin as [->|Hin].
    + left. right. by exists sc.
    + right. by exists i, sc.
Qed.

Lemma hint_row_rank st (guess : Word) (row : list Score) L n :
  n ≤ rank (hint_row st guess row !! L)
  ↔ n ≤ rank (st !! L)
    ∨ ∃ i sc, guess !! i = Some L ∧ row !! i = Some sc ∧ n ≤ rank (Some sc).
Proof.
  unfold hint_row. rewrite hint_fold_rank. split.
  - intros [?|(i & sc & _ & ? & ? & ?)]; [by left|]. right. by exists i, sc.
  - intros [?|(i & sc & Hg & ? & ?)]; [by left|]. right. exists i, sc.
    split_and!; try done. apply elem_of_seq. apply lookup_lt_Some in Hg. lia.
Qed.

Lemma hint_rows_rank results rowIndex guesses st L n :
  n ≤ rank (hint_rows results rowIndex guesses st !! L)
  ↔ n ≤ rank (st !! L)
    ∨ ∃ row g r i sc,
        guesses !! row = Some g ∧ results !! (rowIndex + row) = Some r
        ∧ g !! i = Some L ∧ r !! i = Some sc ∧ n ≤ rank (Some sc).
Proof.
  revert rowIndex st. induction guesses as [|g0 rest IH]; intros rowIndex st; simpl.
  { split; [by left|]. by intros [?|(row & g & r & i & sc & ? & _)]. }
  rewrite IH, hint_row_rank. clear IH. split.
  - intros [[?|(i & sc & Hg & Hr & Hn)]|(row & g & r & i & sc & Hg & Hr & Hi & Hs & Hn)].
    + by left.
    + right. destruct (results !! rowIndex) as [r|] eqn:Hrow; [|done].
      exists 0, g0, r, i, sc. rewrite Nat.add_0_r. by split_and!.
    + right. exists (S row), g, r, i, sc. split_and!; try done.
      by replace (rowIndex + S row) with (S rowIndex + row) by lia.
  - intros [?|(row & g & r & i & sc & Hg & Hr & Hi & Hs & Hn)]; [by left; left|].
    destruct row as [|row]; simpl in Hg.
    + injection Hg as <-. rewrite Nat.add_0_r in Hr. left. right.
      exists i, sc. rewrite Hr. by split_and!.
    + right. exists row, g, r, i, sc. split_and!; try done.
      by replace (S rowIndex + row) with (rowIndex + S row) by lia.
Qed.

(** The hint of a letter is the highest of its marks. *)
Lemma wordle_hint_rank guesses results L n :
  1 ≤ n →
  n ≤ rank (wordleLetterStates guesses results !! L)
  ↔ ∃ sc, has_mark guesses results L sc ∧ n ≤ rank (Some sc).
Proof.
  intros Hn. unfold wordleLetterStates. rewrite hint_rows_rank, lookup_empty.
  split.
  - intros [Hz|(row & g & r & i & sc & ? & ? & ? & ? & ?)]; [simpl in Hz; lia|].
    exists sc. split; [|done]. by exists row, g, r, i.
  - intros (sc & (row & g & r & i & ? & ? & ? & ?) & ?). right.
    by exists row, g, r, i, sc.
Qed.

End HintMore.

(** The hint of a letter, case by case. *)
Lemma hint_highest_mark (guesses : list Word)
    (results : list (list Score)) (L : ascii) :
  let hint := Hints.wordleLetterStates guesses results !! L in
  let mark := HintMarks.has_mark guesses results L in
  (hint = Some Correct ↔ mark Correct)
  ∧ (hint = Some Present ↔ mark Present ∧ ¬ mark Correct)
  ∧ (hint = Some Absent ↔ mark Absent ∧ ¬ mark Present ∧ ¬ mark Correct)
  ∧ (hint = None ↔ ∀ sc, ¬ mark sc).
Proof.
  intros hint mark.
  pose proof (HintMore.wordle_hint_rank guesses results L) as Hrank.
  fold hint in Hrank. fold mark in Hrank.
  assert (H3 : 3 ≤ Hints.rank hint ↔ mark Correct).
  { rewrite Hrank by lia. split; [|by exists Correct].
    intros ([] & Hm & Hle); simpl in Hle; (done || lia). }
  assert (H2 : 2 ≤ Hints.rank hint ↔ mark Correct ∨ mark Present).
  { rewrite Hrank by lia. split.
    - intros ([] & Hm & Hle); simpl in Hle; auto; lia.
    - intros [?|?]; [exists Correct|exists Present]; simpl; split; (done || lia). }
  assert (H1 : 1 ≤ Hints.rank hint ↔ ∃ sc, mark sc).
  { rewrite Hrank by lia. split.
    - intros (sc & Hm & _). by exists sc.
    - intros (sc & Hm). exists sc. split; [done|]. apply HintFacts.rank_some. }
  split_and!.
  - rewrite <- H3. destruct hint as [[]|]; simpl; split; (done || lia).
  - split.
    + intros Hh. rewrite Hh in H2, H3. simpl in *.
      assert (¬ mark Correct) by (rewrite <- H3; lia).
      split; [|done]. destruct (proj1 H2 ltac:(lia)); done.
    + intros [Hp Hc]. rewrite <- H3 in Hc.
      assert (2 ≤ Hints.rank hint) by (apply H2; by right).
      destruct hint as [[]|]; simpl in *; (done || lia).
  - split.
    + intros Hh. rewrite Hh in H1, H2, H3. simpl in *.
      assert (Hn2 : ¬ (mark Correct ∨ mark Present)) by (rewrite <- H2; lia).
      destruct (proj1 H1 ltac:(lia)) as [[] Hm]; tauto.
    + intros (Ha & Hp & Hc).
      assert (1 ≤ Hints.rank hint) by (apply H1; by exists Absent).
      assert (¬ 2 ≤ Hints.rank hint) by (rewrite H2; tauto).
      destruct hint as [[]|]; simpl in *; (done || lia).
  - split.
    + intros Hh sc Hm. rewrite Hh in H1. simpl in H1.
      assert (1 ≤ 0) by (apply H1; by exists sc). lia.
    + intros Hno. destruct hint as [sc|] eqn:Hh; [|done].
      exfalso. destruct (proj1 H1 (HintFacts.rank_some sc)) as [sc' Hm].
      by apply (Hno sc').
Qed.

(** X5. The keyboard hint of a letter is the highest mark the letter got
    in any guess, whatever the order of the guesses: correct exactly when
    some position marked it correct; present exactly when some position
    marked it present and none correct; absent exactly when it was only
    ever marked absent; and without an entry exactly when it was never
    marked. *)
Theorem wordle_hint_is_highest_mark (guesses : list Word)
    (results : list (list Score)) (L : ascii) :
  let hint := Hints.wordleLetterStates guesses results !! L in
  let mark := HintMarks.has_mark guesses results L in
  (hint = Some Correct ↔ mark Correct)
  ∧ (hint = Some Present ↔ mark Present ∧ ¬ mark Correct)
  ∧ (hint = Some Absent ↔ mark Absent ∧ ¬ mark Present ∧ ¬ mark Correct)
  ∧ (hint = None ↔ ∀ sc, ¬ mark sc).
Proof. apply hint_highest_mark. Qed.

(** ** HiveBuilder, continued *)

Module HiveMore.
Import Bee.

Lemma unique_fold (w : Word) (seen : gset ascii) (order : list ascii) :
  seen = list_to_set order → NoDup order →
  let r := foldl (λ (st : gset ascii * list ascii) ch,
                    let '(seen, order) := st in
                    if decide (ch ∈ seen) then st
                    else ({[ch]} ∪ seen, order ++ [ch]))
                 (seen, order) w in
  r.1 = list_to_set r.2 ∧ NoDup r.2
  ∧ (∀ c, c ∈ r.2 ↔ c ∈ order ∨ c ∈ w)
  ∧ ∃ tail, r.2 = order ++ tail ∧ tail `sublist_of` w.
Proof.
  revert seen order. induction w as [|ch w IH]; intros seen order Hseen Hnd; simpl.
  { split_and!; try done.
    - intros c. rewrite elem_of_nil. tauto.
    - exists []. by rewrite app_nil_r. }
  destruct (decide (ch ∈ seen)) as [Hin|Hin].
  - destruct (IH seen order Hseen Hnd) as (H1 & H2 & H3 & tail & H4 & H5).
    split_and!; try done.
    + intros c. rewrite H3, elem_of_cons.
      split; [tauto|]. intros [?|[->|?]]; auto.
      left. rewrite Hseen in Hin. by apply elem_of_list_to_set in Hin.
    + exists tail. split; [done|]. by apply sublist_cons.
  - assert (Hnot : ch ∉ order).
    { intros Hc. apply Hin. rewrite Hseen. by apply elem_of_list_to_set. }
    destruct (IH ({[ch]} ∪ seen) (order ++ [ch])) as (H1 & H2 & H3 & tail & H4 & H5).
    { rewrite Hseen, list_to_set_app_L. simpl. rewrite union_empty_r_L.
      apply (comm_L (∪)). }
    { apply NoDup_app. split_and!; [done| |apply NoDup_singleton].
      intros x Hx ->%list_elem_of_singleton. done. }
    split_and!; try done.
    + intros c. rewrite H3, elem_of_app, list_elem_of_singleton, elem_of_cons. tauto.
    + exists (ch :: tail). split; [by rewrite H4, <- app_assoc|].
      by apply sublist_skip.
Qed.

Lemma uniqueLetters_spec (w : Word) :
  NoDup (uniqueLetters w) ∧ (∀ c, c ∈ uniqueLetters w ↔ c ∈ w)
  ∧ uniqueLetters w `sublist_of` w.
Proof.
  unfold uniqueLetters.
  destruct (unique_fold w ∅ []) as (_ & H2 & H3 & tail & H4 & H5);
    [done|constructor|].
  split_and!; [done| |].
  - intros c. rewrite H3, elem_of_nil. tauto.
  - by rewrite H4.
Qed.

Lemma isBeeWord_spec (w : Word) (letters : gset ascii) (c : ascii) :
  isBeeWord w letters (Some c) = true
  ↔ 4 ≤ length w ∧ c ∈ w ∧ ∀ ch, ch ∈ w → ch ∈ letters.
Proof.
  unfold isBeeWord. simpl.
  destruct (decide (length w < 4)) as [Hl|Hl].
  { split; [done|]. intros [? _]. lia. }
  destruct (includes w [c]) eqn:Hinc; simpl.
  - apply BeeSessionFacts.includes_singleton in Hinc.
    rewrite BeeSessionFacts.forallb_in_set. split; [intros; split_and!|intros (_ & _ & ?)];
      (done || lia).
  - split; [done|]. intros (_ & Hc & _).
    apply BeeSessionFacts.includes_singleton in Hc. congruence.
Qed.

Lemma isPangram_spec (w : Word) (letters : gset ascii) :
  isPangram w letters = true ↔ ∀ l, l ∈ letters → l ∈ w.
Proof.
  unfold isPangram. rewrite forallb_forall. split.
  - intros H l Hl. apply BeeSessionFacts.includes_singleton, H.
    by apply list_elem_of_In, elem_of_elements.
  - intros H l Hl. apply BeeSessionFacts.includes_singleton, H.
    by apply elem_of_elements, list_elem_of_In.
Qed.

(** Overwriting a slot trades the old element for the new one. *)
Lemma insert_trade {A} (l : list A) j a b :
  l !! j = Some b → b :: <[j := a]> l ≡ₚ a :: l.
Proof.
  revert j. induction l as [|x l IH]; intros [|j] Hj; simplify_eq/=.
  - apply Permutation_swap.
  - rewrite Permutation_swap. rewrite (IH j Hj). apply Permutation_swap.
Qed.

(** Swapping two slots permutes the array. *)
Lemma swap_Permutation {A} (l : list A) i j ci cj :
  l !! i = Some ci → l !! j = Some cj → <[j := ci]> (<[i := cj]> l) ≡ₚ l.
Proof.
  revert i j. induction l as [|x l IH]; intros [|i] [|j] Hi Hj; simplify_eq/=.
  - done.
  - by apply insert_trade.
  - symmetry. rewrite <- (insert_trade l i cj ci Hi). done.
  - f_equiv. by apply IH.
Qed.

Lemma shuffle_loop_spec {A} rng (copy : list A) i pos :
  i < length copy ∨ copy = [] →
  (shuffle_loop rng copy i pos).1 ≡ₚ copy
  ∧ (shuffle_loop rng copy i pos).2 = pos + i.
Proof.
  revert copy pos. induction i as [|i IH]; intros copy pos Hi; cbn [shuffle_loop].
  { split; [done|simpl; lia]. }
  destruct Hi as [Hi| ->].
  2: { cbn [lookup list_lookup]. destruct (IH (@nil A) (pos + 1)) as [H1 H2]; [by right|].
       split; [done|lia]. }
  destruct (lookup_lt_is_Some_2 copy (S i) Hi) as [ci Hci].
  assert (Hj : random_index rng pos (S i + 1) < length copy).
  { pose proof (random_index_lt rng pos (S i + 1) ltac:(lia)). lia. }
  destruct (lookup_lt_is_Some_2 copy _ Hj) as [cj Hcj].
  rewrite Hci, Hcj.
  destruct (IH (<[random_index rng pos (S i + 1) := ci]> (<[S i := cj]> copy))
              (pos + 1)) as [H1 H2].
  { left. rewrite !length_insert. lia. }
  split; [|lia]. rewrite H1. by apply swap_Permutation.
Qed.

(** [shuffleArray] permutes its argument. *)
Lemma shuffleArray_spec {A} rng (arr : list A) pos :
  (shuffleArray rng arr pos).1 ≡ₚ arr
  ∧ (shuffleArray rng arr pos).2 = pos + (length arr - 1).
Proof.
  unfold shuffleArray. apply shuffle_loop_spec.
  destruct arr; [by right|left; simpl; lia].
Qed.

(** What one attempt builds from a candidate base word. *)
Lemma bee_attempt_spec rng dictionary pos p pos' :
  bee_attempt rng dictionary (pangramCandidates dictionary) pos = (Some p, pos') →
  length (letters p) = 7 ∧ NoDup (letters p)
  ∧ (∃ c, center p = Some c ∧ c ∈ letters p
          ∧ ∀ w, w ∈ valid p
                 ↔ w ∈ dictionary ∧ 4 ≤ length w ∧ c ∈ w
                   ∧ ∀ ch, ch ∈ w → ch ∈ letters p)
  ∧ (∀ w, w ∈ pangrams p ↔ w ∈ valid p ∧ ∀ l, l ∈ letters p → l ∈ w)
  ∧ valid p `sublist_of` dictionary.
Proof.
  unfold bee_attempt.
  destruct (pangramCandidates dictionary !! _) as [base|] eqn:Hbase; [|done].
  assert (Hcand : length (uniqueLetters base) = 7).
  { apply list_elem_of_lookup_2 in Hbase. unfold pangramCandidates in Hbase.
    apply list_elem_of_filter in Hbase. tauto. }
  destruct base as [|b0 base]; [done|].
  set (ls := take 7 (uniqueLetters (b0 :: base))).
  pose proof (shuffleArray_spec rng ls (pos + 1)) as [Hperm Hpos].
  destruct (shuffleArray rng ls (pos + 1)) as [shuffled pos2]. simpl in Hperm, Hpos.
  intros [= <- _]. cbn [letters center valid pangrams].
  assert (Hls : ls = uniqueLetters (b0 :: base)).
  { unfold ls. apply take_ge. lia. }
  destruct (uniqueLetters_spec (b0 :: base)) as (Hnd & _ & _).
  assert (Hlen : length shuffled = 7) by (by rewrite Hperm, Hls).
  assert (Hset : ∀ ch, ch ∈ (list_to_set shuffled : gset ascii) ↔ ch ∈ shuffled).
  { intros ch. apply elem_of_list_to_set. }
  destruct (lookup_lt_is_Some_2 shuffled (random_index rng pos2 (length shuffled)))
    as [c Hc].
  { apply random_index_lt. lia. }
  split_and!.
  - done.
  - by rewrite Hperm, Hls.
  - exists c. split_and!; [done|by eapply list_elem_of_lookup_2|].
    intros w. rewrite list_elem_of_filter, Hc, isBeeWord_spec.
    setoid_rewrite Hset. tauto.
  - intros w. rewrite list_elem_of_filter, isPangram_spec.
    setoid_rewrite Hset. tauto.
  - apply sublist_filter.
Qed.

Lemma bee_trace_attempts n rng dictionary candidates pos p :
  p ∈ bee_trace n rng dictionary candidates pos →
  ∃ pos0 pos1, bee_attempt rng dictionary candidates pos0 = (Some p, pos1).
Proof.
  revert pos. induction n as [|n IH]; intros pos; simpl.
  { by intros ?%elem_of_nil. }
  destruct (bee_attempt rng dictionary candidates pos) as [[cur|] pos'] eqn:Hatt.
  - intros [->|Hin]%elem_of_cons; [by eexists _, _|by eapply IH].
  - by intros ?%elem_of_nil.
Qed.

(** The search returns an attempt it made, inside the density cap. *)
Lemma bee_search_result n rng dictionary candidates pos best p :
  bee_search n rng dictionary candidates pos best = Some p →
  best = Some p
  ∨ p ∈ bee_trace n rng dictionary candidates pos ∧ within_cap p.
Proof.
  revert pos best. induction n as [|n IH]; intros pos best; simpl; [by left|].
  destruct (bee_attempt rng dictionary candidates pos) as [[cur|] pos']; [|by left].
  destruct (decide (within_cap cur)) as [Hcap|Hcap].
  - destruct (decide (accepted cur)).
    + intros [= <-]. right. split; [left|done].
    + intros Hs. apply IH in Hs as [Hb|[Hin Hc]].
      * unfold track_best in Hb. destruct best as [b|].
        -- case_decide; [|by left]. injection Hb as <-. right. split; [left|done].
        -- injection Hb as <-. right. split; [left|done].
      * right. split; [by right|done].
  - intros Hs. apply IH in Hs as [Hb|[Hin Hc]]; [by left|].
    right. split; [by right|done].
Qed.

Lemma buildBeePuzzle_search rng dictionary :
  buildBeePuzzle rng dictionary
  = bee_search BEE_ATTEMPTS rng dictionary (pangramCandidates dictionary) 0 None.
Proof. reflexivity. Qed.

(** Every puzzle the builder returns is well formed. *)
Lemma built_well_formed rng dictionary p :
  buildBeePuzzle rng dictionary = Some p → HivePuzzle.well_formed dictionary p.
Proof.
  intros Hb. rewrite buildBeePuzzle_search in Hb.
  apply bee_search_result in Hb as [|[Hin Hcap]]; [done|].
  apply bee_trace_attempts in Hin as (pos0 & pos1 & Hatt).
  destruct (bee_attempt_spec _ _ _ _ _ Hatt) as (H1 & H2 & H3 & H4 & H5).
  unfold HivePuzzle.well_formed. split_and!; assumption.
Qed.

End HiveMore.

(** X6. [uniqueLetters] keeps each letter of the word once, in the order
    of the word. *)
Theorem uniqueLetters_distinct (w : Word) :
  NoDup (Bee.uniqueLetters w)
  ∧ (∀ c, c ∈ Bee.uniqueLetters w ↔ c ∈ w)
  ∧ Bee.uniqueLetters w `sublist_of` w.
Proof. apply HiveMore.uniqueLetters_spec. Qed.

(** X7. [shuffleArray] returns a permutation of its argument, whatever
    the random draws, and takes one draw per element after the first. *)
Theorem shuffleArray_permutes {A} (rng : Rng) (arr : list A) (pos : nat) :
  (Bee.shuffleArray rng arr pos).1 ≡ₚ arr
  ∧ (Bee.shuffleArray rng arr pos).2 = pos + (length arr - 1).
Proof. apply HiveMore.shuffleArray_spec. Qed.

(** X8. Every puzzle [buildBeePuzzle] returns is well formed: seven
    distinct letters, the center one of them, the valid words exactly the
    dictionary words of at least four letters with the center letter and
    only hive letters, at most a hundred of them and in dictionary order,
    the pangrams exactly the valid words using all seven letters. *)
Theorem built_puzzle_well_formed (rng : Rng) (dictionary : list Word)
    (p : Bee.Puzzle) :
  Bee.buildBeePuzzle rng dictionary = Some p →
  HivePuzzle.well_formed dictionary p.
Proof. apply HiveMore.built_well_formed. Qed.

Lemma built_puzzle_well_formed_witness :
  ∃ p, Bee.buildBeePuzzle demo_rng demo_dictionary = Some p
       ∧ HivePuzzle.well_formed demo_dictionary p.
Proof.
  assert (Hb : ∃ p, Bee.buildBeePuzzle demo_rng demo_dictionary = Some p).
  { eexists. vm_compute. reflexivity. }
  destruct Hb as [p Hp]. exists p. split; [done|].
  by apply (built_puzzle_well_formed demo_rng demo_dictionary p).
Defined.

(** ** BeeSession, continued *)

Module BeeRoundFacts.
Import BeeSession BeeRound.

(** When the handler accepts, and what it does then. *)
Lemma bee_submit_cases s raw :
  (handleBeeSubmit s raw).1 = s ∧ (handleBeeSubmit s raw).2 ≠ Accepted
  ∨ (∃ ls c, beeLetters s = Some ls ∧ beeCenterLetter s = Some c
             ∧ beeDictLoading s = false ∧ 4 ≤ length raw ∧ c ∈ raw
             ∧ (∀ ch, ch ∈ raw → ch ∈ ls)
             ∧ raw ∈ beeValidWords s ∧ raw ∉ beeFoundWords s)
    ∧ handleBeeSubmit s raw
      = (mkState (beeLetters s) (beeCenterLetter s) (beeValidWords s)
           (beePangrams s) (beeFoundWords s ++ [raw]) (beeDictLoading s), Accepted).
Proof.
  unfold handleBeeSubmit.
  destruct (beeLetters s) as [ls|] eqn:Hls; [|by left].
  destruct (beeCenterLetter s) as [c|] eqn:Hc; [|by left].
  destruct (beeDictLoading s) eqn:Hload; [by left|].
  destruct (decide (length raw < 4)); [by left|].
  destruct (Bee.includes raw [c]) eqn:Hinc; simpl; [|by left].
  destruct (forallb _ raw) eqn:Hall; simpl; [|by left].
  destruct (bool_decide (raw ∈ beeValidSet s)) eqn:Hval; simpl; [|by left].
  destruct (bool_decide (raw ∈ beeFoundWords s)) eqn:Hfound; simpl; [by left|].
  right. split; [|done]. exists ls, c. split_and!; try done.
  - lia.
  - by apply BeeSessionFacts.includes_singleton.
  - intros ch Hch.
    pose proof (proj1 (BeeSessionFacts.forallb_in_set _ _) Hall ch Hch) as Hin.
    unfold beeLetterSet in Hin. rewrite Hls in Hin.
    by apply elem_of_list_to_set in Hin.
  - apply bool_decide_eq_true in Hval. by apply elem_of_list_to_set in Hval.
  - by apply bool_decide_eq_false in Hfound.
Qed.

(** The conditions of acceptance are sufficient. *)
Lemma bee_submit_accepts s raw ls c :
  beeLetters s = Some ls → beeCenterLetter s = Some c → beeDictLoading s = false →
  4 ≤ length raw → c ∈ raw → (∀ ch, ch ∈ raw → ch ∈ ls) →
  raw ∈ beeValidWords s → raw ∉ beeFoundWords s →
  (handleBeeSubmit s raw).2 = Accepted.
Proof.
  intros Hls Hc Hload Hlen Hcen Hhive Hval Hfound.
  unfold handleBeeSubmit. rewrite Hls, Hc, Hload.
  rewrite decide_False by lia.
  rewrite (proj2 (BeeSessionFacts.includes_singleton raw c) Hcen). cbn [negb].
  rewrite (proj2 (BeeSessionFacts.forallb_in_set (beeLetterSet s) raw)).
  2: { intros ch Hch. unfold beeLetterSet. rewrite Hls.
       by apply elem_of_list_to_set, Hhive. }
  cbn [negb]. rewrite bool_decide_true by (by apply elem_of_list_to_set).
  cbn [negb]. by rewrite bool_decide_false.
Qed.

(** The puzzle of a round is never touched by a submission. *)
Lemma bee_submit_puzzle s raw :
  beeLetters (handleBeeSubmit s raw).1 = beeLetters s
  ∧ beeCenterLetter (handleBeeSubmit s raw).1 = beeCenterLetter s
  ∧ beeValidWords (handleBeeSubmit s raw).1 = beeValidWords s
  ∧ beePangrams (handleBeeSubmit s raw).1 = beePangrams s
  ∧ beeDictLoading (handleBeeSubmit s raw).1 = beeDictLoading s.
Proof.
  destruct (bee_submit_cases s raw) as [[-> _]|[_ ->]]; by split_and!.
Qed.

Lemma bee_run_puzzle s raws :
  beeLetters (run s raws) = beeLetters s
  ∧ beeCenterLetter (run s raws) = beeCenterLetter s
  ∧ beeValidWords (run s raws) = beeValidWords s
  ∧ beePangrams (run s raws) = beePangrams s
  ∧ beeDictLoading (run s raws) = beeDictLoading s.
Proof.
  revert s. induction raws as [|raw raws IH]; intros s; simpl; [by split_and!|].
  destruct (IH (handleBeeSubmit s raw).1) as (H1 & H2 & H3 & H4 & H5).
  destruct (bee_submit_puzzle s raw) as (G1 & G2 & G3 & G4 & G5).
  split_and!; congruence.
Qed.

Lemma bee_found_step s raw :
  NoDup (beeFoundWords s) → (∀ w, w ∈ beeFoundWords s → w ∈ beeValidWords s) →
  NoDup (beeFoundWords (handleBeeSubmit s raw).1)
  ∧ ∀ w, w ∈ beeFoundWords (handleBeeSubmit s raw).1
         → w ∈ beeValidWords (handleBeeSubmit s raw).1.
Proof.
  intros Hnd Hsub.
  destruct (bee_submit_cases s raw)
    as [[-> _]|[(ls & c & _ & _ & _ & _ & _ & _ & Hval & Hnew) ->]]; [done|].
  cbn [fst beeFoundWords beeValidWords]. split.
  - apply NoDup_app. split_and!; [done| |apply NoDup_singleton].
    intros x Hx ->%list_elem_of_singleton. done.
  - intros w [?| ->%list_elem_of_singleton]%elem_of_app; auto.
Qed.

Lemma bee_found_run s raws :
  NoDup (beeFoundWords s) → (∀ w, w ∈ beeFoundWords s → w ∈ beeValidWords s) →
  NoDup (beeFoundWords (run s raws))
  ∧ ∀ w, w ∈ beeFoundWords (run s raws) → w ∈ beeValidWords (run s raws).
Proof.
  revert s. induction raws as [|raw raws IH]; intros s Hnd Hsub; simpl; [done|].
  destruct (bee_found_step s raw Hnd Hsub) as [H1 H2]. by apply IH.
Qed.

Lemma buildBeePuzzle_nil rng : Bee.buildBeePuzzle rng [] = None.
Proof.
  rewrite HiveMore.buildBeePuzzle_search.
  change Bee.BEE_ATTEMPTS with (S 599). reflexivity.
Qed.

End BeeRoundFacts.

(** X9. In a round that starts with no word found, after any submissions
    the found words are distinct, all of them are valid words of the puzzle,
    their number never exceeds the number of valid words, and the puzzle
    itself (letters, center, valid words, pangrams) is as at the start. *)
Theorem bee_found_words_invariant (s : BeeSession.State) (raws : list Word) :
  BeeSession.beeFoundWords s = [] →
  let s' := BeeRound.run s raws in
  NoDup (BeeSession.beeFoundWords s')
  ∧ (∀ w, w ∈ BeeSession.beeFoundWords s' → w ∈ BeeSession.beeValidWords s)
  ∧ length (BeeSession.beeFoundWords s') ≤ length (BeeSession.beeValidWords s)
  ∧ BeeSession.beeLetters s' = BeeSession.beeLetters s
  ∧ BeeSession.beeCenterLetter s' = BeeSession.beeCenterLetter s
  ∧ BeeSession.beeValidWords s' = BeeSession.beeValidWords s
  ∧ BeeSession.beePangrams s' = BeeSession.beePangrams s.
Proof.
  intros Hempty s'.
  destruct (BeeRoundFacts.bee_run_puzzle s raws) as (H1 & H2 & H3 & H4 & _).
  destruct (BeeRoundFacts.bee_found_run s raws) as [Hnd Hsub].
  { rewrite Hempty. constructor. }
  { rewrite Hempty. by intros w ?%elem_of_nil. }
  fold s' in H1, H2, H3, H4, Hnd, Hsub. rewrite H3 in Hsub.
  split_and!; try done.
  apply submseteq_length, NoDup_submseteq; done.
Qed.

Lemma bee_found_words_invariant_witness :
  let s := BeeSession.mkState (Some (word "TABCDEF")) (Some "T"%char)
             [word "BEAT"; word "ABET"] [] [] false in
  let s' := BeeRound.run s [word "BEAT"; word "BEAT"; word "ABED"; word "ABET"] in
  NoDup (BeeSession.beeFoundWords s')
  ∧ length (BeeSession.beeFoundWords s') ≤ length (BeeSession.beeValidWords s).
Proof.
  intros s s'.
  destruct (bee_found_words_invariant s
              [word "BEAT"; word "BEAT"; word "ABED"; word "ABET"])
    as (H1 & _ & H2 & _); [reflexivity|].
  split; [exact H1|exact H2].
Defined.

Example bee_round_found :
  BeeSession.beeFoundWords
    (BeeRound.run
       (BeeSession.mkState (Some (word "TABCDEF")) (Some "T"%char)
          [word "BEAT"; word "ABET"] [] [] false)
       [word "BEAT"; word "BEAT"; word "ABED"; word "ABET"])
  = [word "BEAT"; word "ABET"].
Proof. vm_compute. reflexivity. Qed.

(** X10. After [startNewBeeGame] has built a puzzle, and after any
    submissions in that round, a word is accepted exactly when it is a valid
    word of the puzzle that has not been found yet: the length, center and
    hive-letter checks never turn a valid word away. *)
Theorem bee_round_accepts_valid_words (rng rngOuter : Rng) (beeDict : list Word)
    (s0 : BeeSession.State) (puzzle : Bee.Puzzle) (raws : list Word) (raw : Word) :
  BeeSession.beeDictLoading s0 = false →
  Bee.buildBeePuzzle rng beeDict = Some puzzle →
  let s := BeeRound.run (BeeRound.startNewBeeGame rng rngOuter "" beeDict s0) raws in
  BeeSession.beeValidWords s = Bee.valid puzzle
  ∧ ((BeeSession.handleBeeSubmit s raw).2 = Accepted
     ↔ raw ∈ Bee.valid puzzle ∧ raw ∉ BeeSession.beeFoundWords s).
Proof.
  intros Hload Hbuild s.
  destruct (HiveMore.built_well_formed rng beeDict puzzle Hbuild)
    as (Hlen & Hnd & (c & Hc & Hcin & Hvalid) & _).
  assert (Hdict : length beeDict ≠ 0).
  { destruct beeDict; [|done]. by rewrite BeeRoundFacts.buildBeePuzzle_nil in Hbuild. }
  set (start := BeeRound.startNewBeeGame rng rngOuter "" beeDict s0) in *.
  assert (Hstart : ∃ outerShuffled,
    outerShuffled ≡ₚ filter (λ l, Some l ≠ Bee.center puzzle) (Bee.letters puzzle)
    ∧ start = BeeSession.mkState (Some (c :: outerShuffled)) (Some c)
                (Bee.valid puzzle) (Bee.pangrams puzzle) [] false).
  { unfold start, BeeRound.startNewBeeGame.
    rewrite Hload, decide_False by (by intros ?). rewrite decide_False by done.
    rewrite Hbuild, Hc. eexists. split; [|reflexivity].
    apply HiveMore.shuffleArray_spec. }
  destruct Hstart as (outer & Hperm & Hstart).
  destruct (BeeRoundFacts.bee_run_puzzle start raws) as (H1 & H2 & H3 & _ & H5).
  fold s in H1, H2, H3, H5. rewrite Hstart in H1, H2, H3, H5.
  cbn [BeeSession.beeLetters BeeSession.beeCenterLetter BeeSession.beeValidWords
       BeeSession.beeDictLoading] in *.
  split; [done|].
  assert (Hhive : ∀ ch, ch ∈ c :: outer ↔ ch ∈ Bee.letters puzzle).
  { intros ch. rewrite elem_of_cons, Hperm, list_elem_of_filter, Hc.
    split; [intros [->|[_ ?]]; done|]. intros Hin.
    destruct (decide (ch = c)) as [->|Hne]; [by left|].
    right. split; [congruence|done]. }
  split.
  - intros Hacc.
    destruct (BeeRoundFacts.bee_submit_cases s raw)
      as [[_ Hno]|[(ls & c' & _ & _ & _ & _ & _ & _ & Hval & Hnew) _]]; [done|].
    by rewrite H3 in Hval.
  - intros [Hval Hnew]. pose proof (proj1 (Hvalid raw) Hval) as (_ & Hl & Hcen & Hin).
    apply (BeeRoundFacts.bee_submit_accepts s raw (c :: outer) c); try done.
    + intros ch Hch. by apply Hhive, Hin.
    + by rewrite H3.
Qed.

Lemma bee_round_accepts_valid_words_witness :
  ∃ puzzle, Bee.buildBeePuzzle demo_rng demo_dictionary = Some puzzle
    ∧ ∀ raw,
        let s := BeeRound.run
                   (BeeRound.startNewBeeGame demo_rng demo_rng "" demo_dictionary
                      (BeeSession.mkState None None [] [] [] false)) [] in
        (BeeSession.handleBeeSubmit s raw).2 = Accepted
        ↔ raw ∈ Bee.valid puzzle ∧ raw ∉ BeeSession.beeFoundWords s.
Proof.
  assert (Hb : ∃ p, Bee.buildBeePuzzle demo_rng demo_dictionary = Some p).
  { eexists. vm_compute. reflexivity. }
  destruct Hb as [p Hp]. exists p. split; [done|]. intros raw.
  apply (bee_round_accepts_valid_words demo_rng demo_rng demo_dictionary
           (BeeSession.mkState None None [] [] [] false) p [] raw);
    [reflexivity|exact Hp].
Defined.

Module BeeShuffleFacts.
Import BeeSession BeeRound.

(** The handler reads the hive letters only through their set. *)
Lemma bee_submit_same_hive s s' raw :
  is_Some (beeLetters s) → is_Some (beeLetters s') →
  beeLetterSet s' = beeLetterSet s →
  beeCenterLetter s' = beeCenterLetter s → beeValidWords s' = beeValidWords s →
  beeFoundWords s' = beeFoundWords s → beeDictLoading s' = beeDictLoading s →
  (handleBeeSubmit s' raw).2 = (handleBeeSubmit s raw).2
  ∧ beeFoundWords (handleBeeSubmit s' raw).1 = beeFoundWords (handleBeeSubmit s raw).1.
Proof.
  intros [ls Hls] [ls' Hls'] Hset Hc Hv Hf Hl.
  unfold handleBeeSubmit, beeValidSet. rewrite Hls, Hls', Hset, Hc, Hv, Hf, Hl.
  destruct (beeCenterLetter s); [|done].
  destruct (beeDictLoading s); [done|].
  destruct (decide (length raw < 4)); [done|].
  destruct (negb (Bee.includes raw [a])); [done|].
  destruct (negb (forallb _ raw)); [done|].
  destruct (negb (bool_decide _)); [done|].
  destruct (bool_decide _); done.
Qed.

End BeeShuffleFacts.

(** X11. Shuffling the hive, when the center is one of its letters, keeps
    the center in front, rearranges the other letters, and changes nothing
    for the player: the set of hive letters is the same and every submission
    has the same outcome and leaves the same found words as without the
    shuffle. *)
Theorem bee_shuffle_keeps_hive (rng : Rng) (pos : nat) (s : BeeSession.State)
    (ls : Word) (c : ascii) (raw : Word) :
  BeeSession.beeLetters s = Some ls → BeeSession.beeCenterLetter s = Some c →
  c ∈ ls →
  let s' := BeeRound.shuffleBeeLetters rng pos s in
  (∃ rest, BeeSession.beeLetters s' = Some (c :: rest)
           ∧ rest ≡ₚ filter (λ l, l ≠ c) ls)
  ∧ BeeSession.beeLetterSet s' = BeeSession.beeLetterSet s
  ∧ (BeeSession.handleBeeSubmit s' raw).2 = (BeeSession.handleBeeSubmit s raw).2
  ∧ BeeSession.beeFoundWords (BeeSession.handleBeeSubmit s' raw).1
    = BeeSession.beeFoundWords (BeeSession.handleBeeSubmit s raw).1.
Proof.
  intros Hls Hc Hin s'.
  assert (Hs' : s' = BeeSession.mkState
            (Some (c :: (Bee.shuffleArray rng (filter (λ l, l ≠ c) ls) pos).1))
            (BeeSession.beeCenterLetter s) (BeeSession.beeValidWords s)
            (BeeSession.beePangrams s) (BeeSession.beeFoundWords s)
            (BeeSession.beeDictLoading s)).
  { unfold s', BeeRound.shuffleBeeLetters. by rewrite Hls, Hc. }
  pose proof (proj1 (HiveMore.shuffleArray_spec rng (filter (λ l, l ≠ c) ls) pos))
    as Hperm.
  assert (Hset : BeeSession.beeLetterSet s' = BeeSession.beeLetterSet s).
  { unfold BeeSession.beeLetterSet. rewrite Hs', Hls.
    cbn [BeeSession.beeLetters default from_option id]. apply set_eq. intros ch.
    rewrite !elem_of_list_to_set, elem_of_cons, Hperm, list_elem_of_filter.
    split; [intros [->|[_ ?]]; done|]. intros Hch.
    destruct (decide (ch = c)) as [->|Hne]; [by left|by right]. }
  split_and!.
  - rewrite Hs'. cbn [BeeSession.beeLetters]. by eexists.
  - done.
  - apply BeeShuffleFacts.bee_submit_same_hive; try done; by rewrite ?Hs', ?Hls.
  - apply BeeShuffleFacts.bee_submit_same_hive; try done; by rewrite ?Hs', ?Hls.
Qed.

Lemma bee_shuffle_keeps_hive_witness :
  let s := BeeSession.mkState (Some (word "TABCDEF")) (Some "T"%char)
             [word "BEAT"; word "ABET"] [] [] false in
  (BeeSession.handleBeeSubmit (BeeRound.shuffleBeeLetters demo_rng 0 s) (word "BEAT")).2
  = (BeeSession.handleBeeSubmit s (word "BEAT")).2.
Proof.
  intros s.
  destruct (bee_shuffle_keeps_hive demo_rng 0 s (word "TABCDEF") "T"%char (word "BEAT"))
    as (_ & _ & H & _); [reflexivity|reflexivity| |exact H].
  apply (bool_decide_unpack _). vm_compute. exact I.
Defined.

(** ** PatternGenerator, continued *)

Module PatternMore.
Import Pattern PatternPolicy.

Lemma matchesPattern_spec (w : Word) (p : list Cell) :
  matchesPattern w p = true ↔ agrees w p.
Proof.
  unfold matchesPattern, agrees.
  destruct (decide (length w ≠ length p)) as [Hne|Heq].
  - split; [done|]. by intros [? _].
  - apply dec_stable in Heq. rewrite forallb_forall. split.
    + intros H. split; [done|]. intros i ch Hi.
      assert (Hin : In i (seq 0 (length p))).
      { apply in_seq. apply lookup_lt_Some in Hi. lia. }
      specialize (H i Hin). rewrite Hi in H.
      apply negb_true_iff, andb_false_iff in H.
      destruct H as [H|H]; apply bool_decide_eq_false in H.
      * left. by apply dec_stable.
      * right. by apply dec_stable.
    + intros [_ H] i _. destruct (p !! i) as [ch|] eqn:Hi; [|done].
      apply negb_true_iff, andb_false_iff. destruct (H i ch Hi) as [->| ->].
      * left. apply bool_decide_eq_false. by intros ?.
      * right. apply bool_decide_eq_false. by intros ?.
Qed.

Lemma agrees_replicate (w : Word) : agrees w (replicate (length w) wildcard).
Proof.
  split; [by rewrite length_replicate|].
  intros i ch [-> _]%lookup_replicate. by left.
Qed.

Lemma agrees_set (w : Word) (p : list Cell) i :
  agrees w p → i < length p → agrees w (array_set i (w !! i) p).
Proof.
  intros [Hlen Hp] Hi. split; [by rewrite array_set_length|].
  intros j ch. rewrite array_set_lookup by done.
  destruct (decide (j = i)) as [->|Hne].
  - intros [= <-]. by right.
  - apply Hp.
Qed.

(** What one attempt builds. *)
Lemma attempt_spec rng (words : list Word) w0 pos p m pos' :
  pattern_attempt rng words w0 pos = (Some (p, m), pos') →
  m = filter (λ w, matchesPattern w p = true) words
  ∧ ∀ n, Forall (λ w : Word, length w = n) words → w0 ∈ words →
         length p = n ∧ ∃ base, base ∈ words ∧ agrees base p.
Proof.
  unfold pattern_attempt.
  set (first := random_index rng (pos + 1) (length w0)).
  set (candidates := second_candidates (length w0) first).
  destruct (decide (length candidates = 0)) as [|Hcand]; [done|].
  intros [= <- <- _]. split; [done|]. intros n Hall Hw0.
  rewrite Forall_forall in Hall.
  destruct (lookup_lt_is_Some_2 candidates
              (random_index rng (pos + 2) (length candidates))) as [second Hsecond].
  { by apply random_index_lt. }
  rewrite Hsecond. cbn [default from_option id].
  apply list_elem_of_lookup_2 in Hsecond. unfold candidates, second_candidates in Hsecond.
  apply list_elem_of_filter in Hsecond as [_ Hin]. apply elem_of_seq in Hin.
  assert (Hfirst : first < length w0).
  { apply random_index_lt. lia. }
  pose proof (Hall w0 Hw0) as Hn. rewrite Hn in *.
  set (base := default w0 (words !! random_index rng pos (length words))).
  assert (Hbase : base ∈ words).
  { unfold base. destruct (words !! _) eqn:E; simpl; [|done].
    by eapply list_elem_of_lookup_2. }
  pose proof (Hall base Hbase) as Hblen. clearbody base first.
  assert (Hag : agrees base
            (array_set second (base !! second)
               (array_set first (base !! first) (replicate n wildcard)))).
  { rewrite <- Hblen. apply agrees_set; [apply agrees_set|].
    - apply agrees_replicate.
    - rewrite length_replicate. lia.
    - rewrite array_set_length; rewrite length_replicate; lia. }
  split; [|by exists base].
  destruct Hag as [<- _]. done.
Qed.

(** What the last resort builds. *)
Lemma last_resort_spec (words : list Word) w0 :
  (last_resort words w0).2
  = filter (λ w, matchesPattern w (last_resort words w0).1 = true) words
  ∧ (1 ≤ length w0 → agrees w0 (last_resort words w0).1).
Proof.
  split; [done|]. intros Hlen. unfold last_resort. cbn [fst].
  assert (H0 : agrees w0 (array_set 0 (w0 !! 0) (replicate (length w0) wildcard))).
  { apply agrees_set; [apply agrees_replicate|]. rewrite length_replicate. lia. }
  destruct (decide (2 < length w0)); [|done].
  apply agrees_set; [done|]. destruct H0 as [<- _]. lia.
Qed.

(** A property of every attempt holds for what the search returns or
    records. *)
Lemma search_invariant (Q : list Cell * list Word → Prop) k rng
    (words : list Word) w0 pos fallback :
  (∀ pos cur pos', pattern_attempt rng words w0 pos = (Some cur, pos') → Q cur) →
  (∀ f, fallback = Some f → Q f) →
  match pattern_search k rng words w0 pos fallback with
  | inl found => Q found
  | inr (Some f) => Q f
  | inr None => True
  end.
Proof.
  intros Hatt. revert pos fallback.
  induction k as [|k IH]; intros pos fallback Hfb; simpl.
  { destruct fallback as [f|]; [by apply Hfb|done]. }
  destruct (pattern_attempt rng words w0 pos) as [[cur|] pos'] eqn:Hcur;
    [|by apply IH].
  pose proof (Hatt _ _ _ Hcur) as Hq.
  destruct (decide (in_bounds (length cur.2))); [done|].
  apply IH. intros f. unfold track_fallback.
  destruct (decide (2 ≤ length cur.2)); [|by apply Hfb].
  destruct fallback as [best|]; [|by intros [= <-]].
  case_decide; [by intros [= <-]|by apply Hfb].
Qed.

Lemma generate_invariant (Q : list Cell * list Word → Prop) rng
    (w0 : Word) (rest : list Word) :
  (∀ pos cur pos',
     pattern_attempt rng (w0 :: rest) w0 pos = (Some cur, pos') → Q cur) →
  Q (last_resort (w0 :: rest) w0) →
  Q (generateTwoLetterPattern rng (w0 :: rest)).
Proof.
  intros Hatt Hlast. unfold generateTwoLetterPattern.
  pose proof (search_invariant Q MAX_PATTERN_ATTEMPTS rng (w0 :: rest) w0 0 None Hatt)
    as Hs.
  destruct (pattern_search _ _ _ _ _ _) as [found|[f|]]; [by apply Hs..|done].
Qed.

Lemma generate_matches rng (words : list Word) :
  (generateTwoLetterPattern rng words).2
  = filter (λ w, matchesPattern w (generateTwoLetterPattern rng words).1 = true) words.
Proof.
  destruct words as [|w0 rest]; [done|].
  apply (generate_invariant (exact_matches (w0 :: rest))).
  - intros pos [p m] pos' Hatt. by apply attempt_spec in Hatt as [-> _].
  - apply last_resort_spec.
Qed.

Lemma pattern_trace_length k rng (words : list Word) w0 pos :
  length (pattern_trace k rng words w0 pos) = k.
Proof.
  revert pos. induction k as [|k IH]; intros pos; simpl; [done|].
  destruct (pattern_attempt rng words w0 pos) as [a pos']. simpl. by rewrite IH.
Qed.

(** The search returns the first attempt inside the bounds. *)
Lemma pattern_search_first k rng (words : list Word) w0 pos fallback pre cur post :
  pattern_trace k rng words w0 pos = pre ++ Some cur :: post →
  Forall (λ a, ∀ b, a = Some b → ¬ in_bounds (length b.2)) pre →
  in_bounds (length cur.2) →
  pattern_search k rng words w0 pos fallback = inl cur.
Proof.
  revert k pos fallback.
  induction pre as [|a pre IH]; intros k pos fallback HT Hpre Hcur.
  - destruct k as [|k]; [done|]. simpl in *.
    destruct (pattern_attempt rng words w0 pos) as [a pos'].
    injection HT as -> _. by rewrite decide_True.
  - destruct k as [|k]; [done|]. simpl in *.
    destruct (pattern_attempt rng words w0 pos) as [a' pos'].
    injection HT as -> HT. apply Forall_cons in Hpre as [Ha Hpre].
    destruct a as [b|]; [|by apply IH].
    rewrite decide_False by (by apply Ha). by apply IH.
Qed.

(** A search without an attempt inside the bounds ends with the fallback
    kept over its attempts. *)
Lemma pattern_search_exhausted k rng (words : list Word) w0 pos fallback :
  Forall (λ a, ∀ b, a = Some b → ¬ in_bounds (length b.2))
         (pattern_trace k rng words w0 pos) →
  pattern_search k rng words w0 pos fallback
  = inr (best_fallback fallback (pattern_trace k rng words w0 pos)).
Proof.
  revert pos fallback. induction k as [|k IH]; intros pos fallback; simpl; [done|].
  destruct (pattern_attempt rng words w0 pos) as [[cur|] pos'].
  - intros [Hcur Hrest]%Forall_cons.
    rewrite decide_False by (by apply Hcur). by apply IH.
  - intros [_ Hrest]%Forall_cons. by apply IH.
Qed.

Lemma track_fallback_cases fb cur :
  (track_fallback fb cur = Some cur ∧ 2 ≤ length cur.2
   ∧ ∀ f, fb = Some f → (target_distance cur < target_distance f)%Z)
  ∨ (track_fallback fb cur = fb
     ∧ (2 ≤ length cur.2 →
        ∃ f, fb = Some f ∧ (target_distance f ≤ target_distance cur)%Z)).
Proof.
  unfold track_fallback, target_distance.
  destruct (decide (2 ≤ length cur.2)) as [H2|H2]; [|right; split; [done|lia]].
  destruct fb as [best|]; [|left; by split_and!].
  case_decide as Hlt.
  - left. split_and!; [done..|]. by intros f [= <-].
  - right. split; [done|]. intros _. exists best. split; [done|lia].
Qed.

Lemma best_fallback_spec T fb :
  match best_fallback fb T with
  | Some a =>
      (fb = Some a ∨ (Some a ∈ T ∧ 2 ≤ length a.2))
      ∧ (∀ f, fb = Some f → (target_distance a ≤ target_distance f)%Z)
      ∧ ∀ b, Some b ∈ T → 2 ≤ length b.2 →
             (target_distance a ≤ target_distance b)%Z
  | None => fb = None ∧ ∀ b, Some b ∈ T → length b.2 < 2
  end.
Proof.
  revert fb. induction T as [|a T IH]; intros fb; simpl.
  { destruct fb as [f|].
    - split_and!; [by left| |].
      + by intros ? [= <-].
      + by intros b ?%elem_of_nil.
    - split; [done|]. by intros b ?%elem_of_nil. }
  destruct a as [cur|].
  - specialize (IH (track_fallback fb cur)). unfold best_fallback in *.
    destruct (foldl _ (track_fallback fb cur) T) as [a|].
    + destruct IH as (Hfrom & Hfb & Hmin).
      destruct (track_fallback_cases fb cur) as [(Heq & H2 & Hlt)|(Heq & Hge)];
        rewrite Heq in Hfrom, Hfb.
      * split_and!.
        -- right. destruct Hfrom as [[= <-]|[Hin Ha]].
           ++ split; [by left|done].
           ++ split; [by right|done].
        -- intros f Hf. specialize (Hlt f Hf). specialize (Hfb cur eq_refl). lia.
        -- intros b [[= ->]|Hb]%elem_of_cons Hb2; [by apply Hfb|by apply Hmin].
      * split_and!.
        -- destruct Hfrom as [?|[Hin Ha]]; [by left|]. right. split; [by right|done].
        -- done.
        -- intros b [[= ->]|Hb]%elem_of_cons Hb2; [|by apply Hmin].
           destruct (Hge Hb2) as (f & Hf & Hle). specialize (Hfb f Hf). lia.
    + destruct IH as [Hnone Hall].
      destruct (track_fallback_cases fb cur) as [(Heq & _)|(Heq & Hge)];
        rewrite Heq in Hnone; [done|].
      split; [done|]. intros b [[= ->]|Hb]%elem_of_cons; [|by apply Hall].
      destruct (decide (2 ≤ length cur.2)) as [H2|]; [|lia].
      destruct (Hge H2) as (f & Hf & _). congruence.
  - specialize (IH fb). unfold best_fallback in *.
    destruct (foldl _ fb T) as [a|].
    + destruct IH as (Hfrom & Hfb & Hmin). split_and!.
      * destruct Hfrom as [?|[Hin Ha]]; [by left|]. right. split; [by right|done].
      * done.
      * intros b [[=]|Hb]%elem_of_cons Hb2. by apply Hmin.
    + destruct IH as [Hnone Hall]. split; [done|].
      intros b [[=]|Hb]%elem_of_cons. by apply Hall.
Qed.

Lemma attempts_length rng (words : list Word) w0 :
  length (attempts rng words w0) = 5000.
Proof. unfold attempts. apply pattern_trace_length. Qed.

Lemma generate_first rng (w0 : Word) (rest : list Word) pre cur post :
  attempts rng (w0 :: rest) w0 = pre ++ Some cur :: post →
  Forall (λ a, ∀ b, a = Some b → ¬ in_bounds (length b.2)) pre →
  in_bounds (length cur.2) →
  generateTwoLetterPattern rng (w0 :: rest) = cur.
Proof.
  unfold attempts, generateTwoLetterPattern. intros HT Hpre Hcur.
  by rewrite (pattern_search_first _ _ _ _ _ _ pre cur post).
Qed.

Lemma generate_exhausted rng (w0 : Word) (rest : list Word) :
  Forall (λ a, ∀ b, a = Some b → ¬ in_bounds (length b.2))
         (attempts rng (w0 :: rest) w0) →
  generateTwoLetterPattern rng (w0 :: rest)
  = match best_fallback None (attempts rng (w0 :: rest) w0) with
    | Some fallback => fallback
    | None => last_resort (w0 :: rest) w0
    end.
Proof.
  unfold attempts, generateTwoLetterPattern. intros Hall.
  by rewrite pattern_search_exhausted.
Qed.

Lemma generate_no_fallback rng (w0 : Word) (rest : list Word) :
  (∀ b, Some b ∈ attempts rng (w0 :: rest) w0 → length b.2 < 2) →
  generateTwoLetterPattern rng (w0 :: rest) = last_resort (w0 :: rest) w0.
Proof.
  unfold attempts. intros Hall. apply PatternFacts.generate_last_resort.
  apply Forall_forall. intros [b|] Hb; [|done]. by apply Hall.
Qed.

End PatternMore.

(** X12. The matches [generateTwoLetterPattern] returns are exactly the
    words of the corpus that fit the pattern it returns, in corpus order: a
    word is among them just when it is in the corpus, has the length of the
    pattern and carries the pattern's letter at every slot that is not the
    wildcard. *)
Theorem pattern_matches_exact (rng : Rng) (words : list Word) :
  let r := Pattern.generateTwoLetterPattern rng words in
  r.2 = filter (λ w, Pattern.matchesPattern w r.1 = true) words
  ∧ ∀ w, w ∈ r.2 ↔ w ∈ words ∧ PatternPolicy.agrees w r.1.
Proof.
  intros r.
  assert (Hfilter : r.2 = filter (λ w, Pattern.matchesPattern w r.1 = true) words)
    by apply PatternMore.generate_matches.
  split; [done|]. intros w.
  rewrite Hfilter, list_elem_of_filter, PatternMore.matchesPattern_spec. tauto.
Qed.

(** X13. On a non-empty corpus of words of one length [n >= 1] the pattern
    returned has length [n] and at least one word of the corpus fits it: the
    round always has an answer. *)
Theorem pattern_has_a_match (rng : Rng) (words : list Word) (n : nat) :
  words ≠ [] → Forall (λ w : Word, length w = n) words → 1 ≤ n →
  let r := Pattern.generateTwoLetterPattern rng words in
  length r.1 = n ∧ 1 ≤ length r.2 ∧ length r.2 ≤ length words.
Proof.
  intros Hne Hall Hn r.
  destruct words as [|w0 rest]; [done|].
  assert (Hw0 : w0 ∈ w0 :: rest) by (by left).
  assert (Hlen0 : length w0 = n).
  { rewrite Forall_forall in Hall. by apply Hall. }
  assert (Hq : length r.1 = n
    ∧ r.2 = filter (λ w, Pattern.matchesPattern w r.1 = true) (w0 :: rest)
    ∧ ∃ base, base ∈ w0 :: rest ∧ PatternPolicy.agrees base r.1).
  { subst r.
    apply (PatternMore.generate_invariant
             (λ cur, length cur.1 = n
                ∧ PatternPolicy.exact_matches (w0 :: rest) cur
                ∧ ∃ base, base ∈ w0 :: rest ∧ PatternPolicy.agrees base cur.1)).
    - intros pos [p m] pos' Hatt.
      apply PatternMore.attempt_spec in Hatt as [-> Hrest].
      destruct (Hrest n Hall Hw0) as [Hp Hbase]. by split_and!.
    - destruct (PatternMore.last_resort_spec (w0 :: rest) w0) as [Hf Hag].
      specialize (Hag ltac:(lia)). split_and!; [|done|by exists w0].
      destruct Hag as [<- _]. done. }
  destruct Hq as (Hlen & Hfilter & base & Hbase & Hag).
  split_and!; [done| |].
  - assert (Hin : base ∈ r.2).
    { rewrite Hfilter. apply list_elem_of_filter. split; [|done].
      by apply PatternMore.matchesPattern_spec. }
    destruct (r.2); [by apply elem_of_nil in Hin|simpl; lia].
  - rewrite Hfilter. apply length_filter.
Qed.

Lemma pattern_has_a_match_witness :
  let r := Pattern.generateTwoLetterPattern demo_rng [word "AB"; word "CD"] in
  length r.1 = 2 ∧ 1 ≤ length r.2 ∧ length r.2 ≤ 2.
Proof.
  apply (pattern_has_a_match demo_rng [word "AB"; word "CD"] 2);
    [done|by repeat constructor|lia].
Defined.

(** X14. The search policy of [generateTwoLetterPattern] on a non-empty
    corpus: it makes 5000 attempts at most and returns the first one with 3
    to 15 matches; when no attempt is in that range but some attempt has at
    least two matches, it returns one of those, with a match count nearest to
    9; and when every attempt has fewer than two matches it returns the last
    resort. *)
Theorem pattern_search_policy (rng : Rng) (w0 : Word) (rest : list Word) :
  let words := w0 :: rest in
  let T := PatternPolicy.attempts rng words w0 in
  let r := Pattern.generateTwoLetterPattern rng words in
  length T = 5000
  ∧ (∀ k cur, T !! k = Some (Some cur) → Pattern.in_bounds (length cur.2) →
       (∀ j b, j < k → T !! j = Some (Some b) → ¬ Pattern.in_bounds (length b.2)) →
       r = cur)
  ∧ ((∀ b, Some b ∈ T → ¬ Pattern.in_bounds (length b.2)) →
     (∃ b, Some b ∈ T ∧ 2 ≤ length b.2) →
     Some r ∈ T ∧ 2 ≤ length r.2
     ∧ ∀ b, Some b ∈ T → 2 ≤ length b.2 →
            (PatternPolicy.target_distance r ≤ PatternPolicy.target_distance b)%Z)
  ∧ ((∀ b, Some b ∈ T → length b.2 < 2) → r = Pattern.last_resort words w0).
Proof.
  intros words T r. subst words T r. split_and!.
  - apply PatternMore.attempts_length.
  - intros k cur Hk Hcur Hbefore.
    apply (PatternMore.generate_first rng w0 rest
             (take k (PatternPolicy.attempts rng (w0 :: rest) w0)) cur
             (drop (S k) (PatternPolicy.attempts rng (w0 :: rest) w0)));
      [by rewrite take_drop_middle| |done].
    apply Forall_lookup_2. intros j a [Hj Hlt]%lookup_take_Some b ->.
    by eapply Hbefore.
  - intros Hnone (b & Hb & Hb2). rewrite PatternMore.generate_exhausted.
    2: { apply Forall_forall. intros a Ha c ->. by apply Hnone. }
    pose proof (PatternMore.best_fallback_spec
                  (PatternPolicy.attempts rng (w0 :: rest) w0) None) as Hspec.
    destruct (PatternPolicy.best_fallback None _) as [a|].
    + destruct Hspec as ([?|[Hin Ha]] & _ & Hmin); [done|]. by split_and!.
    + destruct Hspec as [_ Hall]. specialize (Hall b Hb). lia.
  - apply PatternMore.generate_no_fallback.
Qed.

Lemma pattern_search_policy_witness :
  Pattern.generateTwoLetterPattern demo_rng [word "ABC"]
  = Pattern.last_resort [word "ABC"] (word "ABC").
Proof.
  destruct (pattern_search_policy demo_rng (word "ABC") []) as (_ & _ & _ & H).
  apply H. intros b Hb.
  pose proof (PatternFacts.single_word_trace Pattern.MAX_PATTERN_ATTEMPTS demo_rng
                (word "ABC") 0) as Hall.
  rewrite Forall_forall in Hall. exact (Hall (Some b) Hb).
Defined.

(** ** Sessions, continued *)

Module WordleMore.
Import Wordle.

(** What every state of a Wordle round keeps. *)
Lemma wordle_invariant words wordSet s :
  reachable words wordSet s →
  ∃ answer, wordleAnswer s = Some answer ∧ answer ∈ words
    ∧ wordleResults s = (λ g, Scoring.scoreWordleGuess g answer) <$> wordleGuesses s
    ∧ length (wordleGuesses s) ≤ 6
    ∧ Forall (λ g : Word, length g = 5 ∧ in_word_set wordSet g = true)
             (wordleGuesses s).
Proof.
  induction 1 as [answer Hin|s raw Hreach (answer & Ha & Hin & Hres & Hlen & Hall)].
  - exists answer. simpl. split_and!; [done|done|done|lia|constructor].
  - unfold handleWordleSubmit. rewrite Ha.
    destruct answer as [|a0 answer]; [by exists []|].
    destruct (wordleDone s); [by eexists|].
    destruct (decide (length raw ≠ 5)) as [|Hraw]; [by eexists|].
    destruct (in_word_set wordSet raw) eqn:Hws; cbn [negb]; [|by eexists].
    destruct (decide (6 ≤ length (wordleGuesses s))); [by eexists|].
    exists (a0 :: answer). cbn [fst wordleAnswer wordleGuesses wordleResults].
    split_and!; try done.
    + by rewrite fmap_app, Hres.
    + rewrite length_app. simpl. lia.
    + apply Forall_app. split; [done|]. constructor; [|done].
      split; [|done]. by apply dec_stable.
Qed.

(** A submission that is not accepted leaves the whole state alone. *)
Lemma wordle_not_accepted wordSet s raw :
  (handleWordleSubmit wordSet s raw).2 ≠ Accepted →
  (handleWordleSubmit wordSet s raw).1 = s.
Proof.
  unfold handleWordleSubmit.
  destruct (wordleAnswer s) as [[|a0 answer]|]; try done.
  destruct (wordleDone s); [done|].
  destruct (decide (length raw ≠ 5)); [done|].
  destruct (negb (in_word_set wordSet raw)); [done|].
  destruct (decide (6 ≤ length (wordleGuesses s))); done.
Qed.

End WordleMore.

(** X15. In every state a Wordle round can reach, the feedback history is
    the score of each logged guess against the answer, row for row; there
    are at most six guesses; and every logged guess has five letters and is
    in the word set. *)
Theorem wordle_history_consistent (words : list Word) (wordSet : option (gset Word))
    (s : Wordle.State) :
  Wordle.reachable words wordSet s →
  ∃ answer, Wordle.wordleAnswer s = Some answer ∧ answer ∈ words
    ∧ Wordle.wordleResults s
      = (λ g, Scoring.scoreWordleGuess g answer) <$> Wordle.wordleGuesses s
    ∧ length (Wordle.wordleGuesses s) ≤ 6
    ∧ Forall (λ g : Word, length g = 5 ∧ in_word_set wordSet g = true)
             (Wordle.wordleGuesses s).
Proof. apply WordleMore.wordle_invariant. Qed.

Lemma wordle_history_consistent_witness :
  ∃ answer, Wordle.wordleAnswer demo_wordle_won = Some answer
    ∧ Wordle.wordleResults demo_wordle_won
      = (λ g, Scoring.scoreWordleGuess g answer) <$> Wordle.wordleGuesses demo_wordle_won.
Proof.
  destruct (wordle_history_consistent demo_words demo_set demo_wordle_won
              demo_wordle_reachable) as (answer & Ha & _ & Hres & _).
  exists answer. split; [exact Ha|exact Hres].
Defined.

Module QuordleMore.
Import Quordle.

(** The loop over the first [k] boards appends the guess's score to the
    history of each visited board. *)
Lemma board_fold_results raw (answers : list Word) results (wins : list bool) k :
  ∀ results' wins',
    foldl (board_step raw answers) (Some (results, wins)) (seq 0 k)
    = Some (results', wins') →
    ∀ i a, answers !! i = Some a →
      results' !! i
      = if decide (i < k)
        then (λ rows, rows ++ [Scoring.scoreWordleGuess raw a]) <$> results !! i
        else results !! i.
Proof.
  induction k as [|k IH]; intros results' wins'.
  { intros [= <- <-] i a _. by rewrite decide_False by lia. }
  rewrite seq_S, foldl_app. cbn [foldl Nat.add].
  destruct (foldl _ _ (seq 0 k)) as [[r1 w1]|] eqn:Heq; [|done].
  specialize (IH r1 w1 eq_refl). unfold board_step. cbn [mbind option_bind].
  destruct (answers !! k) as [ak|] eqn:Hk; [|done]. cbn [mbind option_bind].
  intros [= <- _] i a Hi.
  destruct (decide (i = k)) as [->|Hne].
  - assert (ak = a) as -> by congruence.
    rewrite list_lookup_alter_eq, (IH k a Hi).
    by rewrite decide_False, decide_True by lia.
  - rewrite list_lookup_alter_ne by done. rewrite (IH i a Hi).
    destruct (decide (i < k)), (decide (i < S k)); try done; lia.
Qed.

(** A submission on a shaped state is either not accepted and changes
    nothing, or extends every board. *)
Lemma quordle_submit_full wordSet s raw :
  shaped s →
  (handleQuordleSubmit wordSet s raw).1 = s
  ∧ (handleQuordleSubmit wordSet s raw).2 ≠ Accepted
  ∨ ∃ answers,
      let s' := (handleQuordleSubmit wordSet s raw).1 in
      quordleAnswers s = Some answers ∧ quordleAnswers s' = Some answers
      ∧ length (quordleGuesses s) < 9
      ∧ quordleGuesses s' = quordleGuesses s ++ [raw]
      ∧ ∀ i a, answers !! i = Some a →
          quordleResults s' !! i
          = (λ rows, rows ++ [Scoring.scoreWordleGuess raw a]) <$> quordleResults s !! i
          ∧ ∀ w, quordleWins s !! i = Some w →
                 quordleWins s' !! i = Some (w || bool_decide (raw = a)).
Proof.
  intros ((answers & Ha & Hlen) & Hr & Hw). unfold handleQuordleSubmit.
  rewrite Ha.
  destruct (quordleDone s) eqn:Hd; [by left|].
  destruct (decide (length raw ≠ 5)); [by left|].
  destruct (negb (in_word_set wordSet raw)); [by left|].
  destruct (decide (9 ≤ length (quordleGuesses s))); [by left|].
  right. rewrite decide_True by done.
  destruct (QuordleFacts.board_fold_spec raw answers (quordleResults s) (quordleWins s))
    as (results' & wins' & Heq & Hr' & Hw' & Hwins); try done.
  rewrite Heq. exists answers. cbn zeta.
  cbn [fst quordleAnswers quordleGuesses quordleResults quordleWins].
  split_and!; try done; [lia|]. intros i a Hi. split.
  - rewrite (board_fold_results _ _ _ _ _ _ _ Heq i a Hi).
    rewrite decide_True; [done|]. apply lookup_lt_Some in Hi. lia.
  - intros w Hiw. by apply Hwins.
Qed.

(** What every state of a Quordle round keeps. *)
Lemma quordle_invariant words wordSet s :
  reachable words wordSet s →
  ∃ answers, quordleAnswers s = Some answers ∧ picks words answers
    ∧ length (quordleGuesses s) ≤ 9
    ∧ ∀ i a, answers !! i = Some a →
        quordleResults s !! i
        = Some ((λ g, Scoring.scoreWordleGuess g a) <$> quordleGuesses s)
        ∧ quordleWins s !! i = Some (bool_decide (a ∈ quordleGuesses s)).
Proof.
  induction 1 as [picked Hp|s raw Hreach (answers & Ha & Hp & Hlen & Hboards)].
  - exists picked. unfold startNewQuordleGame.
    cbn [quordleAnswers quordleGuesses quordleResults quordleWins].
    split_and!; try done; [simpl; lia|]. intros i a Hi.
    destruct Hp as (H4 & _). apply lookup_lt_Some in Hi. rewrite H4 in Hi.
    rewrite !lookup_replicate_2 by done. split; [done|].
    by rewrite bool_decide_false by (by intros ?%elem_of_nil).
  - pose proof (QuordleFacts.quordle_reachable_shaped _ _ _ Hreach) as Hs.
    destruct (quordle_submit_full wordSet s raw Hs)
      as [[-> _]|(answers' & Ha1 & Ha2 & Hleft & Hg & Hstep)]; [by exists answers|].
    cbn zeta in *. simplify_eq. exists answers.
    split_and!; try done.
    { rewrite Hg, length_app. simpl. lia. }
    intros i a Hi. destruct (Hboards i a Hi) as [Hres Hwin].
    destruct (Hstep i a Hi) as [Hres' Hwin']. split.
    + rewrite Hres', Hres, Hg, fmap_app. done.
    + rewrite (Hwin' _ Hwin), Hg. f_equal.
      apply eq_true_iff_eq. rewrite orb_true_iff, !bool_decide_eq_true.
      rewrite elem_of_app, list_elem_of_singleton. split; intros [?|?]; auto.
Qed.

(** Every logged guess has five letters. *)
Lemma quordle_guesses_five words wordSet s :
  reachable words wordSet s → Forall (λ g : Word, length g = 5) (quordleGuesses s).
Proof.
  induction 1 as [picked Hp|s raw Hreach IH]; [constructor|].
  unfold handleQuordleSubmit.
  destruct (quordleAnswers s) as [answers|]; [|done].
  destruct (quordleDone s); [done|].
  destruct (decide (length raw ≠ 5)) as [|Hraw]; [done|].
  destruct (negb (in_word_set wordSet raw)); [done|].
  destruct (decide (9 ≤ length (quordleGuesses s))); [done|].
  destruct (foldl _ _ _) as [[results' wins']|]; [|done].
  cbn [fst quordleGuesses]. apply Forall_app. split; [done|].
  constructor; [|done]. by apply dec_stable.
Qed.

Lemma quordle_not_accepted wordSet s raw :
  (handleQuordleSubmit wordSet s raw).2 ≠ Accepted →
  (handleQuordleSubmit wordSet s raw).1 = s.
Proof.
  unfold handleQuordleSubmit.
  destruct (quordleAnswers s) as [answers|]; [|done].
  destruct (quordleDone s); [done|].
  destruct (decide (length raw ≠ 5)); [done|].
  destruct (negb (in_word_set wordSet raw)); [done|].
  destruct (decide (9 ≤ length (quordleGuesses s))); [done|].
  destruct (foldl _ _ _) as [[results' wins']|]; done.
Qed.

End QuordleMore.

(** X16. In every state a Quordle round can reach, each board's history is
    the score of every logged guess against that board's answer, the board's
    win flag says whether its answer is among the guesses, and there are at
    most nine guesses. *)
Theorem quordle_boards_consistent (words : list Word) (wordSet : option (gset Word))
    (s : Quordle.State) :
  Quordle.reachable words wordSet s →
  ∃ answers, Quordle.quordleAnswers s = Some answers ∧ Quordle.picks words answers
    ∧ length (Quordle.quordleGuesses s) ≤ 9
    ∧ ∀ i a, answers !! i = Some a →
        Quordle.quordleResults s !! i
        = Some ((λ g, Scoring.scoreWordleGuess g a) <$> Quordle.quordleGuesses s)
        ∧ Quordle.quordleWins s !! i
          = Some (bool_decide (a ∈ Quordle.quordleGuesses s)).
Proof. apply QuordleMore.quordle_invariant. Qed.

Lemma quordle_boards_consistent_witness :
  ∃ answers, Quordle.quordleAnswers demo_quordle_lost = Some answers
    ∧ length (Quordle.quordleGuesses demo_quordle_lost) ≤ 9.
Proof.
  destruct (quordle_boards_consistent demo_words demo_set demo_quordle_lost
              demo_quordle_reachable) as (answers & Ha & _ & Hlen & _).
  exists answers. split; [exact Ha|exact Hlen].
Defined.

Module StreakleMore.
Import Streakle.

Lemma first_unsolved_spec (solved : list bool) i :
  first_unsolved solved = Some i
  ↔ solved !! i = Some false ∧ ∀ j, j < i → solved !! j = Some true.
Proof.
  unfold first_unsolved. split.
  - destruct (list_find _ solved) as [[k x]|] eqn:E; simpl; [|done].
    intros [= <-]. apply list_find_Some in E as (Hl & -> & Hbefore).
    split; [done|]. intros j Hj.
    destruct (lookup_lt_is_Some_2 solved j) as [y Hy].
    { apply lookup_lt_Some in Hl. lia. }
    rewrite Hy. f_equal. specialize (Hbefore j y Hy Hj). by destruct y.
  - intros [Hi Hbefore].
    assert (E : list_find (λ v, v = false) solved = Some (i, false)).
    { apply list_find_Some. split_and!; [done..|].
      intros j y Hy Hj. rewrite (Hbefore j Hj) in Hy. by intros ->. }
    by rewrite E.
Qed.

Lemma first_unsolved_exists (solved : list bool) :
  forallb id solved = false → ∃ i, first_unsolved solved = Some i.
Proof.
  intros Hf. unfold first_unsolved.
  destruct (list_find _ solved) as [[k x]|] eqn:E; simpl; [by eexists|].
  apply list_find_None in E. exfalso.
  assert (forallb id solved = true); [|congruence].
  apply forallb_forall. intros x Hx%list_elem_of_In.
  rewrite Forall_forall in E. specialize (E x Hx). by destruct x.
Qed.

(** The flags of a longer log are set wherever they were set. *)
Lemma solved_flags_grow (targets guesses : list Word) raw j :
  ((λ t, bool_decide (t ∈ guesses)) <$> targets) !! j = Some true →
  ((λ t, bool_decide (t ∈ guesses ++ [raw])) <$> targets) !! j = Some true.
Proof.
  rewrite !list_lookup_fmap. destruct (targets !! j) as [t|]; [|done]. simpl.
  intros [= Ht%bool_decide_eq_true]. f_equal. apply bool_decide_eq_true.
  apply elem_of_app. by left.
Qed.

(** What every state of a Streakle round keeps. *)
Lemma streakle_invariant words wordSet s :
  reachable words wordSet s →
  ∃ targets, streakleTargets s = Some targets ∧ length targets = 3
    ∧ streakleSolved s = (λ t, bool_decide (t ∈ streakleGuesses s)) <$> targets
    ∧ 1 ≤ length (streakleGuesses s) ∧ length (streakleGuesses s) ≤ 8
    ∧ (forallb id (streakleSolved s) = false →
       first_unsolved (streakleSolved s) = Some (streakleCurrentIndex s)).
Proof.
  induction 1 as [startWord targets Hp
                 |s raw Hreach (targets & Ht & Hlen & Hsol & Hge & Hle & Hact)].
  - exists targets. destruct Hp as (_ & Hlen & _).
    unfold startNewStreakleGame.
    cbn [streakleTargets streakleSolved streakleGuesses streakleCurrentIndex].
    split_and!; [done|done| |simpl; lia|simpl; lia|].
    + apply list_fmap_ext. intros _ t _. apply bool_decide_ext.
      by rewrite list_elem_of_singleton.
    + intros Hf. destruct (first_unsolved_exists _ Hf) as [i Hi]. by rewrite Hi.
  - unfold handleStreakleSubmit. rewrite Ht.
    destruct (streakleDone s); [by exists targets|].
    destruct (decide (length raw ≠ 5)); [by exists targets|].
    destruct (negb (in_word_set wordSet raw)); [by exists targets|].
    destruct (decide (8 ≤ length (streakleGuesses s))); [by exists targets|].
    destruct (breaks_lock (streakleLockedPattern s) raw); [by exists targets|].
    exists targets.
    cbn [fst streakleTargets streakleSolved streakleGuesses streakleCurrentIndex].
    set (solved' := (λ t, bool_decide (t ∈ streakleGuesses s ++ [raw])) <$> targets).
    split_and!; try done.
    { rewrite length_app. simpl. lia. }
    { rewrite length_app. simpl. lia. }
    intros Hf. rewrite Hf.
    destruct (default false (solved' !! streakleCurrentIndex s)) eqn:Hcur.
    { destruct (first_unsolved_exists _ Hf) as [i Hi]. by rewrite Hi. }
    assert (Hold : forallb id (streakleSolved s) = false).
    { destruct (forallb id (streakleSolved s)) eqn:Hall; [|done].
      assert (forallb id solved' = true); [|congruence].
      rewrite forallb_forall in Hall. apply forallb_forall.
      intros x [j Hj]%list_elem_of_In%list_elem_of_lookup.
      destruct x; [done|]. exfalso.
      destruct (lookup_lt_is_Some_2 (streakleSolved s) j) as [y Hy].
      { apply lookup_lt_Some in Hj. unfold solved' in Hj.
        rewrite Hsol. by rewrite length_fmap in *. }
      assert (y = true) as ->.
      { apply (Hall y). apply list_elem_of_In. by eapply list_elem_of_lookup_2. }
      rewrite Hsol in Hy. apply (solved_flags_grow _ _ raw) in Hy.
      unfold solved' in Hj. congruence. }
    apply first_unsolved_spec in Hact as [Hi Hbefore]; [|done].
    apply first_unsolved_spec. split.
    + destruct (lookup_lt_is_Some_2 solved' (streakleCurrentIndex s)) as [y Hy].
      { apply lookup_lt_Some in Hi. unfold solved'.
        rewrite Hsol in Hi. by rewrite length_fmap in *. }
      rewrite Hy in Hcur. simpl in Hcur. by subst y.
    + intros j Hj. specialize (Hbefore j Hj). rewrite Hsol in Hbefore.
      by apply solved_flags_grow.
Qed.

(** A submission that is not accepted keeps the log, the feedback, the
    flags and the active target. *)
Lemma streakle_not_accepted wordSet s raw :
  (handleStreakleSubmit wordSet s raw).2 ≠ Accepted →
  same_log s (handleStreakleSubmit wordSet s raw).1.
Proof.
  unfold handleStreakleSubmit.
  destruct (streakleTargets s) as [targets|] eqn:Ht;
    [|by intros _; apply StreakleFacts.same_log_refl].
  destruct (streakleDone s); [by intros _; apply StreakleFacts.same_log_refl|].
  destruct (decide (length raw ≠ 5)); [by intros _; apply StreakleFacts.same_log_refl|].
  destruct (negb (in_word_set wordSet raw));
    [by intros _; apply StreakleFacts.same_log_refl|].
  destruct (decide (8 ≤ length (streakleGuesses s)));
    [by intros _; unfold same_log; simpl; rewrite Ht|].
  destruct (breaks_lock (streakleLockedPattern s) raw);
    [by intros _; apply StreakleFacts.same_log_refl|done].
Qed.

(** Every slot of the lock is the wildcard or the target's letter. *)
Lemma lock_rows_shape (guesses : list Word) (target : Word) k :
  Forall (λ g : Word, length g = 5) guesses → length target = 5 →
  k ≤ length guesses →
  let p := lock_rows guesses ((λ g, Scoring.scoreWordleGuess g target) <$> guesses) k in
  length p = 5
  ∧ ∀ i, i < 5 → p !! i = Some wildcard ∨ p !! i = Some (target !! i).
Proof.
  intros Hall Ht. induction k as [|k IH]; intros Hk p.
  { split; [done|]. intros i Hi. left. subst p. unfold lock_rows. simpl.
    by apply (lookup_replicate_2 5). }
  destruct IH as [Hlen Hshape]; [lia|].
  destruct (lookup_lt_is_Some_2 guesses k) as [gk Hgk]; [lia|].
  assert (Hgk5 : length gk = 5).
  { eapply (Forall_lookup_1 _ _ _ _ Hall Hgk). }
  subst p. unfold lock_rows in *. rewrite seq_S, foldl_app. simpl.
  rewrite list_lookup_fmap, Hgk. simpl.
  destruct (StreakleFacts.lock_row_spec gk target _ Hgk5 Ht Hlen) as [Hlen' Hlook].
  split; [done|]. intros i Hi. rewrite Hlook by done.
  destruct (decide (gk !! i = target !! i)); [by right|by apply Hshape].
Qed.

(** The lock the handler checks, in terms of the logged guesses. *)
Lemma locked_pattern_rows s targets target :
  shaped s → streakleTargets s = Some targets →
  targets !! streakleCurrentIndex s = Some target →
  streakleLockedPattern s
  = lock_rows (streakleGuesses s)
      ((λ g, Scoring.scoreWordleGuess g target) <$> streakleGuesses s)
      (length (streakleGuesses s)).
Proof.
  intros (targets' & Ht' & Hlen & Hcur & Hres) Ht Htarget.
  assert (targets' = targets) as -> by congruence.
  unfold streakleLockedPattern. rewrite Ht.
  destruct targets as [|t0 ts]; [done|].
  rewrite Hres. unfold Scoring.computeStreakleResults.
  rewrite list_lookup_fmap, Htarget. simpl. by rewrite length_fmap.
Qed.

(** The active target never fails the lock check. *)
Lemma target_keeps_lock words wordSet s targets target :
  corpus words → reachable words wordSet s →
  streakleTargets s = Some targets →
  targets !! streakleCurrentIndex s = Some target →
  length target = 5 ∧ breaks_lock (streakleLockedPattern s) target = false.
Proof.
  intros Hc Hreach Ht Htarget.
  pose proof (StreakleFacts.streakle_reachable_shaped _ _ _ Hreach) as Hs.
  destruct (StreakleFacts.streakle_reachable_corpus _ _ _ Hc Hreach)
    as (Hall & targets' & Ht' & Hsub).
  assert (targets' = targets) as -> by congruence.
  assert (Hin : target ∈ words).
  { apply Hsub. by eapply list_elem_of_lookup_2. }
  unfold corpus in Hc. rewrite Forall_forall in Hc.
  destruct (Hc target Hin) as [Htlen _]. split; [done|].
  rewrite (locked_pattern_rows s targets target Hs Ht Htarget).
  destruct (lock_rows_shape (streakleGuesses s) target (length (streakleGuesses s)))
    as [Hlen5 Hshape]; try done.
  unfold breaks_lock. rewrite Hlen5.
  apply andb_false_iff. right.
  destruct (existsb _ _) eqn:E; [|done]. exfalso.
  apply existsb_exists in E as (i & Hi%in_seq & Hbad).
  destruct (Hshape i ltac:(lia)) as [Hw|Hw]; rewrite Hw in Hbad.
  - apply andb_true_iff in Hbad as [Hbad%bool_decide_eq_true _]. done.
  - apply andb_true_iff in Hbad as [_ Hbad%bool_decide_eq_true]. done.
Qed.

End StreakleMore.

(** X17. In every state a Streakle round can reach, the solved flags say
    for each target whether it is among the logged guesses, the log holds
    between one and eight guesses, and while some target is unsolved the
    active target is the first unsolved one. *)
Theorem streakle_flags_consistent (words : list Word) (wordSet : option (gset Word))
    (s : Streakle.State) :
  Streakle.reachable words wordSet s →
  ∃ targets, Streakle.streakleTargets s = Some targets ∧ length targets = 3
    ∧ Streakle.streakleSolved s
      = (λ t, bool_decide (t ∈ Streakle.streakleGuesses s)) <$> targets
    ∧ 1 ≤ length (Streakle.streakleGuesses s)
    ∧ length (Streakle.streakleGuesses s) ≤ 8
    ∧ (forallb id (Streakle.streakleSolved s) = false →
       Streakle.first_unsolved (Streakle.streakleSolved s)
       = Some (Streakle.streakleCurrentIndex s)).
Proof. apply StreakleMore.streakle_invariant. Qed.

Lemma streakle_flags_consistent_witness :
  ∃ targets, Streakle.streakleTargets demo_streakle_won = Some targets
    ∧ Streakle.streakleSolved demo_streakle_won
      = (λ t, bool_decide (t ∈ Streakle.streakleGuesses demo_streakle_won)) <$> targets.
Proof.
  destruct (streakle_flags_consistent demo_words demo_set demo_streakle_won
              demo_streakle_reachable) as (targets & Ht & _ & Hsol & _).
  exists targets. split; [exact Ht|exact Hsol].
Defined.

(** X18. On a corpus of five-letter words, while a Streakle round is in
    progress, guessing the active target is never turned away by the green
    lock: if the target is in the word set the guess is accepted, and the
    target's flag is set afterwards. *)
Theorem streakle_target_accepted (words : list Word) (wordSet : option (gset Word))
    (s : Streakle.State) (targets : list Word) (target : Word) :
  Streakle.corpus words →
  Streakle.reachable words wordSet s →
  Streakle.status s = InProgress →
  Streakle.streakleTargets s = Some targets →
  targets !! Streakle.streakleCurrentIndex s = Some target →
  in_word_set wordSet target = true →
  (Streakle.handleStreakleSubmit wordSet s target).2 = Accepted
  ∧ Streakle.streakleSolved (Streakle.handleStreakleSubmit wordSet s target).1
      !! Streakle.streakleCurrentIndex s = Some true.
Proof.
  intros Hc Hreach Hst Ht Htarget Hws.
  destruct (StreakleMore.target_keeps_lock _ _ _ _ _ Hc Hreach Ht Htarget)
    as [Hlen Hlock].
  assert (Hd : Streakle.streakleDone s = false).
  { destruct (Streakle.streakleDone s) eqn:Hd; [|done].
    by apply (StreakleFacts.streakle_done_iff_terminal _ _ _ Hreach) in Hd. }
  apply StreakleFacts.streakle_status_in_progress in Hst as [_ Hleft].
  unfold Streakle.handleStreakleSubmit. rewrite Ht, Hd.
  rewrite decide_False by lia. rewrite Hws. cbn [negb].
  rewrite decide_False by lia. rewrite Hlock.
  cbn [fst snd Streakle.streakleSolved]. split; [done|].
  rewrite list_lookup_fmap, Htarget. simpl. f_equal.
  apply bool_decide_eq_true, elem_of_app. right. by apply list_elem_of_singleton.
Qed.

Lemma demo_streakle_start_reachable :
  Streakle.reachable demo_words demo_set demo_streakle_start.
Proof. apply Streakle.reach_start, demo_streakle_picks. Defined.

Lemma streakle_target_accepted_witness :
  (Streakle.handleStreakleSubmit demo_set demo_streakle_start (word "LASER")).2
  = Accepted.
Proof.
  destruct (streakle_target_accepted demo_words demo_set demo_streakle_start
              [word "LASER"; word "LATER"; word "APPLE"] (word "LASER")
              demo_corpus demo_streakle_start_reachable) as [H _];
    [reflexivity|reflexivity|reflexivity|by_evaluation|exact H].
Defined.

(** X19. A guess that is not accepted costs nothing: in Wordle and
    Quordle the whole state is as before, and in Streakle the guess log, the
    feedback, the solved flags and the active target are as before (only
    the finished flag may be set, when no guesses are left). *)
Theorem unaccepted_guess_costs_nothing (wordSet : option (gset Word))
    (sw : Wordle.State) (sq : Quordle.State) (ss : Streakle.State) (raw : Word) :
  ((Wordle.handleWordleSubmit wordSet sw raw).2 ≠ Accepted →
     (Wordle.handleWordleSubmit wordSet sw raw).1 = sw)
  ∧ ((Quordle.handleQuordleSubmit wordSet sq raw).2 ≠ Accepted →
       (Quordle.handleQuordleSubmit wordSet sq raw).1 = sq)
  ∧ ((Streakle.handleStreakleSubmit wordSet ss raw).2 ≠ Accepted →
       Streakle.same_log ss (Streakle.handleStreakleSubmit wordSet ss raw).1).
Proof.
  split_and!.
  - apply WordleMore.wordle_not_accepted.
  - apply QuordleMore.quordle_not_accepted.
  - apply StreakleMore.streakle_not_accepted.
Qed.

Lemma unaccepted_guess_costs_nothing_witness :
  (Wordle.handleWordleSubmit demo_set (Wordle.startNewWordleGame (word "APPLE"))
     (word "XYZ")).1
  = Wordle.startNewWordleGame (word "APPLE").
Proof.
  destruct (unaccepted_guess_costs_nothing demo_set
              (Wordle.startNewWordleGame (word "APPLE")) demo_quordle_start
              demo_streakle_start (word "XYZ")) as (H & _).
  apply H. vm_compute. discriminate.
Defined.

(** ** Keyboard hints in the sessions *)

Module KeyboardFacts.
Import Hints HintMarks Keyboard.

(** The marks of a letter when every row is the score against one target. *)
Lemma mark_against_target (guesses : list Word) (target : Word) L sc :
  has_mark guesses ((λ g, Scoring.scoreWordleGuess g target) <$> guesses) L sc
  ↔ ∃ g i, g ∈ guesses ∧ g !! i = Some L
           ∧ Scoring.scoreWordleGuess g target !! i = Some sc.
Proof.
  unfold has_mark. split.
  - intros (row & g & r & i & Hg & Hr & HL & Hsc).
    rewrite list_lookup_fmap, Hg in Hr. simpl in Hr. injection Hr as <-.
    exists g, i. split_and!; [by eapply list_elem_of_lookup_2|done|done].
  - intros (g & i & [row Hg]%list_elem_of_lookup & HL & Hsc).
    exists row, g, (Scoring.scoreWordleGuess g target), i.
    rewrite list_lookup_fmap, Hg. done.
Qed.

(** A letter marked present is a letter of the answer. *)
Lemma present_in_answer (guess answer : Word) i L :
  guess !! i = Some L → Scoring.scoreWordleGuess guess answer !! i = Some Present →
  L ∈ answer.
Proof.
  intros Hg Hp.
  assert (Hi : i < length answer).
  { apply lookup_lt_Some in Hp. by rewrite ScoringFacts.score_length in Hp. }
  assert (Hpos : 0 < count_idx
            (Scoring.present_at guess (Scoring.scoreWordleGuess guess answer) L)
            (length answer)).
  { apply count_idx_pos. exists i. by repeat split. }
  pose proof (ScoringFacts.score_present_count guess answer L) as Hle.
  assert (Hm : 0 < count_idx (Scoring.mismatch guess answer L) (length answer)) by lia.
  apply count_idx_pos in Hm as (j & Hj & Haj & Hne).
  by eapply list_elem_of_lookup_2.
Qed.

(** A letter of the answer that the guess has is marked somewhere in the
    row. *)
Lemma shared_letter_marked (guess answer : Word) L :
  length guess = length answer → L ∈ guess → L ∈ answer →
  ∃ i, guess !! i = Some L
       ∧ (Scoring.scoreWordleGuess guess answer !! i = Some Correct
          ∨ Scoring.scoreWordleGuess guess answer !! i = Some Present).
Proof.
  intros Hlen [i Hi]%list_elem_of_lookup Hans.
  assert (Hlt : i < length answer).
  { apply lookup_lt_Some in Hi. lia. }
  destruct (ScoringMore.score_defined guess answer i Hlt) as [sc Hsc].
  destruct sc; [by exists i; auto|by exists i; auto|].
  pose proof (ScoringMore.absent_exhausts guess answer L i Hi Hsc) as Heq.
  assert (Hpos : 0 < Scoring.count_letter L answer).
  { unfold Scoring.count_letter.
    assert (Hin : L ∈ filter (L =.) answer) by (by apply list_elem_of_filter).
    destruct (filter (L =.) answer); [by apply elem_of_nil in Hin|simpl; lia]. }
  rewrite <- Heq in Hpos. unfold Scoring.count_marked in Hpos.
  apply count_idx_pos in Hpos as (j & _ & Hj & Hmark). by exists j.
Qed.

(** The hints computed from the scores against one target. *)
Lemma hints_against_target (guesses : list Word) (target : Word) L :
  Forall (λ g : Word, length g = length target) guesses →
  explains
    (wordleLetterStates guesses ((λ g, Scoring.scoreWordleGuess g target) <$> guesses)
       !! L)
    guesses target L.
Proof.
  intros Hall. rewrite Forall_forall in Hall.
  set (results := (λ g, Scoring.scoreWordleGuess g target) <$> guesses).
  destruct (hint_highest_mark guesses results L) as (Hc & Hp & Ha & Hn).
  set (hint := wordleLetterStates guesses results !! L) in *.
  assert (HA : has_mark guesses results L Correct ↔ placed guesses target L).
  { unfold results. rewrite mark_against_target. unfold placed. split.
    - intros (g & i & Hg & HL & Hsc). exists g, i. split_and!; try done.
      assert (Hi : i < length target).
      { apply lookup_lt_Some in Hsc. by rewrite ScoringFacts.score_length in Hsc. }
      apply ScoringFacts.score_correct_iff in Hsc; [|done]. congruence.
    - intros (g & i & Hg & HL & Ht). exists g, i. split_and!; try done.
      apply ScoringFacts.score_correct_iff; [by eapply lookup_lt_Some|congruence]. }
  assert (HB : (∃ sc, has_mark guesses results L sc) ↔ tried guesses L).
  { unfold results, tried. split.
    - intros (sc & (g & i & Hg & HL & _)%mark_against_target).
      exists g. split; [done|]. by eapply list_elem_of_lookup_2.
    - intros (g & Hg & [i Hi]%list_elem_of_lookup).
      destruct (ScoringMore.score_defined g target i) as [sc Hsc].
      { apply lookup_lt_Some in Hi. by rewrite <- (Hall g Hg). }
      exists sc. apply mark_against_target. by exists g, i. }
  assert (HC : has_mark guesses results L Present → L ∈ target).
  { unfold results. intros (g & i & Hg & HL & Hsc)%mark_against_target.
    by eapply present_in_answer. }
  assert (HD : tried guesses L → L ∈ target →
               has_mark guesses results L Correct ∨ has_mark guesses results L Present).
  { intros (g & Hg & HL) Ht.
    destruct (shared_letter_marked g target L (Hall g Hg) HL Ht) as (i & Hi & [Hm|Hm]);
      [left|right]; apply mark_against_target; by exists g, i. }
  assert (HE : placed guesses target L → L ∈ target).
  { intros (g & i & _ & _ & Ht). by eapply list_elem_of_lookup_2. }
  unfold explains. split_and!.
  - by rewrite Hc.
  - rewrite Hp. split.
    + intros [Hpre Hnc]. split_and!; [apply HB; by eexists|by apply HC|by rewrite <- HA].
    + intros (Ht & Hin & Hnp). rewrite <- HA in Hnp.
      split; [|done]. by destruct (HD Ht Hin).
  - rewrite Ha. split.
    + intros (Habs & Hnp & Hnc). split; [apply HB; by eexists|].
      intros Hin. destruct (HD (proj1 HB (ex_intro _ _ Habs)) Hin); done.
    + intros [Ht Hnin].
      assert (Hnc : ¬ has_mark guesses results L Correct).
      { rewrite HA. intros Hpl. by apply Hnin, HE. }
      assert (Hnp : ¬ has_mark guesses results L Present).
      { intros Hpre. by apply Hnin, HC. }
      split_and!; [|done|done].
      destruct (proj2 HB Ht) as [[] Hm]; done.
  - rewrite Hn. split.
    + intros Hno Ht. destruct (proj2 HB Ht) as [sc Hm]. by apply (Hno sc).
    + intros Hnt sc Hm. apply Hnt, HB. by exists sc.
Qed.

End KeyboardFacts.

(** X20. The Wordle keyboard, in every state a round on a corpus of
    five-letter words can reach: a letter is green exactly when some guess
    has it where the answer has it; yellow exactly when it was tried, the
    answer has it, and no guess placed it; grey exactly when it was tried
    and the answer does not have it; and without a hint exactly when no
    guess has it. *)
Theorem wordle_keyboard_explained (words : list Word) (wordSet : option (gset Word))
    (s : Wordle.State) (L : ascii) :
  Forall (λ w : Word, length w = 5) words →
  Wordle.reachable words wordSet s →
  ∃ answer, Wordle.wordleAnswer s = Some answer
    ∧ Keyboard.explains
        (Hints.wordleLetterStates (Wordle.wordleGuesses s) (Wordle.wordleResults s) !! L)
        (Wordle.wordleGuesses s) answer L.
Proof.
  intros Hlen Hreach.
  destruct (WordleMore.wordle_invariant _ _ _ Hreach)
    as (answer & Ha & Hin & Hres & _ & Hall).
  exists answer. split; [done|]. rewrite Hres.
  apply KeyboardFacts.hints_against_target.
  rewrite Forall_forall in Hlen. rewrite (Hlen answer Hin).
  eapply Forall_impl; [exact Hall|]. by intros g [? _].
Qed.

Lemma wordle_keyboard_explained_witness :
  ∃ answer, Wordle.wordleAnswer demo_wordle_won = Some answer
    ∧ Keyboard.explains
        (Hints.wordleLetterStates (Wordle.wordleGuesses demo_wordle_won)
           (Wordle.wordleResults demo_wordle_won) !! "P"%char)
        (Wordle.wordleGuesses demo_wordle_won) answer "P"%char.
Proof.
  apply (wordle_keyboard_explained demo_words demo_set demo_wordle_won "P"%char);
    [|exact demo_wordle_reachable].
  eapply Forall_impl; [exact demo_corpus|]. by intros w [? _].
Defined.

(** X21. The Streakle keyboard follows the active target: on a corpus of
    five-letter words, in every state a round can reach, the hints are
    those of the logged guesses against the target that is active now,
    green, yellow, grey and blank as for Wordle. *)
Theorem streakle_keyboard_explained (words : list Word)
    (wordSet : option (gset Word)) (s : Streakle.State) (targets : list Word)
    (target : Word) (L : ascii) :
  Streakle.corpus words →
  Streakle.reachable words wordSet s →
  Streakle.streakleTargets s = Some targets →
  targets !! Streakle.streakleCurrentIndex s = Some target →
  Keyboard.explains (Keyboard.streakleLetterStates s !! L)
    (Streakle.streakleGuesses s) target L.
Proof.
  intros Hc Hreach Ht Htarget.
  destruct (StreakleFacts.streakle_reachable_shaped _ _ _ Hreach)
    as (targets' & Ht' & Hlen & Hcur & Hres).
  assert (targets' = targets) as -> by congruence.
  destruct (StreakleFacts.streakle_reachable_corpus _ _ _ Hc Hreach)
    as (Hall & targets' & Ht'' & Hsub).
  assert (targets' = targets) as -> by congruence.
  assert (Hin : target ∈ words).
  { apply Hsub. by eapply list_elem_of_lookup_2. }
  unfold Streakle.corpus in Hc. rewrite Forall_forall in Hc.
  destruct (Hc target Hin) as [Htlen _].
  assert (Heq : Keyboard.streakleLetterStates s
    = Hints.wordleLetterStates (Streakle.streakleGuesses s)
        ((λ g, Scoring.scoreWordleGuess g target) <$> Streakle.streakleGuesses s)).
  { unfold Keyboard.streakleLetterStates, Hints.wordleLetterStates. rewrite Ht.
    destruct targets as [|t0 ts]; [done|].
    rewrite Hres. unfold Scoring.computeStreakleResults.
    by rewrite list_lookup_fmap, Htarget. }
  rewrite Heq. apply KeyboardFacts.hints_against_target. by rewrite Htlen.
Qed.

Lemma streakle_keyboard_explained_witness :
  Keyboard.explains (Keyboard.streakleLetterStates demo_streakle_start !! "A"%char)
    (Streakle.streakleGuesses demo_streakle_start) (word "LASER") "A"%char.
Proof.
  apply (streakle_keyboard_explained demo_words demo_set demo_streakle_start
           [word "LASER"; word "LATER"; word "APPLE"] (word "LASER") "A"%char
           demo_corpus demo_streakle_start_reachable); reflexivity.
Defined.

(** ** Picking the answers of a round *)

Module PickingFacts.
Import Picking.

(** Equality of two sets by their members. *)
Ltac set_ext := apply set_eq; intros ?; set_unfold; intuition (subst; auto; congruence).

Lemma draw_in_words rng (w0 : Word) (rest : list Word) pos :
  draw rng (w0 :: rest) w0 pos ∈ w0 :: rest.
Proof.
  unfold draw. destruct (_ !! _) eqn:E; simpl; [|by left].
  by eapply list_elem_of_lookup_2.
Qed.

Lemma draws_S rng (words : list Word) w0 pos n :
  draws rng words w0 pos (S n) = draw rng words w0 pos :: draws rng words w0 (pos + 1) n.
Proof. unfold draws. simpl. by rewrite Nat.add_1_r. Qed.

Lemma size_list_to_set_NoDup (l : list Word) :
  NoDup l → size (list_to_set l : gset Word) = length l.
Proof. apply size_list_to_set. Qed.

(** The loop ends within [fuel] draws exactly when the words picked so far
    and the admissible words among those draws number at least [need]. *)
Lemma pick_loop_spec fuel need banned rng (words : list Word) w0 picked pos :
  NoDup picked → length picked ≤ need →
  (∀ p, p ∈ picked → Some p ≠ banned) →
  let reach : gset Word :=
    list_to_set picked ∪ hits banned rng words w0 pos fuel in
  if decide (need ≤ size reach)
  then ∃ picked' pos',
         pick_loop fuel need banned rng words w0 picked pos = Some (picked', pos')
         ∧ NoDup picked' ∧ length picked' = need
         ∧ (∀ p, p ∈ picked' → p ∈ reach)
  else pick_loop fuel need banned rng words w0 picked pos = None.
Proof.
  revert picked pos. induction fuel as [|fuel IH]; intros picked pos Hnd Hlen Hban reach.
  - assert (Hreach : reach = list_to_set picked).
    { unfold reach, hits, draws. simpl. set_ext. }
    rewrite Hreach, size_list_to_set_NoDup by done. simpl.
    destruct (decide (need ≤ length picked)); [|done].
    exists picked, pos. split_and!; [done|done|lia|].
    intros p Hp. by apply elem_of_list_to_set.
  - cbn [pick_loop].
    destruct (decide (need ≤ length picked)) as [Hfull|Hmore].
    { rewrite decide_True.
      - exists picked, pos. split_and!; [done|done|lia|].
        intros p Hp. apply elem_of_union. left. by apply elem_of_list_to_set.
      - etrans; [exact Hfull|]. rewrite <- (size_list_to_set_NoDup picked) by done.
        apply subseteq_size. unfold reach. apply union_subseteq_l. }
    set (c := draw rng words w0 pos).
    assert (Hhits : hits banned rng words w0 pos (S fuel)
                    = (if bool_decide (Some c ≠ banned) then {[c]} else ∅)
                      ∪ hits banned rng words w0 (pos + 1) fuel).
    { unfold hits. rewrite draws_S. fold c. cbn [list_to_set].
      destruct banned as [b|]; simpl.
      - case_bool_decide as Hb.
        + assert (c ≠ b) by congruence. set_ext.
        + injection Hb as ->. set_ext.
      - set_ext. }
    destruct (bool_decide (Some c ≠ banned)) eqn:Hc; cbn [andb].
    + destruct (bool_decide (c ∈ picked)) eqn:Hin; cbn [negb].
      * apply bool_decide_eq_true in Hin.
        assert (Heq : reach = list_to_set picked ∪ hits banned rng words w0 (pos + 1) fuel).
        { unfold reach. rewrite Hhits. clear -Hin. set_ext. }
        rewrite Heq. by apply IH.
      * apply bool_decide_eq_false in Hin. apply bool_decide_eq_true in Hc.
        assert (Heq : reach = list_to_set (picked ++ [c])
                              ∪ hits banned rng words w0 (pos + 1) fuel).
        { unfold reach. rewrite Hhits. clear. set_ext. }
        rewrite Heq. apply IH.
        -- apply NoDup_app. split_and!; [done| |apply NoDup_singleton].
           intros x Hx ->%list_elem_of_singleton. done.
        -- rewrite length_app. simpl. lia.
        -- intros p [Hp| ->%list_elem_of_singleton]%elem_of_app; [by apply Hban|done].
    + assert (Heq : reach = list_to_set picked ∪ hits banned rng words w0 (pos + 1) fuel).
      { unfold reach. rewrite Hhits. clear. set_ext. }
      rewrite Heq. by apply IH.
Qed.

Lemma hits_in_words banned rng (w0 : Word) (rest : list Word) pos n p :
  p ∈ hits banned rng (w0 :: rest) w0 pos n →
  p ∈ w0 :: rest ∧ Some p ≠ banned.
Proof.
  unfold hits, draws. rewrite elem_of_difference, !elem_of_list_to_set.
  intros [(k & -> & _)%list_elem_of_fmap Hnb]. split; [apply draw_in_words|].
  intros Heq. apply Hnb. rewrite <- Heq. simpl. by left.
Qed.

Lemma hits_subseteq banned rng (w0 : Word) (rest : list Word) pos n :
  hits banned rng (w0 :: rest) w0 pos n
  ⊆ list_to_set (w0 :: rest) ∖ list_to_set (option_list banned).
Proof.
  intros p Hp. pose proof (hits_in_words _ _ _ _ _ _ _ Hp) as [Hin Hnb].
  apply elem_of_difference. split; [by apply elem_of_list_to_set|].
  destruct banned as [b|]; simpl; [|by intros ?%elem_of_empty].
  intros Hb. apply Hnb. f_equal. set_unfold. by destruct Hb.
Qed.

End PickingFacts.

(** X22. The picking loop of [startNewQuordleGame] on a non-empty word
    list ends within [n] draws exactly when those draws hit at least four
    different words, and it then starts a round on four distinct words of
    the list; on a list with fewer than four different words it never
    ends. *)
Theorem quordle_start_picks (rng : Rng) (w0 : Word) (rest : list Word) (n : nat) :
  let words := w0 :: rest in
  let seen : gset Word := Picking.hits None rng words w0 0 n in
  (4 ≤ size seen →
     ∃ picked, Picking.quordle_start n rng words
               = Some (Quordle.startNewQuordleGame picked)
               ∧ Quordle.picks words picked)
  ∧ (size seen < 4 → Picking.quordle_start n rng words = None)
  ∧ (size (list_to_set words : gset Word) < 4 →
     Picking.quordle_start n rng words = None).
Proof.
  intros words seen.
  pose proof (PickingFacts.pick_loop_spec n 4 None rng words w0 [] 0
                (NoDup_nil_2) ltac:(simpl; lia) ltac:(by intros p ?%elem_of_nil))
    as Hspec.
  cbn zeta in Hspec.
  assert (Hreach : (list_to_set [] ∪ Picking.hits None rng words w0 0 n : gset Word)
                   = seen) by apply (left_id_L ∅ (∪)).
  rewrite Hreach in Hspec.
  assert (Hsmall : size seen < 4 → Picking.quordle_start n rng words = None).
  { intros Hlt. rewrite decide_False in Hspec by lia.
    unfold Picking.quordle_start, words. fold words. by rewrite Hspec. }
  split_and!; [|done|].
  - intros Hge. rewrite decide_True in Hspec by done.
    destruct Hspec as (picked & pos & Heq & Hnd & Hlen & Hsub).
    exists picked. unfold Picking.quordle_start, words. fold words. rewrite Heq.
    split; [done|]. split_and!; [done|done|].
    intros p Hp. by apply (PickingFacts.hits_in_words None rng w0 rest 0 n), Hsub.
  - intros Hfew. apply Hsmall. eapply Nat.le_lt_trans; [|exact Hfew].
    apply subseteq_size.
    etrans; [apply PickingFacts.hits_subseteq|]. simpl. apply subseteq_difference_l.
    done.
Qed.

Lemma quordle_start_picks_witness :
  Picking.quordle_start 9 demo_rng [word "AB"; word "CD"; word "AB"] = None.
Proof.
  destruct (quordle_start_picks demo_rng (word "AB") [word "CD"; word "AB"] 9)
    as (_ & _ & H).
  apply H. vm_compute. lia.
Defined.

(** X23. [startNewStreakleGame] on a non-empty word list takes its first
    draw as start word; its picking loop ends within [n] further draws
    exactly when those hit at least three different words other than the
    start word, and the round then starts on three distinct targets of the
    list, none of them the start word; on a list with fewer than three
    different words besides the start word it never ends. *)
Theorem streakle_start_picks (rng : Rng) (w0 : Word) (rest : list Word) (n : nat) :
  let words := w0 :: rest in
  let startWord := Picking.draw rng words w0 0 in
  let seen : gset Word := Picking.hits (Some startWord) rng words w0 1 n in
  (3 ≤ size seen →
     ∃ targets, Picking.streakle_start n rng words
                = Some (Streakle.startNewStreakleGame startWord targets)
                ∧ Streakle.picks words startWord targets)
  ∧ (size seen < 3 → Picking.streakle_start n rng words = None)
  ∧ (size (list_to_set words ∖ {[startWord]} : gset Word) < 3 →
     Picking.streakle_start n rng words = None).
Proof.
  intros words startWord seen.
  pose proof (PickingFacts.pick_loop_spec n 3 (Some startWord) rng words w0 [] 1
                (NoDup_nil_2) ltac:(simpl; lia) ltac:(by intros p ?%elem_of_nil))
    as Hspec.
  cbn zeta in Hspec.
  assert (Hreach : (list_to_set [] ∪ Picking.hits (Some startWord) rng words w0 1 n
                    : gset Word) = seen) by apply (left_id_L ∅ (∪)).
  rewrite Hreach in Hspec.
  assert (Hsmall : size seen < 3 → Picking.streakle_start n rng words = None).
  { intros Hlt. rewrite decide_False in Hspec by lia.
    unfold Picking.streakle_start, words. fold words. fold startWord. by rewrite Hspec. }
  split_and!; [|done|].
  - intros Hge. rewrite decide_True in Hspec by done.
    destruct Hspec as (targets & pos & Heq & Hnd & Hlen & Hsub).
    exists targets. unfold Picking.streakle_start, words. fold words. fold startWord.
    rewrite Heq. split; [done|].
    assert (Hin : ∀ p, p ∈ targets → p ∈ words ∧ p ≠ startWord).
    { intros p Hp.
      destruct (PickingFacts.hits_in_words (Some startWord) rng w0 rest 1 n p
                  (Hsub p Hp)) as [? Hne].
      split; [done|congruence]. }
    split_and!; [apply PickingFacts.draw_in_words|done|done| |].
    + intros Hst. by destruct (Hin _ Hst).
    + intros p Hp. by destruct (Hin p Hp).
  - intros Hfew. apply Hsmall. eapply Nat.le_lt_trans; [|exact Hfew].
    apply subseteq_size.
    etrans; [apply PickingFacts.hits_subseteq|]. simpl.
    intros p. set_unfold. tauto.
Qed.

Lemma streakle_start_picks_witness :
  Picking.streakle_start 9 demo_rng [word "AB"; word "CD"; word "EF"] = None.
Proof.
  destruct (streakle_start_picks demo_rng (word "AB") [word "CD"; word "EF"] 9)
    as (_ & _ & H).
  apply H. vm_compute. lia.
Defined.

(** ** PatternSession *)

Module PatternSessionFacts.
Import PatternSession.

Lemma nat_of_ascii_inj x y : nat_of_ascii x = nat_of_ascii y → x = y.
Proof.
  intros H. rewrite <- (ascii_nat_embedding x), <- (ascii_nat_embedding y).
  by rewrite H.
Qed.

#[global] Instance word_le_total : Total word_le.
Proof.
  intros a. unfold word_le. induction a as [|x a IH]; intros b; [by left|].
  destruct b as [|y b]; [by right|]. simpl.
  destruct (decide (nat_of_ascii x < nat_of_ascii y)) as [Hxy|Hxy]; [by left|].
  destruct (decide (nat_of_ascii y < nat_of_ascii x)) as [Hyx|Hyx]; [by right|].
  assert (x = y) as -> by (apply nat_of_ascii_inj; lia).
  rewrite !decide_True by done. apply IH.
Qed.

#[global] Instance word_le_trans : Transitive word_le.
Proof.
  intros a. unfold word_le. induction a as [|x a IH]; intros b c; [done|].
  destruct b as [|y b]; [done|]. destruct c as [|z c]; [done|]. simpl.
  destruct (decide (nat_of_ascii x < nat_of_ascii y)) as [Hxy|Hxy].
  - destruct (decide (nat_of_ascii y < nat_of_ascii z)) as [Hyz|Hyz].
    + intros _ _. rewrite decide_True by lia. done.
    + destruct (decide (y = z)) as [->|]; [|done].
      intros _ _. by rewrite decide_True by lia.
  - destruct (decide (x = y)) as [->|]; [|done].
    destruct (decide (nat_of_ascii y < nat_of_ascii z)); [done|].
    destruct (decide (y = z)) as [->|]; [|done]. apply IH.
Qed.

#[global] Instance word_le_antisymm : AntiSymm (=) word_le.
Proof.
  intros a. unfold word_le. induction a as [|x a IH]; intros b.
  { by destruct b. }
  destruct b as [|y b]; [done|]. simpl.
  destruct (decide (nat_of_ascii x < nat_of_ascii y)) as [Hxy|Hxy].
  - rewrite decide_False by lia. rewrite decide_False; [done|]. intros ->. lia.
  - destruct (decide (x = y)) as [->|]; [|done].
    rewrite decide_False by lia. rewrite decide_True by done.
    intros H1 H2. f_equal. by apply IH.
Qed.

Lemma js_sort_Permutation l : js_sort l ≡ₚ l.
Proof. apply merge_sort_Permutation. Qed.

Lemma js_sort_sorted l : StronglySorted word_le (js_sort l).
Proof. apply StronglySorted_merge_sort; apply _. Qed.

(** The sorted rearrangement is unique. *)
Lemma js_sort_unique l l' :
  Sorted word_le l' → l' ≡ₚ l → l' = js_sort l.
Proof.
  intros Hs Hp. apply (Sorted_unique word_le); [done| |].
  - apply Sorted_merge_sort. apply _.
  - by rewrite js_sort_Permutation.
Qed.

(** The ways a submission can end. *)
Lemma pattern_submit_cases wordSet s raw :
  (handlePatternSubmit wordSet s raw).1 = s
  ∧ ¬ found (handlePatternSubmit wordSet s raw).2
  ∨ ∃ p, pattern s = Some p
      ∧ Pattern.matchesPattern raw p = true
      ∧ in_word_set wordSet raw = true
      ∧ (raw ∉ foundWords s)
      ∧ handlePatternSubmit wordSet s raw
        = (mkState (pattern s) (solutions s) (js_sort (foundWords s ++ [raw])),
           Found (Z.of_nat (length (solutions s))
                  - Z.of_nat (length (js_sort (foundWords s ++ [raw]))))).
Proof.
  unfold handlePatternSubmit.
  destruct (pattern s) as [p|] eqn:Hp; [|left; split; [done|simpl; auto]].
  destruct (decide (length raw ≠ length p)); [left; split; [done|simpl; auto]|].
  destruct (Pattern.matchesPattern raw p) eqn:Hm; cbn [negb]; [|left; split; [done|simpl; auto]].
  destruct (in_word_set wordSet raw) eqn:Hw; cbn [negb]; [|left; split; [done|simpl; auto]].
  destruct (bool_decide (raw ∈ foundWords s)) eqn:Hf; [left; split; [done|simpl; auto]|].
  apply bool_decide_eq_false in Hf. right. by exists p.
Qed.

Lemma pattern_submit_accepts wordSet s raw p :
  pattern s = Some p → Pattern.matchesPattern raw p = true →
  in_word_set wordSet raw = true → raw ∉ foundWords s →
  found (handlePatternSubmit wordSet s raw).2.
Proof.
  intros Hp Hm Hw Hf. unfold handlePatternSubmit. rewrite Hp.
  rewrite decide_False.
  2: { apply PatternMore.matchesPattern_spec in Hm as [Hlen _]. by intros ?. }
  rewrite Hm, Hw. cbn [negb]. by rewrite bool_decide_false.
Qed.

(** The state a fresh round starts in. *)
Lemma pattern_start rng (w0 : Word) (rest : list Word) s :
  startNewPatternGame rng (w0 :: rest) s
  = mkState (Some (Pattern.generateTwoLetterPattern rng (w0 :: rest)).1)
            (Pattern.generateTwoLetterPattern rng (w0 :: rest)).2 [].
Proof.
  unfold startNewPatternGame.
  by destruct (Pattern.generateTwoLetterPattern rng (w0 :: rest)).
Qed.

(** What every state of a round keeps. *)
Lemma pattern_run_invariant wordSet s raws p :
  pattern s = Some p →
  (∀ w, w ∈ solutions s ↔ in_word_set wordSet w = true ∧ Pattern.matchesPattern w p = true) →
  NoDup (foundWords s) → StronglySorted word_le (foundWords s) →
  (∀ w, w ∈ foundWords s → w ∈ solutions s) →
  pattern (run wordSet s raws) = Some p
  ∧ solutions (run wordSet s raws) = solutions s
  ∧ NoDup (foundWords (run wordSet s raws))
  ∧ StronglySorted word_le (foundWords (run wordSet s raws))
  ∧ (∀ w, w ∈ foundWords (run wordSet s raws) → w ∈ solutions s).
Proof.
  revert s. induction raws as [|raw raws IH]; intros s Hp Hsol Hnd Hsort Hsub; simpl;
    [by split_and!|].
  destruct (pattern_submit_cases wordSet s raw)
    as [[Heq _]|(p' & Hp' & Hm & Hw & Hnew & Heq)].
  { rewrite Heq. by apply IH. }
  assert (p' = p) as -> by congruence.
  rewrite Heq. cbn [fst].
  destruct (IH (mkState (pattern s) (solutions s) (js_sort (foundWords s ++ [raw]))))
    as (H1 & H2 & H3 & H4 & H5); cbn [pattern solutions foundWords]; try done.
  - rewrite js_sort_Permutation. apply NoDup_app. split_and!; [done| |apply NoDup_singleton].
    intros x Hx ->%list_elem_of_singleton. done.
  - apply js_sort_sorted.
  - intros w. rewrite js_sort_Permutation.
    intros [?| ->%list_elem_of_singleton]%elem_of_app; [by apply Hsub|].
    by apply Hsol.
Qed.

(** The solutions of a round on the loaded word list. *)
Lemma pattern_solutions rng (words : list Word) w :
  w ∈ (Pattern.generateTwoLetterPattern rng words).2
  ↔ in_word_set (loaded_word_set words) w = true
    ∧ Pattern.matchesPattern w (Pattern.generateTwoLetterPattern rng words).1 = true.
Proof.
  rewrite PatternMore.generate_matches at 1. rewrite list_elem_of_filter.
  unfold loaded_word_set, in_word_set.
  rewrite bool_decide_eq_true, elem_of_list_to_set. tauto.
Qed.

(** A round on the loaded word list, after any submissions. *)
Lemma pattern_round rng (w0 : Word) (rest : list Word) s0 raws :
  pattern (round rng (w0 :: rest) s0 raws)
  = Some (Pattern.generateTwoLetterPattern rng (w0 :: rest)).1
  ∧ solutions (round rng (w0 :: rest) s0 raws)
    = (Pattern.generateTwoLetterPattern rng (w0 :: rest)).2
  ∧ NoDup (foundWords (round rng (w0 :: rest) s0 raws))
  ∧ StronglySorted word_le (foundWords (round rng (w0 :: rest) s0 raws))
  ∧ (∀ w, w ∈ foundWords (round rng (w0 :: rest) s0 raws)
          → w ∈ solutions (round rng (w0 :: rest) s0 raws)).
Proof.
  unfold round. rewrite pattern_start.
  pose proof (pattern_solutions rng (w0 :: rest)) as Hsol.
  generalize dependent (Pattern.generateTwoLetterPattern rng (w0 :: rest)).
  intros r Hsol.
  destruct (pattern_run_invariant (loaded_word_set (w0 :: rest))
              (mkState (Some r.1) r.2 []) raws r.1)
    as (H1 & H2 & H3 & H4 & H5).
  { reflexivity. }
  { exact Hsol. }
  { constructor. }
  { constructor. }
  { by intros w ?%elem_of_nil. }
  split_and!; [exact H1|exact H2|exact H3|exact H4|].
  intros w Hw. rewrite H2. by apply H5.
Qed.

(** In a round, exactly the solutions not found yet are accepted. *)
Lemma pattern_round_accepts rng (w0 : Word) (rest : list Word) s0 raws raw :
  found (handlePatternSubmit (loaded_word_set (w0 :: rest))
           (round rng (w0 :: rest) s0 raws) raw).2
  ↔ raw ∈ solutions (round rng (w0 :: rest) s0 raws)
    ∧ raw ∉ foundWords (round rng (w0 :: rest) s0 raws).
Proof.
  destruct (pattern_round rng w0 rest s0 raws) as (Hp & Hsol & _).
  pose proof (pattern_solutions rng (w0 :: rest) raw) as Hs.
  generalize dependent (round rng (w0 :: rest) s0 raws).
  generalize dependent (Pattern.generateTwoLetterPattern rng (w0 :: rest)).
  intros r Hs s Hp Hsol. rewrite Hsol. split.
  - intros Hacc.
    destruct (pattern_submit_cases (loaded_word_set (w0 :: rest)) s raw)
      as [[_ Hno]|(p & Hp' & Hm & Hw & Hnew & _)]; [done|].
    assert (p = r.1) as -> by congruence.
    split; [|exact Hnew]. apply Hs. by split.
  - intros [Hin Hnew]. apply Hs in Hin as [Hw Hm].
    by apply (pattern_submit_accepts _ s raw r.1).
Qed.

Lemma round_snoc rng (words : list Word) s0 raws raw :
  round rng words s0 (raws ++ [raw])
  = (handlePatternSubmit (loaded_word_set words) (round rng words s0 raws) raw).1.
Proof. unfold round, run. by rewrite foldl_app. Qed.

(** An accepted word joins the found list, which stays sorted, and the
    count is what is left of the solutions. *)
Lemma pattern_round_count rng (w0 : Word) (rest : list Word) s0 raws raw remaining :
  (handlePatternSubmit (loaded_word_set (w0 :: rest))
     (round rng (w0 :: rest) s0 raws) raw).2 = Found remaining →
  round rng (w0 :: rest) s0 (raws ++ [raw])
  = mkState (pattern (round rng (w0 :: rest) s0 raws))
            (solutions (round rng (w0 :: rest) s0 raws))
            (js_sort (foundWords (round rng (w0 :: rest) s0 raws) ++ [raw]))
  ∧ remaining
    = (Z.of_nat (length (solutions (round rng (w0 :: rest) s0 raws)))
       - Z.of_nat (length (foundWords (round rng (w0 :: rest) s0 (raws ++ [raw])))))%Z.
Proof.
  rewrite round_snoc.
  generalize (round rng (w0 :: rest) s0 raws). intros s Hacc.
  destruct (pattern_submit_cases (loaded_word_set (w0 :: rest)) s raw)
    as [[_ Hno]|(p & Hp & Hm & Hw & Hnew & Heq)].
  { rewrite Hacc in Hno. by destruct Hno. }
  rewrite Heq in Hacc |- *. cbn [fst snd foundWords] in *. split; [done|].
  by injection Hacc as <-.
Qed.

End PatternSessionFacts.

(** X24. A Pattern round on the loaded word list: after
    [startNewPatternGame] and any submissions, the pattern and the solutions
    are those the generator returned, the found words are sorted, pairwise
    distinct and all of them solutions, and a submission is accepted exactly
    when it is a solution that has not been found yet. *)
Theorem pattern_round_accepts_solutions (rng : Rng) (w0 : Word) (rest : list Word)
    (s0 : PatternSession.State) (raws : list Word) (raw : Word) :
  PatternSession.pattern (PatternSession.round rng (w0 :: rest) s0 raws)
  = Some (Pattern.generateTwoLetterPattern rng (w0 :: rest)).1
  ∧ PatternSession.solutions (PatternSession.round rng (w0 :: rest) s0 raws)
    = (Pattern.generateTwoLetterPattern rng (w0 :: rest)).2
  ∧ NoDup (PatternSession.foundWords (PatternSession.round rng (w0 :: rest) s0 raws))
  ∧ StronglySorted PatternSession.word_le
      (PatternSession.foundWords (PatternSession.round rng (w0 :: rest) s0 raws))
  ∧ (∀ w, w ∈ PatternSession.foundWords (PatternSession.round rng (w0 :: rest) s0 raws)
          → w ∈ PatternSession.solutions (PatternSession.round rng (w0 :: rest) s0 raws))
  ∧ (PatternSession.found
       (PatternSession.handlePatternSubmit
          (PatternSession.loaded_word_set (w0 :: rest))
          (PatternSession.round rng (w0 :: rest) s0 raws) raw).2
     ↔ raw ∈ PatternSession.solutions (PatternSession.round rng (w0 :: rest) s0 raws)
       ∧ raw ∉ PatternSession.foundWords (PatternSession.round rng (w0 :: rest) s0 raws)).
Proof.
  destruct (PatternSessionFacts.pattern_round rng w0 rest s0 raws)
    as (Hp & Hsol & Hnd & Hsort & Hsub).
  split_and!; [exact Hp|exact Hsol|exact Hnd|exact Hsort|exact Hsub|].
  apply PatternSessionFacts.pattern_round_accepts.
Qed.

(** X25. When a word is accepted in a Pattern round, the new found list
    is the sorted rearrangement of the old one with the word added, and the
    count behind the message is the number of solutions minus the number of
    found words; on a word list without repetitions that count is never
    negative and is zero exactly when every solution has been found. *)
Theorem pattern_round_remaining (rng : Rng) (w0 : Word) (rest : list Word)
    (s0 : PatternSession.State) (raws : list Word) (raw : Word) (remaining : Z) :
  (PatternSession.handlePatternSubmit (PatternSession.loaded_word_set (w0 :: rest))
     (PatternSession.round rng (w0 :: rest) s0 raws) raw).2
  = PatternSession.Found remaining →
  PatternSession.foundWords (PatternSession.round rng (w0 :: rest) s0 (raws ++ [raw]))
  ≡ₚ raw :: PatternSession.foundWords (PatternSession.round rng (w0 :: rest) s0 raws)
  ∧ (∀ l, Sorted PatternSession.word_le l →
          l ≡ₚ raw :: PatternSession.foundWords
                        (PatternSession.round rng (w0 :: rest) s0 raws) →
          l = PatternSession.foundWords
                (PatternSession.round rng (w0 :: rest) s0 (raws ++ [raw])))
  ∧ remaining
    = (Z.of_nat (length (PatternSession.solutions
                           (PatternSession.round rng (w0 :: rest) s0 raws)))
       - Z.of_nat (length (PatternSession.foundWords
                             (PatternSession.round rng (w0 :: rest) s0 (raws ++ [raw])))))%Z
  ∧ (NoDup (w0 :: rest) →
     (0 ≤ remaining)%Z
     ∧ (remaining = 0%Z
        ↔ ∀ w, w ∈ PatternSession.solutions
                     (PatternSession.round rng (w0 :: rest) s0 raws)
               → w ∈ PatternSession.foundWords
                       (PatternSession.round rng (w0 :: rest) s0 (raws ++ [raw])))).
Proof.
  intros Hacc.
  destruct (PatternSessionFacts.pattern_round_count _ _ _ _ _ _ _ Hacc) as [Hnext Hrem].
  destruct (PatternSessionFacts.pattern_round rng w0 rest s0 (raws ++ [raw]))
    as (_ & Hsol' & Hnd' & _ & Hsub').
  destruct (PatternSessionFacts.pattern_round rng w0 rest s0 raws) as (_ & Hsol & _).
  pose proof (PatternMore.generate_matches rng (w0 :: rest)) as Hgen.
  rewrite <- Hsol in Hsol'.
  generalize dependent (Pattern.generateTwoLetterPattern rng (w0 :: rest)).
  generalize dependent (PatternSession.round rng (w0 :: rest) s0 (raws ++ [raw])).
  generalize dependent (PatternSession.round rng (w0 :: rest) s0 raws).
  intros s Hacc s' Hnext Hrem Hsol' Hnd' Hsub' r Hsol Hgen.
  assert (Hfound : PatternSession.foundWords s'
                   = PatternSession.js_sort (PatternSession.foundWords s ++ [raw])).
  { by rewrite Hnext. }
  assert (Hperm : PatternSession.foundWords s' ≡ₚ raw :: PatternSession.foundWords s).
  { rewrite Hfound, PatternSessionFacts.js_sort_Permutation.
    by rewrite Permutation_app_comm. }
  split_and!; [done| |done|].
  - intros l Hl Hpl. rewrite Hfound. apply PatternSessionFacts.js_sort_unique; [done|].
    by rewrite Hpl, Permutation_app_comm.
  - intros Hwords.
    assert (Hndsol : NoDup (PatternSession.solutions s)).
    { rewrite Hsol, Hgen. by apply NoDup_filter. }
    assert (Hincl : PatternSession.foundWords s' ⊆+ PatternSession.solutions s).
    { apply NoDup_submseteq; [done|]. intros w Hw'. rewrite <- Hsol'. by apply Hsub'. }
    pose proof (submseteq_length _ _ Hincl) as Hle.
    split; [lia|]. split.
    + intros Hz w Hw'.
      assert (Hpe : PatternSession.foundWords s' ≡ₚ PatternSession.solutions s).
      { apply submseteq_length_Permutation; [done|lia]. }
      by rewrite Hpe.
    + intros Hall.
      assert (Hincl' : PatternSession.solutions s ⊆+ PatternSession.foundWords s').
      { apply NoDup_submseteq; [done|]. exact Hall. }
      pose proof (submseteq_length _ _ Hincl'). lia.
Qed.

Lemma pattern_round_remaining_witness :
  PatternSession.foundWords
    (PatternSession.round demo_rng [word "ABC"] (PatternSession.mkState None [] [])
       ([] ++ [word "ABC"]))
  ≡ₚ word "ABC"
     :: PatternSession.foundWords
          (PatternSession.round demo_rng [word "ABC"]
             (PatternSession.mkState None [] []) []).
Proof.
  destruct (pattern_round_remaining demo_rng (word "ABC") []
              (PatternSession.mkState None [] []) [] (word "ABC") 0) as [H _];
    [|exact H].
  unfold PatternSession.round, PatternSession.run. cbn [foldl].
  rewrite PatternSessionFacts.pattern_start.
  rewrite PatternFacts.generate_last_resort by apply PatternFacts.single_word_trace.
  vm_compute. reflexivity.
Defined.

(** ** The Spelling Bee dictionary *)

Module DictionaryFacts.
Import Dictionary.

Lemma set_in_order_fold {A} `{Countable A} (l : list A) (seen : gset A)
    (order : list A) :
  seen = list_to_set order → NoDup order →
  let r := foldl (λ (st : gset A * list A) x,
                    let '(seen, order) := st in
                    if decide (x ∈ seen) then st
                    else ({[x]} ∪ seen, order ++ [x]))
                 (seen, order) l in
  r.1 = list_to_set r.2 ∧ NoDup r.2
  ∧ (∀ x, x ∈ r.2 ↔ x ∈ order ∨ x ∈ l)
  ∧ ∃ tail, r.2 = order ++ tail ∧ tail `sublist_of` l.
Proof.
  revert seen order. induction l as [|y l IH]; intros seen order Hseen Hnd; simpl.
  { split_and!; try done.
    - intros x. rewrite elem_of_nil. tauto.
    - exists []. by rewrite app_nil_r. }
  destruct (decide (y ∈ seen)) as [Hin|Hin].
  - destruct (IH seen order Hseen Hnd) as (H1 & H2 & H3 & tail & H4 & H5).
    split_and!; try done.
    + intros x. rewrite H3, elem_of_cons.
      split; [tauto|]. intros [?|[->|?]]; auto.
      left. rewrite Hseen in Hin. by apply elem_of_list_to_set in Hin.
    + exists tail. split; [done|]. by apply sublist_cons.
  - assert (Hnot : y ∉ order).
    { intros Hc. apply Hin. rewrite Hseen. by apply elem_of_list_to_set. }
    destruct (IH ({[y]} ∪ seen) (order ++ [y])) as (H1 & H2 & H3 & tail & H4 & H5).
    { rewrite Hseen, list_to_set_app_L. simpl. rewrite union_empty_r_L.
      apply (comm_L (∪)). }
    { apply NoDup_app. split_and!; [done| |apply NoDup_singleton].
      intros x Hx ->%list_elem_of_singleton. done. }
    split_and!; try done.
    + intros x. rewrite H3, elem_of_app, list_elem_of_singleton, elem_of_cons. tauto.
    + exists (y :: tail). split; [by rewrite H4, <- app_assoc|].
      by apply sublist_skip.
Qed.

Lemma set_in_order_spec {A} `{Countable A} (l : list A) :
  NoDup (set_in_order l) ∧ (∀ x, x ∈ set_in_order l ↔ x ∈ l)
  ∧ set_in_order l `sublist_of` l.
Proof.
  unfold set_in_order.
  destruct (set_in_order_fold l ∅ []) as (_ & H2 & H3 & tail & H4 & H5);
    [done|constructor|].
  cbn zeta in *. split_and!; [done| |].
  - intros x. rewrite H3, elem_of_nil. tauto.
  - by rewrite H4.
Qed.

(** Every run is made of letters. *)
Lemma letter_runs_letters (text : list ascii) (cur : Word) :
  Forall is_letter cur → Forall (Forall is_letter) (letter_runs text cur).
Proof.
  revert cur. induction text as [|c text IH]; intros cur Hcur; simpl.
  { by constructor. }
  destruct (decide (is_letter c)) as [Hc|Hc].
  - apply IH. apply Forall_app. split; [done|by constructor].
  - constructor; [done|]. apply IH. constructor.
Qed.

Lemma toUpperCase_length (w : Word) : length (toUpperCase w) = length w.
Proof. unfold toUpperCase. by rewrite length_fmap. Qed.

(** On letters the result is in [A-Z]. *)
Lemma toUpperCase_upper (w : Word) :
  Forall is_letter w → Forall is_upper (toUpperCase w).
Proof.
  unfold toUpperCase. intros Hw. apply Forall_fmap.
  eapply Forall_impl; [exact Hw|]. intros c Hc. simpl.
  destruct (decide (is_lower c)) as [[Hl Hu]|Hl].
  - unfold is_upper. rewrite nat_ascii_embedding by lia. lia.
  - by destruct Hc.
Qed.

Lemma filter_all {A} (P : A → Prop) `{∀ x, Decision (P x)} (l : list A) :
  Forall P l → filter P l = l.
Proof.
  induction 1 as [|x l Hx Hl IH]; [done|].
  rewrite filter_cons_True by done. by rewrite IH.
Qed.

(** The second length test of [extractDictionaryWords] removes nothing. *)
Lemma dictionary_words (text : list ascii) :
  filter (λ w : Word, 4 ≤ length w) (toUpperCase <$> regex_matches text)
  = toUpperCase <$> regex_matches text.
Proof.
  apply filter_all, Forall_fmap, Forall_forall. intros w Hw. simpl.
  rewrite toUpperCase_length. unfold regex_matches in Hw.
  by apply list_elem_of_filter in Hw as [? _].
Qed.

(** Every run is a stretch of consecutive units of the text. *)
Lemma letter_runs_infix (text : list ascii) (cur run : Word) :
  run ∈ letter_runs text cur →
  (∃ post, cur ++ text = run ++ post) ∨ (∃ pre post, text = pre ++ run ++ post).
Proof.
  revert cur. induction text as [|c text IH]; intros cur; simpl.
  { intros ->%list_elem_of_singleton. left. by exists []. }
  destruct (decide (is_letter c)) as [Hc|Hc].
  - intros [(post & Hp)|(pre & post & Hp)]%IH.
    + left. exists post. by rewrite <- Hp, <- app_assoc.
    + right. exists (c :: pre), post. by rewrite Hp.
  - intros [->|Hin]%elem_of_cons.
    + left. by exists (c :: text).
    + right. apply IH in Hin as [(post & Hp)|(pre & post & Hp)].
      * exists [c], post. simpl in *. by rewrite Hp.
      * exists (c :: pre), post. by rewrite Hp.
Qed.

Lemma extract_elem_of (text : list ascii) (w : Word) :
  w ∈ extractDictionaryWords text
  ↔ ∃ run, run ∈ letter_runs text [] ∧ 4 ≤ length run ∧ w = toUpperCase run.
Proof.
  unfold extractDictionaryWords. cbn zeta. rewrite dictionary_words.
  destruct (set_in_order_spec (toUpperCase <$> regex_matches text)) as (_ & Hin & _).
  rewrite Hin, list_elem_of_fmap. unfold regex_matches.
  split.
  - intros (run & -> & [Hlen Hrun]%list_elem_of_filter). by exists run.
  - intros (run & Hrun & Hlen & ->). exists run. split; [done|].
    by apply list_elem_of_filter.
Qed.

End DictionaryFacts.

(** X26. The words [extractDictionaryWords] returns are pairwise
    distinct; each has at least four letters, all of them in [A-Z], and is
    the upper case of a stretch of consecutive letters of the text; and
    every run of at least four letters that the pattern matches is among
    them in upper case. *)
Theorem dictionary_words_clean (text : list ascii) :
  NoDup (Dictionary.extractDictionaryWords text)
  ∧ (∀ w, w ∈ Dictionary.extractDictionaryWords text →
       4 ≤ length w ∧ Forall Dictionary.is_upper w
       ∧ ∃ pre run post, text = pre ++ run ++ post
           ∧ Forall Dictionary.is_letter run ∧ w = Dictionary.toUpperCase run)
  ∧ (∀ run, run ∈ Dictionary.letter_runs text [] → 4 ≤ length run →
       Dictionary.toUpperCase run ∈ Dictionary.extractDictionaryWords text).
Proof.
  split_and!.
  - unfold Dictionary.extractDictionaryWords. apply DictionaryFacts.set_in_order_spec.
  - intros w (run & Hrun & Hlen & ->)%DictionaryFacts.extract_elem_of.
    assert (Hletters : Forall Dictionary.is_letter run).
    { pose proof (DictionaryFacts.letter_runs_letters text [] (Forall_nil_2 _)) as Hall.
      rewrite Forall_forall in Hall. by apply Hall. }
    split_and!.
    + by rewrite DictionaryFacts.toUpperCase_length.
    + by apply DictionaryFacts.toUpperCase_upper.
    + apply DictionaryFacts.letter_runs_infix in Hrun as [(post & Hp)|(pre & post & Hp)].
      * exists [], run, post. by split_and!.
      * exists pre, run, post. by split_and!.
  - intros run Hrun Hlen. apply DictionaryFacts.extract_elem_of. by exists run.
Qed.

Example dictionary_demo :
  Dictionary.extractDictionaryWords (word "play, Players; a cat PLAY  replay")
  = [word "PLAY"; word "PLAYERS"; word "REPLAY"].
Proof. vm_compute. reflexivity. Qed.

(** ** The Quordle keyboard *)

Module QuordleKeyboardFacts.
Import Hints QuordleKeyboard.

Lemma four_slots_insert states L entry :
  four_slots states → length entry = 4 → four_slots (<[L := entry]> states).
Proof.
  intros Hs He L' e. rewrite lookup_insert. case_decide; [by intros [= <-]|apply Hs].
Qed.

(** Writing slot [b'] of a letter's entry changes the hints of board [b']
    for that letter and nothing else. *)
Lemma board_hints_insert states b b' L entry v :
  b' < length entry →
  board_hints b (<[L := <[b' := v]> entry]> states)
  = if decide (b = b')
    then match v with
         | Some sc => <[L := sc]> (board_hints b states)
         | None => delete L (board_hints b states)
         end
    else match default None (entry !! b) with
         | Some sc => <[L := sc]> (board_hints b states)
         | None => delete L (board_hints b states)
         end.
Proof.
  intros Hb'. unfold board_hints. apply map_eq. intros k.
  rewrite lookup_omap, lookup_insert.
  destruct (decide (b = b')) as [->|Hne].
  - destruct (decide (L = k)) as [->|HLk]; simpl.
    + rewrite list_lookup_insert_eq by done. simpl.
      destruct v; [by rewrite lookup_insert_eq|by rewrite lookup_delete_eq].
    + destruct v; [rewrite lookup_insert_ne by done|rewrite lookup_delete_ne by done];
        by rewrite lookup_omap.
  - destruct (decide (L = k)) as [->|HLk]; simpl.
    + rewrite list_lookup_insert_ne by done.
      destruct (default None (entry !! b));
        [by rewrite lookup_insert_eq|by rewrite lookup_delete_eq].
    + destruct (default None (entry !! b));
        [rewrite lookup_insert_ne by done|rewrite lookup_delete_ne by done];
        by rewrite lookup_omap.
Qed.

Lemma board_hints_lookup states b L :
  board_hints b states !! L
  = states !! L ≫= λ entry, default None (entry !! b).
Proof. unfold board_hints. apply lookup_omap. Qed.

(** Overwriting a hint with itself, or deleting one that is not there. *)
Lemma hints_same (m : gmap ascii Score) L (o : option Score) :
  m !! L = o →
  match o with
  | Some sc => <[L := sc]> m
  | None => delete L m
  end = m.
Proof.
  intros Hm. destruct o; [by apply insert_id|by apply delete_id].
Qed.

(** One update, seen from board [b]. *)
Lemma board_hints_update states b b' L status :
  four_slots states → b' < 4 →
  four_slots (board_update states b' L status)
  ∧ board_hints b (board_update states b' L status)
    = if decide (b = b') then hint_update (board_hints b states) L status
      else board_hints b states.
Proof.
  intros Hs Hb'. unfold board_update.
  set (states1 := match states !! L with
                  | Some _ => states
                  | None => <[L := blank]> states
                  end).
  set (entry := default blank (states1 !! L)).
  assert (Hs1 : four_slots states1).
  { unfold states1. destruct (states !! L); [done|]. by apply four_slots_insert. }
  assert (He1 : states1 !! L = Some entry).
  { unfold entry, states1. destruct (states !! L) as [e|] eqn:E.
    - by rewrite E.
    - by rewrite lookup_insert_eq. }
  assert (Hlen : length entry = 4) by (by eapply Hs1).
  assert (Hh1 : ∀ c, board_hints c states1 = board_hints c states).
  { intros c. unfold states1. destruct (states !! L) as [e|] eqn:E; [done|].
    unfold board_hints. apply map_eq. intros k. rewrite !lookup_omap, lookup_insert.
    case_decide as Hk; [|done]. subst k. rewrite E. simpl. unfold blank.
    destruct (decide (c < 4)).
    - by rewrite lookup_replicate_2.
    - by rewrite lookup_ge_None_2 by (rewrite length_replicate; lia). }
  assert (Hprev : ∀ c, board_hints c states !! L = default None (entry !! c)).
  { intros c. rewrite <- Hh1, board_hints_lookup, He1. done. }
  assert (Hset : ∀ sc,
    four_slots (<[L := <[b' := Some sc]> entry]> states1)
    ∧ board_hints b (<[L := <[b' := Some sc]> entry]> states1)
      = if decide (b = b') then <[L := sc]> (board_hints b states)
        else board_hints b states).
  { intros sc. split.
    - apply four_slots_insert; [done|]. by rewrite length_insert.
    - rewrite board_hints_insert by lia. rewrite Hh1.
      destruct (decide (b = b')); [done|].
      apply hints_same. apply Hprev. }
  assert (Hkeep : four_slots states1
    ∧ board_hints b states1 = board_hints b states) by (by split).
  destruct (decide (b = b')) as [->|Hne].
  - unfold hint_update. rewrite (Hprev b').
    destruct status.
    + apply Hset.
    + destruct (decide (default None (entry !! b') ≠ Some Correct));
        [apply Hset|exact Hkeep].
    + destruct (default None (entry !! b')); [exact Hkeep|apply Hset].
  - destruct status.
    + apply Hset.
    + destruct (decide (default None (entry !! b') ≠ Some Correct));
        [apply Hset|exact Hkeep].
    + destruct (default None (entry !! b')); [exact Hkeep|apply Hset].
Qed.

(** One guess on one board, seen from board [b]. *)
Lemma board_hints_row states b b' (guess : Word) resultRow :
  four_slots states → b' < 4 →
  four_slots (board_row states b' guess resultRow)
  ∧ board_hints b (board_row states b' guess resultRow)
    = if decide (b = b') then hint_row (board_hints b states) guess resultRow
      else board_hints b states.
Proof.
  intros Hs Hb'. unfold board_row, hint_row.
  induction (length guess) as [|n IH].
  { simpl. split; [done|]. by destruct (decide (b = b')). }
  rewrite seq_S, !foldl_app. cbn [foldl Nat.add].
  destruct IH as [IH1 IH2].
  destruct (guess !! n) as [letter|]; [|by split].
  destruct (resultRow !! n) as [status|]; [|by split].
  destruct (board_hints_update _ b b' letter status IH1 Hb') as [H1 H2].
  split; [done|]. rewrite H2, IH2. by destruct (decide (b = b')).
Qed.

(** One guess on the first [k] boards, seen from board [b]. *)
Lemma board_hints_boards (results : list (list (list Score))) guessIndex
    (guess : Word) states b k :
  four_slots states → k ≤ 4 →
  let after :=
    foldl (λ states boardIndex,
             let boardRows := default [] (results !! boardIndex) in
             let resultRow := default [] (boardRows !! guessIndex) in
             board_row states boardIndex guess resultRow)
          states (seq 0 k) in
  four_slots after
  ∧ board_hints b after
    = if decide (b < k)
      then hint_row (board_hints b states) guess
             (default [] (default [] (results !! b) !! guessIndex))
      else board_hints b states.
Proof.
  intros Hs. induction k as [|k IH]; intros Hk after.
  { split; [done|]. by rewrite decide_False by lia. }
  destruct IH as [IH1 IH2]; [lia|].
  subst after. rewrite seq_S, foldl_app. cbn [foldl Nat.add].
  destruct (board_hints_row _ b k guess
              (default [] (default [] (results !! k) !! guessIndex)) IH1 ltac:(lia))
    as [H1 H2].
  split; [exact H1|]. etrans; [exact H2|]. rewrite IH2.
  destruct (decide (b = k)) as [->|Hne].
  - rewrite decide_False by lia. by rewrite decide_True by lia.
  - destruct (decide (b < k)), (decide (b < S k)); try done; lia.
Qed.

(** All the guesses, seen from board [b]. *)
Lemma board_hints_rows (results : list (list (list Score))) guessIndex guesses
    states b :
  four_slots states → b < 4 →
  board_hints b (guess_rows results guessIndex guesses states)
  = hint_rows (default [] (results !! b)) guessIndex guesses (board_hints b states).
Proof.
  revert guessIndex states.
  induction guesses as [|guess rest IH]; intros guessIndex states Hs Hb; [done|].
  cbn [guess_rows hint_rows].
  destruct (board_hints_boards results guessIndex guess states b 4 Hs ltac:(lia))
    as [H1 H2].
  cbn zeta in H1, H2. rewrite decide_True in H2 by done.
  unfold guess_boards. rewrite IH by done. by rewrite H2.
Qed.

End QuordleKeyboardFacts.

(** X27. The Quordle keyboard keeps four hints per letter, one for each
    board: the hints of board [b] are the hints that the Wordle keyboard
    computes from the guesses and board [b]'s feedback alone. *)
Theorem quordle_hints_per_board (guesses : list Word)
    (results : list (list (list Score))) (b : nat) :
  b < 4 →
  QuordleKeyboard.board_hints b (QuordleKeyboard.quordleLetterStates guesses results)
  = Hints.wordleLetterStates guesses (default [] (results !! b)).
Proof.
  intros Hb. unfold QuordleKeyboard.quordleLetterStates, Hints.wordleLetterStates.
  rewrite QuordleKeyboardFacts.board_hints_rows; [|by intros L e ?|done].
  reflexivity.
Qed.

Lemma quordle_hints_per_board_witness :
  QuordleKeyboard.board_hints 1
    (QuordleKeyboard.quordleLetterStates (Quordle.quordleGuesses demo_quordle_lost)
       (Quordle.quordleResults demo_quordle_lost))
  = Hints.wordleLetterStates (Quordle.quordleGuesses demo_quordle_lost)
      (default [] (Quordle.quordleResults demo_quordle_lost !! 1)).
Proof. apply (quordle_hints_per_board _ _ 1). lia. Defined.

(** X28. The Quordle keyboard in every state a round on five-letter words
    can reach: for each board, a letter's hint is green, yellow, grey or
    blank as on the Wordle keyboard, read against that board's answer. *)
Theorem quordle_keyboard_explained (words : list Word) (wordSet : option (gset Word))
    (s : Quordle.State) (answers : list Word) (b : nat) (a : Word) (L : ascii) :
  Forall (λ w : Word, length w = 5) words →
  Quordle.reachable words wordSet s →
  Quordle.quordleAnswers s = Some answers →
  answers !! b = Some a →
  Keyboard.explains
    (QuordleKeyboard.board_hints b
       (QuordleKeyboard.quordleLetterStates (Quordle.quordleGuesses s)
          (Quordle.quordleResults s)) !! L)
    (Quordle.quordleGuesses s) a L.
Proof.
  intros Hlen Hreach Ha Hb.
  destruct (QuordleMore.quordle_invariant _ _ _ Hreach)
    as (answers' & Ha' & (H4 & _ & Hsub) & _ & Hboards).
  assert (answers' = answers) as -> by congruence.
  destruct (Hboards b a Hb) as [Hres _].
  assert (Hb4 : b < 4).
  { apply lookup_lt_Some in Hb. lia. }
  assert (Heq : QuordleKeyboard.board_hints b
             (QuordleKeyboard.quordleLetterStates (Quordle.quordleGuesses s)
                (Quordle.quordleResults s))
           = Hints.wordleLetterStates (Quordle.quordleGuesses s)
               ((λ g, Scoring.scoreWordleGuess g a) <$> Quordle.quordleGuesses s)).
  { unfold QuordleKeyboard.quordleLetterStates, Hints.wordleLetterStates.
    rewrite QuordleKeyboardFacts.board_hints_rows; [|by intros L' e ?|done].
    rewrite Hres. reflexivity. }
  rewrite Heq. apply KeyboardFacts.hints_against_target.
  assert (Hin : a ∈ words).
  { apply Hsub. by eapply list_elem_of_lookup_2. }
  rewrite Forall_forall in Hlen. rewrite (Hlen a Hin).
  exact (QuordleMore.quordle_guesses_five _ _ _ Hreach).
Qed.

Lemma quordle_keyboard_explained_witness :
  Keyboard.explains
    (QuordleKeyboard.board_hints 2
       (QuordleKeyboard.quordleLetterStates (Quordle.quordleGuesses demo_quordle_lost)
          (Quordle.quordleResults demo_quordle_lost)) !! "A"%char)
    (Quordle.quordleGuesses demo_quordle_lost) (word "APPLE") "A"%char.
Proof.
  apply (quordle_keyboard_explained demo_words demo_set demo_quordle_lost
           [word "LASER"; word "LATER"; word "APPLE"; word "EERIE"] 2 (word "APPLE")
           "A"%char).
  - eapply Forall_impl; [exact demo_corpus|]. by intros w [? _].
  - exact demo_quordle_reachable.
  - vm_compute. reflexivity.
  - reflexivity.
Defined.

(** ** A Spelling Bee round on the downloaded dictionary *)

Module BeeDictionaryFacts.
Import BeeSession BeeRound.

(** The state [startNewBeeGame] sets when the build succeeds. *)
Lemma bee_start_state rng rngOuter (beeDict : list Word) s0 puzzle :
  beeDictLoading s0 = false → Bee.buildBeePuzzle rng beeDict = Some puzzle →
  beeValidWords (startNewBeeGame rng rngOuter "" beeDict s0) = Bee.valid puzzle
  ∧ beeFoundWords (startNewBeeGame rng rngOuter "" beeDict s0) = [].
Proof.
  intros Hload Hbuild.
  assert (Hdict : length beeDict ≠ 0).
  { destruct beeDict; [|done]. by rewrite BeeRoundFacts.buildBeePuzzle_nil in Hbuild. }
  unfold startNewBeeGame.
  rewrite Hload, decide_False by (by intros ?). rewrite decide_False by done.
  rewrite Hbuild. by destruct (Bee.center puzzle).
Qed.

(** A list of distinct words inside another of the same length holds
    every word of it. *)
Lemma all_found (found valid : list Word) :
  NoDup found → NoDup valid → (∀ w, w ∈ found → w ∈ valid) →
  length found ≤ length valid
  ∧ (length valid = length found ↔ ∀ w, w ∈ valid → w ∈ found).
Proof.
  intros Hf Hv Hsub.
  assert (Hincl : found ⊆+ valid) by (by apply NoDup_submseteq).
  pose proof (submseteq_length _ _ Hincl) as Hle. split; [done|]. split.
  - intros Hlen w Hw.
    assert (Hpe : found ≡ₚ valid) by (apply submseteq_length_Permutation; [done|lia]).
    by rewrite Hpe.
  - intros Hall.
    assert (Hincl' : valid ⊆+ found) by (by apply NoDup_submseteq).
    pose proof (submseteq_length _ _ Hincl'). lia.
Qed.

End BeeDictionaryFacts.

(** X29. A Spelling Bee round on the dictionary extracted from a text:
    after [startNewBeeGame] has built a puzzle and after any submissions,
    the valid words are pairwise distinct words in upper-case letters, the
    found words never outnumber them, and the two counts are equal, which is
    when the handler reports that all words are found, exactly when every
    valid word has been found. *)
Theorem bee_round_found_them_all (rng rngOuter : Rng) (text : list ascii)
    (s0 : BeeSession.State) (puzzle : Bee.Puzzle) (raws : list Word) :
  BeeSession.beeDictLoading s0 = false →
  Bee.buildBeePuzzle rng (Dictionary.extractDictionaryWords text) = Some puzzle →
  let s := BeeRound.run
             (BeeRound.startNewBeeGame rng rngOuter ""
                (Dictionary.extractDictionaryWords text) s0) raws in
  NoDup (BeeSession.beeValidWords s)
  ∧ Forall (λ w : Word, 4 ≤ length w ∧ Forall Dictionary.is_upper w)
           (BeeSession.beeValidWords s)
  ∧ length (BeeSession.beeFoundWords s) ≤ length (BeeSession.beeValidWords s)
  ∧ (length (BeeSession.beeValidWords s) = length (BeeSession.beeFoundWords s)
     ↔ ∀ w, w ∈ BeeSession.beeValidWords s → w ∈ BeeSession.beeFoundWords s).
Proof.
  intros Hload Hbuild s.
  destruct (BeeDictionaryFacts.bee_start_state rng rngOuter _ s0 puzzle Hload Hbuild)
    as [Hvalid Hfound].
  destruct (HiveMore.built_well_formed rng _ puzzle Hbuild)
    as (_ & _ & _ & _ & Hsub & _).
  pose proof (DictionaryFacts.extract_elem_of text) as Hdict.
  assert (Hnd : NoDup (Dictionary.extractDictionaryWords text)).
  { unfold Dictionary.extractDictionaryWords. apply DictionaryFacts.set_in_order_spec. }
  pose proof (DictionaryFacts.letter_runs_letters text [] (Forall_nil_2 _)) as Hruns.
  revert s Hvalid Hfound Hsub Hdict Hnd.
  generalize (BeeRound.startNewBeeGame rng rngOuter ""
                (Dictionary.extractDictionaryWords text) s0).
  generalize (Dictionary.extractDictionaryWords text).
  intros beeDict start s Hvalid Hfound Hsub Hdict Hnd.
  destruct (BeeRoundFacts.bee_run_puzzle start raws) as (_ & _ & H3 & _).
  destruct (BeeRoundFacts.bee_found_run start raws) as [Hndf Hsubf].
  { rewrite Hfound. constructor. }
  { rewrite Hfound. by intros w ?%elem_of_nil. }
  fold s in H3, Hndf, Hsubf.
  assert (Hndv : NoDup (BeeSession.beeValidWords s)).
  { rewrite H3, Hvalid. exact (sublist_NoDup _ _ Hnd Hsub). }
  destruct (BeeDictionaryFacts.all_found _ _ Hndf Hndv Hsubf) as [Hle Hall].
  split_and!; [done| |done|done].
  rewrite H3, Hvalid. apply Forall_forall. intros w Hw.
  assert (Hin : w ∈ beeDict) by exact (elem_of_sublist _ _ _ Hw Hsub).
  apply Hdict in Hin as (run & Hrun & Hlen & ->).
  rewrite Forall_forall in Hruns.
  split; [by rewrite DictionaryFacts.toUpperCase_length|].
  by apply DictionaryFacts.toUpperCase_upper, Hruns.
Qed.

Lemma bee_round_found_them_all_witness :
  ∃ puzzle,
    Bee.buildBeePuzzle demo_rng
      (Dictionary.extractDictionaryWords
         demo_text)
    = Some puzzle
    ∧ NoDup (BeeSession.beeValidWords
               (BeeRound.run
                  (BeeRound.startNewBeeGame demo_rng demo_rng ""
                     (Dictionary.extractDictionaryWords
                        demo_text)
                     (BeeSession.mkState None None [] [] [] false)) [])).
Proof.
  assert (Hb : ∃ p, Bee.buildBeePuzzle demo_rng
      (Dictionary.extractDictionaryWords
         demo_text)
      = Some p).
  { eexists. vm_compute. reflexivity. }
  destruct Hb as [p Hp]. exists p. split; [exact Hp|].
  destruct (bee_round_found_them_all demo_rng demo_rng
              demo_text
              (BeeSession.mkState None None [] [] [] false) p [] eq_refl Hp)
    as [H _].
  exact H.
Defined.
